(** * my-app-server: the agent bridge of [index.js]

  A shallow embedding of the request/response correlation layer of the
  server: the message handler installed by [setupWebSocket], the
  directory-listing cache [tempDirFiles], [fetchFileFromAgent] with its
  loose path matching, and the three HTTP routes built on them
  ([/files/:dir], [/file/view/:dir/:filename], [/download-all/:dir]).

  Node runs one callback at a time, to completion.  The model follows
  that: a state record for the process-wide variables, one function per
  callback, and an [async] function cut at its [await]s into the pieces
  that run between two suspensions. *)

From Stdlib Require Import Ascii String ZArith Lia Bool List.
From stdpp Require Import base option list gmap strings fin_maps pretty.

Set Default Proof Using "Type".
Set Warnings "-register-all".

(** ** JavaScript strings

  A string is a sequence of code units; the operations used by the server
  (prefix and suffix tests, replacing separators, taking the last path
  segment) look at single code units only. *)

Module JsString.

Definition chars (s : string) : list ascii := String.list_ascii_of_string s.
Definition str (l : list ascii) : string := String.string_of_list_ascii l.

Definition slash : ascii := "/"%char.
Definition backslash : ascii := "\"%char.
Definition underscore : ascii := "_"%char.
Definition colon : ascii := ":"%char.

Definition is_slash (c : ascii) : bool := Ascii.eqb c slash.
Definition is_backslash (c : ascii) : bool := Ascii.eqb c backslash.

(** The character class [[\/\\]]. *)
Definition is_sep (c : ascii) : bool := is_slash c || is_backslash c.

(** The character class [[a-zA-Z]]. *)
Definition is_letter (c : ascii) : bool :=
  let n := nat_of_ascii c in
  ((65 <=? n) && (n <=? 90)) || ((97 <=? n) && (n <=? 122)).

(** [s.startsWith(p)] *)
Definition startsWith (s p : string) : bool := String.prefix p s.

(** [s.endsWith(t)]: the last [t.length] code units of [s] are [t]. *)
Definition endsWith (s t : string) : bool :=
  let cs := chars s in
  let ct := chars t in
  (length ct <=? length cs) &&
  bool_decide (drop (length cs - length ct) cs = ct).

(** [s.replace(/\\/g, "/")] *)
Definition replace_backslashes (s : string) : string :=
  str (map (fun c => if is_backslash c then slash else c) (chars s)).

(** [s.replace(/[\/\\]/g, "_")] *)
Definition replace_separators (s : string) : string :=
  str (map (fun c => if is_sep c then underscore else c) (chars s)).

(** [s.replace(/[\/\\]$/, "")]: without the [m] flag, [$] is the end of
    the input, so at most the last code unit goes. *)
Definition strip_trailing_separator (s : string) : string :=
  match rev (chars s) with
  | c :: r => if is_sep c then str (rev r) else s
  | [] => s
  end.

(** [s.match(/^[a-zA-Z]:/)], as the truth value the [if] sees. *)
Definition matches_drive_letter (s : string) : bool :=
  match s with
  | String c (String d _) => is_letter c && Ascii.eqb d colon
  | _ => false
  end.

End JsString.

(** ** [path.basename] (POSIX flavour of Node's [path] module)

  Scanning from the end: trailing slashes are skipped, then everything up
  to the previous slash is the base name.  A path made of slashes only
  has the empty base name. *)

Module Path.
Import JsString.

Fixpoint drop_while (p : ascii -> bool) (l : list ascii) : list ascii :=
  match l with
  | c :: r => if p c then drop_while p r else l
  | [] => []
  end.

Fixpoint take_while (p : ascii -> bool) (l : list ascii) : list ascii :=
  match l with
  | c :: r => if p c then c :: take_while p r else []
  | [] => []
  end.

Definition basename (s : string) : string :=
  str (rev (take_while (fun c => negb (is_slash c))
              (drop_while is_slash (rev (chars s))))).

End Path.

(** ** The loose matching of [fetchFileFromAgent]'s handler *)

Module Matching.
Import JsString.

(** [const match = reqNorm === resNorm || resNorm.endsWith(reqNorm) ||
    reqNorm.endsWith(resNorm) ||
    path.basename(reqNorm) === path.basename(resNorm)] *)
Definition loose_match (reqNorm resNorm : string) : bool :=
  String.eqb reqNorm resNorm ||
  endsWith resNorm reqNorm ||
  endsWith reqNorm resNorm ||
  String.eqb (Path.basename reqNorm) (Path.basename resNorm).

(** The same disjunction without its first operand. *)
Definition loose_match_without_exact (reqNorm resNorm : string) : bool :=
  endsWith resNorm reqNorm ||
  endsWith reqNorm resNorm ||
  String.eqb (Path.basename reqNorm) (Path.basename resNorm).



(** The handler's test on the raw paths: both are normalised first. *)
Definition handler_matches (filePath receivedPath : string) : bool :=
  loose_match (replace_backslashes filePath) (replace_backslashes receivedPath).


End Matching.

(** ** The logical path requested from the agent *)

Module RequestPath.
Import JsString.

(** The test of the first [if] of [fetchFileFromAgent]. *)
Definition looks_absolute (filename : string) : bool :=
  startsWith filename "/" || startsWith filename "storage" ||
  matches_drive_letter filename.

Definition filePath (dir filename : string) : string :=
  if looks_absolute filename then filename
  else
    let cleanDir := strip_trailing_separator dir in
    cleanDir +:+ "/" +:+ filename.

End RequestPath.


(** ** JavaScript values that reach the server

  Everything the agent sends goes through [JSON.parse], so the values the
  handlers see are JSON values; [undefined] (a missing property) is
  [None].  A number is kept as the text [String(n)] gives for it. *)

Module Js.

Inductive json :=
| JNull
| JBool (b : bool)
| JNum (repr : string)
| JStr (s : string)
| JArr (items : list json)
| JObj (fields : list (string * json)).

Definition value : Type := option json.

Inductive exn :=
| SyntaxError          (* JSON.parse *)
| TypeError            (* property of null/undefined, call of a non-function *)
| NotOpenError         (* ws: send on a CONNECTING socket *)
| FsError (code : string).

(** An own property of an object literal; with a repeated key
    [JSON.parse] keeps the last one. *)
Fixpoint own_property (k : string) (fields : list (string * json)) : value :=
  match fields with
  | [] => None
  | (k', v) :: r =>
      match own_property k r with
      | Some w => Some w
      | None => if String.eqb k k' then Some v else None
      end
  end.

(** [data.k] for one of the keys the server reads ([type], [path],
    [content], [dir], [files]): none of them is a property of a string,
    number, boolean or array.  [None] is the [TypeError] of reading a
    property of [null]. *)
Definition get (data : json) (k : string) : option value :=
  match data with
  | JNull => None
  | JObj fields => Some (own_property k fields)
  | _ => Some None
  end.

(** [!!v] *)
Definition truthy (v : value) : bool :=
  match v with
  | None | Some JNull => false
  | Some (JBool b) => b
  | Some (JNum r) => negb (String.eqb r "0")
  | Some (JStr s) => negb (String.eqb s "")
  | Some (JArr _) | Some (JObj _) => true
  end.

(** [v.length] for [v] other than [null] and [undefined]. *)
Definition length_of (v : json) : value :=
  match v with
  | JStr s => Some (JNum (pretty (String.length s)))
  | JArr l => Some (JNum (pretty (length l)))
  | JObj f => own_property "length" f
  | _ => None
  end.

(** [x === 0] *)
Definition is_zero (x : value) : bool :=
  match x with
  | Some (JNum r) => String.eqb r "0"
  | _ => false
  end.

(** [String(v)], as a template literal or a property key computes it.
    [None] is the [TypeError] of an object whose own [toString] (never a
    function in JSON) hides the inherited one. *)
Fixpoint to_string (j : json) : option string :=
  match j with
  | JNull => Some "null"
  | JBool true => Some "true"
  | JBool false => Some "false"
  | JNum r => Some r
  | JStr s => Some s
  | JArr l =>
      (fix join (l : list json) : option string :=
         match l with
         | [] => Some ""
         | x :: r =>
             match (match x with JNull => Some "" | _ => to_string x end) with
             | None => None
             | Some sx =>
                 match r with
                 | [] => Some sx
                 | _ => match join r with
                        | None => None
                        | Some sr => Some (sx +:+ "," +:+ sr)
                        end
                 end
             end
         end) l
  | JObj f =>
      match own_property "toString" f with
      | Some _ => None
      | None => Some "[object Object]"
      end
  end.

Definition render (v : value) : option string :=
  match v with
  | None => Some "undefined"
  | Some j => to_string j
  end.

(** The elements a [for ... of] visits; [None] when the value is not
    iterable.  A string is visited code unit by code unit. *)
Definition iterate (j : json) : option (list json) :=
  match j with
  | JArr l => Some l
  | JStr s => Some (map (fun c => JStr (String c EmptyString)) (JsString.chars s))
  | _ => None
  end.

End Js.

(** ** The server process *)

Module Server.
Import Js.

(** [WebSocket.CONNECTING], [OPEN], [CLOSING], [CLOSED]. *)
Inductive ready_state := CONNECTING | OPEN | CLOSING | CLOSED.

(** The two commands the server writes on the agent channel. *)
Inductive command :=
| request_dir (path : string)
| request_file (path : string).

(** One call of [fetchFileFromAgent]: the HTTP request that makes it and,
    in the archive loop, the position of the entry in the listing (the
    single fetch of a file view has position 0). *)
Definition fetch_id : Type := nat * nat.

(** What one call of [fetchFileFromAgent] leaves behind while its promise
    is pending: the [handler] closure registered on [fileEvents] (it
    captures [filePath]) and the 60 s timer, due at [w_due].  The two are
    always set and cleared together. *)
Record waiter := Waiter {
  w_id : fetch_id;
  w_filePath : string;
  w_due : Z
}.

(** The object emitted on [fileEvents]: [{ path: data.path, savePath }]. *)
Record fileData := FileData {
  fd_path : string;
  fd_savePath : string
}.

(** What [Buffer.from] was given; decoding is not needed here. *)
Inductive payload :=
| FromBase64 (text : string)
| FromArrayLike (source : json).

(** A suspended route handler: where it waits and what it still holds. *)
Inductive task :=
| FilesPolling (dir : string) (timeout : Z) (wake : Z)
| ViewAwaiting
| ViewSending (savePath : string)
| ZipAwaiting (dir : string) (idx : nat) (file : json) (rest : list json)
| ZipFinalizing.

Inductive response :=
| StatusJson (status : nat) (error : string)
| Json (body : json)
| File (savePath : string)
| Attachment (name : string).

Inductive log_entry :=
| LogAgentConnected
| LogAgentDisconnected
| LogReceivedFile (safeName path : string)
| LogReceivedFiles (dir count : string)
| LogSentRequestDir (dir : string)
| LogRequestingFile (filePath : string)
| LogMatched (received filePath : string)
| LogErrorInFileView (e : exn)
| LogStartingZip (count dir : string)
| LogFetchingForZip (file : string)
| LogFailedToFetch (file : string) (e : exn)
| LogZipFinalized
| LogReceivedMessage (data : json).

(** What the process does that can be observed from outside, in order. *)
Inductive event :=
| SentDir (req : nat) (dir : string)
| SentFile (f : fetch_id) (filePath : string)
| Console (l : log_entry)
| Settled (f : fetch_id) (v : option string)
| Rejected (f : fetch_id) (e : exn)
| Responded (req : nat) (r : response)
| ArchiveFile (req : nat) (savePath name : string)
| ArchiveFinalize (req : nat)
| Unhandled (req : nat) (e : exn)
| Uncaught (e : exn).

(** The process-wide variables of [index.js] and what Node keeps for it.
    [tempDirFiles] is the object used as a map from directory to listing
    (own properties only).  [listeners] are the ['file'] listeners of
    [fileEvents], oldest first.  Paths in [uploads] are relative to
    [__dirname]. *)
Record state := State {
  now : Z;
  agentSocket : option ready_state;
  tempDirFiles : gmap string json;
  listeners : list waiter;
  uploads : gmap string payload;
  tasks : gmap nat task;
  microtasks : list (fetch_id * option string);
  trace : list (Z * event);
  next_req : nat;
  alive : bool
}.

Definition init : state :=
  State 0 None ∅ [] ∅ ∅ [] [] 0 true.

Definition set_now (f : Z -> Z) (st : state) : state :=
  State (f (now st)) (agentSocket st) (tempDirFiles st) (listeners st)
        (uploads st) (tasks st) (microtasks st) (trace st) (next_req st)
        (alive st).
Definition set_agentSocket (s : option ready_state) (st : state) : state :=
  State (now st) s (tempDirFiles st) (listeners st)
        (uploads st) (tasks st) (microtasks st) (trace st) (next_req st)
        (alive st).
Definition set_tempDirFiles (f : gmap string json -> gmap string json)
    (st : state) : state :=
  State (now st) (agentSocket st) (f (tempDirFiles st)) (listeners st)
        (uploads st) (tasks st) (microtasks st) (trace st) (next_req st)
        (alive st).
Definition set_listeners (f : list waiter -> list waiter) (st : state) : state :=
  State (now st) (agentSocket st) (tempDirFiles st) (f (listeners st))
        (uploads st) (tasks st) (microtasks st) (trace st) (next_req st)
        (alive st).
Definition set_uploads (f : gmap string payload -> gmap string payload)
    (st : state) : state :=
  State (now st) (agentSocket st) (tempDirFiles st) (listeners st)
        (f (uploads st)) (tasks st) (microtasks st) (trace st) (next_req st)
        (alive st).
Definition set_tasks (f : gmap nat task -> gmap nat task) (st : state) : state :=
  State (now st) (agentSocket st) (tempDirFiles st) (listeners st)
        (uploads st) (f (tasks st)) (microtasks st) (trace st) (next_req st)
        (alive st).
Definition set_microtasks
    (f : list (fetch_id * option string) -> list (fetch_id * option string))
    (st : state) : state :=
  State (now st) (agentSocket st) (tempDirFiles st) (listeners st)
        (uploads st) (tasks st) (f (microtasks st)) (trace st) (next_req st)
        (alive st).
Definition set_trace (f : list (Z * event) -> list (Z * event)) (st : state) : state :=
  State (now st) (agentSocket st) (tempDirFiles st) (listeners st)
        (uploads st) (tasks st) (microtasks st) (f (trace st)) (next_req st)
        (alive st).
Definition set_next_req (n : nat) (st : state) : state :=
  State (now st) (agentSocket st) (tempDirFiles st) (listeners st)
        (uploads st) (tasks st) (microtasks st) (trace st) n
        (alive st).
Definition set_alive (b : bool) (st : state) : state :=
  State (now st) (agentSocket st) (tempDirFiles st) (listeners st)
        (uploads st) (tasks st) (microtasks st) (trace st) (next_req st)
        b.

(** *** Statements that may throw *)

Inductive outcome (A : Type) :=
| Ok (a : A) (st : state)
| Throw (e : exn) (st : state).
Arguments Ok {A} a st.
Arguments Throw {A} e st.

Definition M (A : Type) : Type := state -> outcome A.

Definition ret {A} (a : A) : M A := fun st => Ok a st.
Definition throw {A} (e : exn) : M A := fun st => Throw e st.
Definition bind {A B} (m : M A) (k : A -> M B) : M B :=
  fun st => match m st with
            | Ok a st1 => k a st1
            | Throw e st1 => Throw e st1
            end.
Definition effect (f : state -> state) : M unit := fun st => Ok tt (f st).
Definition or_throw {A} (e : exn) (o : option A) : M A :=
  match o with Some a => ret a | None => throw e end.

Notation "'do' x <- m ;; k" := (bind m (fun x => k))
  (at level 10, x name, m at level 99, k at level 200, only parsing).

(** *** Observable effects *)

Definition add_event (e : event) (st : state) : state :=
  set_trace (fun t => t ++ [(now st, e)]) st.
Definition console (l : log_entry) : state -> state := add_event (Console l).
Definition respond (req : nat) (r : response) : state -> state :=
  add_event (Responded req r).
Definition set_task (req : nat) (t : task) : state -> state :=
  set_tasks (fun m => <[req := t]> m).
Definition del_task (req : nat) : state -> state :=
  set_tasks (fun m => delete req m).

(** An [async] route handler that throws outside any [try]: the rejection
    of its promise is handled by nobody. *)
Definition unhandled (req : nat) (e : exn) : state -> state :=
  add_event (Unhandled req e).

(** *** The agent socket *)

(** The negation of the guard
    [!agentSocket || agentSocket.readyState !== WebSocket.OPEN]. *)
Definition socket_open (st : state) : bool :=
  match agentSocket st with
  | Some OPEN => true
  | _ => false
  end.

(** [agentSocket.send(JSON.stringify(...))].  Calling a method of [null]
    throws; [ws] throws on a socket that is still connecting and (from
    version 7 on) drops the data silently on a closing or closed one. *)
Definition agentSocket_send (sent : event) : M unit := fun st =>
  match agentSocket st with
  | None => Throw TypeError st
  | Some CONNECTING => Throw NotOpenError st
  | Some OPEN => Ok tt (add_event sent st)
  | Some CLOSING | Some CLOSED => Ok tt st
  end.

(** *** The transient file store *)

Definition UPLOAD_DIR : string := "uploads".

(** [path.join(UPLOAD_DIR, safeName)].  [safeName] has no separator, so
    it is one segment; only the empty, [.] and [..] segments are
    normalised away. *)
Definition path_join_UPLOAD_DIR (safeName : string) : string :=
  if String.eqb safeName "" || String.eqb safeName "." then UPLOAD_DIR
  else if String.eqb safeName ".." then "."
  else UPLOAD_DIR +:+ "/" +:+ safeName.

Definition has_nul (s : string) : bool :=
  existsb (fun c => Ascii.eqb c zero) (JsString.chars s).

(** [fs.writeFileSync(savePath, buffer)]: fails on a directory and on a
    name with a NUL; otherwise the write is taken to succeed. *)
Definition writeFileSync (savePath : string) (buffer : payload) : M unit :=
  if String.eqb savePath UPLOAD_DIR || String.eqb savePath "." then
    throw (FsError "EISDIR")
  else if has_nul savePath then throw TypeError
  else effect (set_uploads (fun m => <[savePath := buffer]> m)).

(** [fs.unlinkSync(savePath)] *)
Definition unlinkSync (savePath : string) : M unit := fun st =>
  match uploads st !! savePath with
  | Some _ => Ok tt (set_uploads (fun m => delete savePath m) st)
  | None => Throw (FsError "ENOENT") st
  end.

(** [Buffer.from(data.content, "base64")] *)
Definition Buffer_from (content : value) : M payload :=
  match content with
  | Some (JStr s) => ret (FromBase64 s)
  | Some (JArr l) => ret (FromArrayLike (JArr l))
  | Some (JObj f) =>
      match own_property "valueOf" f with
      | Some (JStr EmptyString) => ret (FromBase64 "")
      | v =>
          if truthy v then throw TypeError
          else match own_property "length" f with
               | Some _ => ret (FromArrayLike (JObj f))
               | None =>
                   match own_property "type" f, own_property "data" f with
                   | Some (JStr t), Some (JArr d) =>
                       if String.eqb t "Buffer" then ret (FromArrayLike (JArr d))
                       else throw TypeError
                   | _, _ => throw TypeError
                   end
               end
      end
  | _ => throw TypeError
  end.

(** *** [fileEvents] and the promise of [fetchFileFromAgent] *)

(** [fileEvents.off('file', handler)]; also stands for [clearTimeout]. *)
Definition fileEvents_off (f : fetch_id) : state -> state :=
  set_listeners (fun l => filter (fun w => w_id w <> f) l).

(** [resolve(v)]: the continuation of the awaiting function is queued
    and runs when the current callback has returned. *)
Definition resolve (f : fetch_id) (v : option string) (st : state) : state :=
  add_event (Settled f v) (set_microtasks (fun q => q ++ [(f, v)]) st).

(** The [handler] closure of the waiter [w], called with [fileData]. *)
Definition handler (w : waiter) (fd : fileData) (st : state) : state :=
  if Matching.handler_matches (w_filePath w) (fd_path fd) then
    resolve (w_id w) (Some (fd_savePath fd))
      (fileEvents_off (w_id w)
         (console (LogMatched (fd_path fd) (w_filePath w)) st))
  else st.

(** [fileEvents.emit('file', fileData)]: every listener registered when
    the emit starts is called, in registration order. *)
Definition fileEvents_emit (fd : fileData) (st : state) : state :=
  fold_left (fun s w => handler w fd s) (listeners st) st.

(** The callback of the 60 s timer. *)
Definition on_timeout (f : fetch_id) (st : state) : state :=
  resolve f None (fileEvents_off f st).

(** [fetchFileFromAgent(dir, filename)] up to the point where its promise
    is returned.  [filename] is whatever the caller passes: a route
    parameter (a string) or an element of a cached listing. *)
Definition fetchFileFromAgent (f : fetch_id) (dir : string) (filename : json)
  : M unit :=
  match filename with
  | JStr name =>
      let filePath := RequestPath.filePath dir name in
      do _ <- effect (console (LogRequestingFile filePath)) ;;
      do _ <- agentSocket_send (SentFile f filePath) ;;
      effect (fun st =>
        set_listeners
          (fun l => l ++ [Waiter f filePath (now st + 60000)]) st)
  | _ => throw TypeError
  end.

(** *** [ws.on("message", ...)] *)

(** [v === "literal"] *)
Definition is_literal (v : value) (s : string) : bool :=
  match v with
  | Some (JStr t) => String.eqb t s
  | _ => false
  end.

(** The body of [if (data.type === "file")]. *)
Definition on_file_message (data : json) : M unit :=
  do path <- or_throw TypeError (get data "path") ;;
  match path with
  | Some (JStr p) =>
      let safeName := JsString.replace_separators p in
      let savePath := path_join_UPLOAD_DIR safeName in
      do content <- or_throw TypeError (get data "content") ;;
      do buffer <- Buffer_from content ;;
      do _ <- writeFileSync savePath buffer ;;
      do _ <- effect (console (LogReceivedFile safeName p)) ;;
      effect (fileEvents_emit (FileData p savePath))
  | _ => throw TypeError
  end.

(** The body of [if (data.type === "dir_list")].  Storing [undefined]
    reads back like a missing property, so it is a deletion here. *)
Definition on_dir_list_message (data : json) : M unit :=
  do dir <- or_throw TypeError (get data "dir") ;;
  do files <- or_throw TypeError (get data "files") ;;
  do key <- or_throw TypeError (render dir) ;;
  do _ <- effect (set_tempDirFiles (fun m =>
            match files with
            | Some j => <[key := j]> m
            | None => delete key m
            end)) ;;
  match files with
  | None | Some JNull => throw TypeError
  | Some j =>
      do count <- or_throw TypeError (render (length_of j)) ;;
      effect (console (LogReceivedFiles key count))
  end.

(** [message] is [None] for a text that [JSON.parse] rejects. *)
Definition ws_on_message (message : option json) : M unit :=
  do data <- or_throw SyntaxError message ;;
  do type <- or_throw TypeError (get data "type") ;;
  do _ <- (if is_literal type "file" then on_file_message data else ret tt) ;;
  (if is_literal type "dir_list" then on_dir_list_message data else ret tt).

(** *** [app.get("/files/:dir")] *)

(** [!tempDirFiles[dir] || tempDirFiles[dir].length === 0], for the own
    properties of [tempDirFiles]: what the lookup finds on the prototype
    of the object ([constructor], [toString], [__proto__] and the
    like) is not in the model, so a [dir] of such a name is read as
    having no listing unless one was pushed for it. *)
Definition no_listing (st : state) (dir : string) : bool :=
  let v := tempDirFiles st !! dir in
  negb (truthy v) ||
  match v with
  | Some j => is_zero (length_of j)
  | None => false
  end.

(** From the last [if] to the end of the handler. *)
Definition files_finish (req : nat) (dir : string) (st : state) : state :=
  if no_listing st dir then
    respond req (StatusJson 504 "No files received") st
  else
    match tempDirFiles st !! dir with
    | Some listing => respond req (Json listing) st
    | None => st
    end.

(** The [while] loop from its test on: either it sleeps 100 ms once more
    or the handler runs to its end. *)
Definition files_poll (req : nat) (dir : string) (timeout : Z) (st : state)
  : state :=
  if no_listing st dir && (now st <? timeout)%Z then
    set_task req (FilesPolling dir timeout (now st + 100)) st
  else files_finish req dir st.

Definition get_files (req : nat) (dir : string) (st : state) : state :=
  if negb (socket_open st) then
    respond req (StatusJson 503 "Agent not connected") st
  else if no_listing st dir then
    match agentSocket_send (SentDir req dir) st with
    | Ok _ st1 =>
        let st2 := console (LogSentRequestDir dir) st1 in
        files_poll req dir (now st2 + 15000) st2
    | Throw e st1 => unhandled req e st1
    end
  else files_finish req dir st.

(** *** [app.get("/file/view/:dir/:filename")] *)

Definition exn_message (e : exn) : string :=
  match e with
  | SyntaxError => "SyntaxError"
  | TypeError => "TypeError"
  | NotOpenError => "WebSocket is not open"
  | FsError code => code
  end.

Definition get_file_view (req : nat) (dir filename : string) (st : state)
  : state :=
  if negb (socket_open st) then
    respond req (StatusJson 503 "Agent not connected") st
  else
    match fetchFileFromAgent (req, 0) dir (JStr filename) st with
    | Ok _ st1 => set_task req ViewAwaiting st1
    | Throw e st1 =>
        respond req (StatusJson 500 (exn_message e))
          (console (LogErrorInFileView e) (add_event (Rejected (req, 0) e) st1))
    end.

(** The callback given to [res.sendFile]:
    [(err) => { if (!err) { try { fs.unlinkSync(savePath); } catch (e) { } } }] *)
Definition sendFile_callback (savePath : string) (err : bool) (st : state)
  : state :=
  if negb err then
    match unlinkSync savePath st with
    | Ok _ st1 => st1
    | Throw _ st1 => st1
    end
  else st.

(** The segments of a path, cut at its forward slashes. *)
Fixpoint segments (l : list ascii) : list (list ascii) :=
  match l with
  | [] => [[]]
  | c :: r =>
      if JsString.is_slash c then [] :: segments r
      else match segments r with
           | part :: parts => (c :: part) :: parts
           | [] => [[c]]
           end
  end.

(** What the [send] module calls a dotfile: a segment of more than one
    code unit that begins with a dot. *)
Definition is_dotfile (part : list ascii) : bool :=
  match part with
  | c :: _ :: _ => Ascii.eqb c "."
  | _ => false
  end.

(** [res.sendFile(savePath, {}, callback)] leaves the option [dotfiles]
    at its default ["ignore"]: a path with a dotfile among its segments
    is not sent, nothing is answered, and [callback] is called with the
    error at once.  The segments of [__dirname] are taken not to be
    dotfiles. *)
Definition send_refused (savePath : string) : bool :=
  existsb is_dotfile (segments (JsString.chars savePath)).

(** After [await fetchFileFromAgent(dir, filename)]. *)
Definition view_settled (req : nat) (savePath : option string) (st : state)
  : state :=
  match savePath with
  | Some p =>
      if String.eqb p "" then
        respond req (StatusJson 504 "File upload timeout") st
      else if send_refused p then sendFile_callback p true st
      else set_task req (ViewSending p) (respond req (File p) st)
  | None => respond req (StatusJson 504 "File upload timeout") st
  end.

(** *** [app.get("/download-all/:dir")] *)

(** The [for (const file of files)] loop from the entry at [idx] on, up
    to the next suspension: an entry whose fetch throws is logged in the
    [catch] block and the loop goes on at once; after the last entry
    comes [await archive.finalize()]. *)
Fixpoint zip_loop (req : nat) (dir : string) (idx : nat) (files : list json)
    (st : state) : state :=
  match files with
  | [] => set_task req ZipFinalizing (add_event (ArchiveFinalize req) st)
  | file :: rest =>
      match to_string file with
      | None => unhandled req TypeError st
      | Some shown =>
          match fetchFileFromAgent (req, idx) dir file
                  (console (LogFetchingForZip shown) st) with
          | Ok _ st1 => set_task req (ZipAwaiting dir idx file rest) st1
          | Throw e st1 =>
              zip_loop req dir (S idx) rest
                (console (LogFailedToFetch shown e)
                   (add_event (Rejected (req, idx) e) st1))
          end
      end
  end.

(** After [await fetchFileFromAgent(dir, file)] inside the loop. *)
Definition zip_settled (req : nat) (dir : string) (idx : nat) (file : json)
    (rest : list json) (filePath : option string) (st : state) : state :=
  let st1 :=
    match filePath with
    | Some p =>
        if String.eqb p "" then st
        else
          match file, to_string file with
          | JStr name, _ => add_event (ArchiveFile req p (Path.basename name)) st
          | _, Some shown =>
              console (LogFailedToFetch shown TypeError) st
          | _, None => st
          end
    | None => st
    end in
  zip_loop req dir (S idx) rest st1.

Definition get_download_all (req : nat) (dir : string) (st : state) : state :=
  if negb (socket_open st) then
    respond req (StatusJson 503 "Agent not connected") st
  else if no_listing st dir then
    respond req
      (StatusJson 400 "Directory list not loaded. Please view the directory first.")
      st
  else
    match tempDirFiles st !! dir with
    | None => st
    | Some files =>
        match render (length_of files) with
        | None => unhandled req TypeError st
        | Some count =>
            let st1 := console (LogStartingZip count dir) st in
            let st2 := respond req (Attachment (dir +:+ ".zip")) st1 in
            match iterate files with
            | None => unhandled req TypeError st2
            | Some entries => zip_loop req dir 0 entries st2
            end
        end
    end.

(** *** The event loop *)

(** The continuation of the function awaiting the fetch [f]. *)
Definition resume (m : fetch_id * option string) (st : state) : state :=
  let '((req, idx), v) := m in
  match tasks st !! req with
  | Some ViewAwaiting =>
      if Nat.eqb idx 0 then view_settled req v (del_task req st) else st
  | Some (ZipAwaiting dir i file rest) =>
      if Nat.eqb idx i then zip_settled req dir i file rest v (del_task req st)
      else st
  | _ => st
  end.

(** When a callback has returned, the continuations queued by it run, in
    the order in which their promises were resolved. *)
Definition drain (st : state) : state :=
  fold_left (fun s m => resume m s) (microtasks st)
    (set_microtasks (fun _ => []) st).

(** An exception that leaves a callback ends the process. *)
Definition crash (e : exn) (st : state) : state :=
  set_alive false (add_event (Uncaught e) st).

Definition find_waiter (f : fetch_id) (st : state) : option waiter :=
  find (fun w => bool_decide (w_id w = f)) (listeners st).

(** What the outside world makes the process do. *)
Inductive input :=
| Tick (dt : Z)
| AgentConnects
| AgentReadyState (rs : ready_state)
| AgentCloses
| AgentMessage (message : option json)
| FetchTimeout (f : fetch_id)
| PollWake (req : nat)
| HttpFiles (dir : string)
| HttpFileView (dir filename : string)
| HttpDownloadAll (dir : string)
| SendFileDone (req : nat) (err : bool)
| ArchiveFinalized (req : nat).

Definition new_request (st : state) : state :=
  set_next_req (S (next_req st)) st.

(** One turn of the event loop; [None] when the input cannot occur in
    this state (a timer that is not due, a callback nobody waits for, a
    process that has ended). *)
Definition step (st : state) (i : input) : option state :=
  if negb (alive st) then None
  else
    match i with
    | Tick dt =>
        if (0 <=? dt)%Z then Some (set_now (fun t => (t + dt)%Z) st) else None
    | AgentConnects =>
        Some (set_agentSocket (Some OPEN) (console LogAgentConnected st))
    | AgentReadyState rs =>
        match agentSocket st with
        | Some _ => Some (set_agentSocket (Some rs) st)
        | None => None
        end
    | AgentCloses =>
        Some (set_agentSocket None (console LogAgentDisconnected st))
    | AgentMessage message =>
        match ws_on_message message st with
        | Ok _ st1 => Some (drain st1)
        | Throw e st1 => Some (crash e st1)
        end
    | FetchTimeout f =>
        match find_waiter f st with
        | Some w =>
            if (w_due w <=? now st)%Z then Some (drain (on_timeout f st))
            else None
        | None => None
        end
    | PollWake req =>
        match tasks st !! req with
        | Some (FilesPolling dir timeout wake) =>
            if (wake <=? now st)%Z
            then Some (files_poll req dir timeout (del_task req st))
            else None
        | _ => None
        end
    | HttpFiles dir =>
        Some (get_files (next_req st) dir (new_request st))
    | HttpFileView dir filename =>
        Some (get_file_view (next_req st) dir filename (new_request st))
    | HttpDownloadAll dir =>
        Some (get_download_all (next_req st) dir (new_request st))
    | SendFileDone req err =>
        match tasks st !! req with
        | Some (ViewSending savePath) =>
            Some (sendFile_callback savePath err (del_task req st))
        | _ => None
        end
    | ArchiveFinalized req =>
        match tasks st !! req with
        | Some ZipFinalizing => Some (console LogZipFinalized (del_task req st))
        | _ => None
        end
    end.

Fixpoint run (st : state) (inputs : list input) : option state :=
  match inputs with
  | [] => Some st
  | i :: rest =>
      match step st i with
      | Some st1 => run st1 rest
      | None => None
      end
  end.

Definition reachable (st : state) : Prop :=
  exists inputs, run init inputs = Some st.

(** *** Reading the trace *)

Definition events (st : state) : list event := map snd (trace st).

(** What was added to the trace on the way from [st] to [st']. *)
Definition new_events (st st' : state) : list event :=
  drop (length (trace st)) (events st').

(** The commands written on the agent channel, oldest first. *)
Definition channel (st : state) : list command :=
  omap (fun e => match e with
                 | SentDir _ dir => Some (request_dir dir)
                 | SentFile _ filePath => Some (request_file filePath)
                 | _ => None
                 end) (events st).

Definition console_of (st : state) : list log_entry :=
  omap (fun e => match e with Console l => Some l | _ => None end) (events st).

Definition responses (req : nat) (st : state) : list response :=
  omap (fun e => match e with
                 | Responded r x => if Nat.eqb r req then Some x else None
                 | _ => None
                 end) (events st).

(** The entries [archive.file] was given for the request, in order:
    staged location and name inside the archive. *)
Definition archive_entries (req : nat) (st : state) : list (string * string) :=
  omap (fun e => match e with
                 | ArchiveFile r p name =>
                     if Nat.eqb r req then Some (p, name) else None
                 | _ => None
                 end) (events st).

(** The arrival with this path can be staged: the write of the message
    handler succeeds. *)
Definition stageable (path : string) : bool :=
  let savePath := path_join_UPLOAD_DIR (JsString.replace_separators path) in
  negb (String.eqb savePath UPLOAD_DIR || String.eqb savePath ".") &&
  negb (has_nul savePath).

(** Where the arrival with this path is staged. *)
Definition staged (path : string) : string :=
  path_join_UPLOAD_DIR (JsString.replace_separators path).

(** The state after the inputs, from the start of the process. *)
Definition after (inputs : list input) : state :=
  match run init inputs with
  | Some st => st
  | None => init
  end.

(** The [file] message [{type: "file", path, content}]. *)
Definition file_message (path content : string) : json :=
  JObj [("type", JStr "file"); ("path", JStr path); ("content", JStr content)].

(** The [dir_list] message [{type: "dir_list", dir, files}]. *)
Definition dir_list_message (dir : string) (files : list string) : json :=
  JObj [("type", JStr "dir_list"); ("dir", JStr dir);
        ("files", JArr (map JStr files))].

End Server.

(** ** The earlier revision of the server

  The second source file is the same server before [fetchFileFromAgent]
  and the archive route were added.  Its message handler stages and
  caches in the same way but has no waiters to notify, and its
  [sendFile] callback deletes the staged file outside any [try]. *)

Module Legacy.
Import Js Server.

Definition on_file_message (data : json) : M unit :=
  do path <- or_throw TypeError (get data "path") ;;
  match path with
  | Some (JStr p) =>
      let safeName := JsString.replace_separators p in
      let savePath := path_join_UPLOAD_DIR safeName in
      do content <- or_throw TypeError (get data "content") ;;
      do buffer <- Buffer_from content ;;
      do _ <- writeFileSync savePath buffer ;;
      effect (console (LogReceivedFile safeName p))
  | _ => throw TypeError
  end.

Definition ws_on_message (message : option json) : M unit :=
  do data <- or_throw SyntaxError message ;;
  do _ <- effect (console (LogReceivedMessage data)) ;;
  do type <- or_throw TypeError (get data "type") ;;
  do _ <- (if is_literal type "file" then on_file_message data else ret tt) ;;
  (if is_literal type "dir_list" then on_dir_list_message data else ret tt).

(** [(err) => { if (!err) fs.unlinkSync(savePath); }] *)
Definition sendFile_callback (savePath : string) (err : bool) : M unit :=
  if negb err then unlinkSync savePath else ret tt.

End Legacy.

(** ** The vocabulary of the specification

  The properties below are stated with these relations, which say what a
  prefix, a suffix or a trailing separator is without running the code. *)

Module Spec.

Definition begins_with (p s : string) : Prop := exists r, s = p +:+ r.
Definition ends_with (t s : string) : Prop := exists p, s = p +:+ t.

(** A path separator: the forward slash or the backslash. *)
Definition is_separator (c : ascii) : Prop :=
  c = JsString.slash \/ c = JsString.backslash.

Definition begins_with_separator (s : string) : Prop :=
  exists c r, is_separator c /\ s = String c r.

Definition is_ascii_letter (c : ascii) : Prop :=
  65 <= nat_of_ascii c <= 90 \/ 97 <= nat_of_ascii c <= 122.

(** A drive-letter pattern: one ASCII letter, then a colon. *)
Definition drive_letter_pattern (s : string) : Prop :=
  exists c r, is_ascii_letter c /\ s = String c (String JsString.colon r).

(** [d] is [dir] without its last code unit when that is a separator,
    and [dir] itself otherwise. *)
Inductive without_trailing_separator : string -> string -> Prop :=
| wts_strip (d : string) (c : ascii) :
    is_separator c ->
    without_trailing_separator (d +:+ String c EmptyString) d
| wts_keep (d : string) :
    (forall d' c, is_separator c -> d <> d' +:+ String c EmptyString) ->
    without_trailing_separator d d.

(** [n] is [s] normalised: every backslash of [s] has become a forward
    slash, and every other code unit is as it was. *)
Inductive normalized : string -> string -> Prop :=
| normalized_empty : normalized "" ""
| normalized_backslash (s n : string) :
    normalized s n -> normalized (String "\" s) (String "/" n)
| normalized_other (c : ascii) (s n : string) :
    c <> "\"%char -> normalized s n -> normalized (String c s) (String c n).

Definition only_slashes (s : string) : Prop :=
  Forall (fun c => c = "/"%char) (String.list_ascii_of_string s).

Definition slash_free (s : string) : Prop :=
  Forall (fun c => c <> "/"%char) (String.list_ascii_of_string s).

(** [b] is the last path segment of [s], its base file name: [s] is a
    directory part that is empty or ends with a slash, then [b], which
    has no slash, then nothing but slashes.  Slashes at the end of a
    path are not a segment; [b] is empty only for a path that has
    nothing but slashes. *)
Definition last_segment (s b : string) : Prop :=
  slash_free b /\
  exists dir tail,
    s = dir +:+ b +:+ tail /\ only_slashes tail /\
    (dir = "" \/ ends_with "/" dir) /\ (b = "" -> dir = "").

(** The four rules of the loose matching, on the requested logical path
    [P] and the arrived path [Q], both normalised first. *)
Definition rule_exact (P Q : string) : Prop :=
  exists Pn Qn, normalized P Pn /\ normalized Q Qn /\ Pn = Qn.
Definition rule_arrived_ends_with_requested (P Q : string) : Prop :=
  exists Pn Qn, normalized P Pn /\ normalized Q Qn /\ ends_with Pn Qn.
Definition rule_requested_ends_with_arrived (P Q : string) : Prop :=
  exists Pn Qn, normalized P Pn /\ normalized Q Qn /\ ends_with Qn Pn.
Definition rule_same_basename (P Q : string) : Prop :=
  exists Pn Qn b,
    normalized P Pn /\ normalized Q Qn /\
    last_segment Pn b /\ last_segment Qn b.

Definition some_rule_holds (P Q : string) : Prop :=
  rule_exact P Q \/ rule_arrived_ends_with_requested P Q \/
  rule_requested_ends_with_arrived P Q \/ rule_same_basename P Q.

End Spec.

(** ** Vocabulary of the invariants *)

Module Invariants.
Import Matching Js Server.

(** What the listeners called by one [emit] add to the trace. *)
Definition matched_events (fd : fileData) (w : waiter) : list event :=
  if handler_matches (w_filePath w) (fd_path fd) then
    [Console (LogMatched (fd_path fd) (w_filePath w));
     Settled (w_id w) (Some (fd_savePath fd))]
  else [].

Definition matching (fd : fileData) (ws : list waiter) : list waiter :=
  filter (fun w => handler_matches (w_filePath w) (fd_path fd) = true) ws.

(** The fetches that have a registered waiter. *)
Definition ids (st : state) : list fetch_id := w_id <$> listeners st.

(** The task of request [f.1] is suspended on the fetch [f]. *)
Definition awaiting (st : state) (f : fetch_id) : Prop :=
  match tasks st !! f.1 with
  | Some ViewAwaiting => f.2 = 0
  | Some (ZipAwaiting _ i _ _) => f.2 = i
  | _ => False
  end.

(** Waiters are distinct, each has the task that awaits it, and request
    numbers in use are below the next one to be given out. *)
Record Inv (st : state) : Prop := {
  inv_nodup : NoDup (ids st);
  inv_owner : forall f, f ∈ ids st -> awaiting st f;
  inv_tasks : forall r, is_Some (tasks st !! r) -> r < next_req st
}.

(** The same for resolutions whose continuation has not run yet. *)
Record Queued (st : state) (q : list (fetch_id * option string)) : Prop := {
  queued_nodup : NoDup (q.*1);
  queued_owner : forall f, f ∈ q.*1 -> awaiting st f;
  queued_off : forall f, f ∈ q.*1 -> f ∉ ids st
}.

(** The fields the invariants read. *)
Definition control (st : state)
  : list waiter * gmap nat task * list (fetch_id * option string) * nat :=
  (listeners st, tasks st, microtasks st, next_req st).

(** The step from [st] to [st'] belongs to request [r]: only the task of
    [r] changes and at most one waiter, of [r] and awaited by that task,
    is registered. *)
Record local_to (r : nat) (st st' : state) : Prop := {
  local_tasks : forall r', r' <> r -> tasks st' !! r' = tasks st !! r';
  local_next : next_req st' = next_req st;
  local_queue : microtasks st' = microtasks st;
  local_listeners :
    listeners st' = listeners st \/
    exists w, listeners st' = listeners st ++ [w] /\
              (w_id w).1 = r /\ awaiting st' (w_id w)
}.

(** What holds between two turns of the event loop. *)
Definition Good (st : state) : Prop := Inv st /\ microtasks st = [].

(** *** What a piece of code may add to the trace *)

Definition outcome_state {A} (o : outcome A) : state :=
  match o with
  | Ok _ st => st
  | Throw _ st => st
  end.

(** From [st] to [st'] the clock stands still and the trace grows by
    events that satisfy [P]. *)
Definition adds (P : event -> Prop) (st st' : state) : Prop :=
  now st' = now st /\
  exists new, trace st' = trace st ++ ((fun e => (now st, e)) <$> new) /\
              Forall P new.

(** The listeners called by an [emit]. *)
Definition by_emit (e : event) : bool :=
  match e with
  | Console (LogMatched _ _) => true
  | Settled _ (Some _) => true
  | _ => false
  end.

(** The end of a file view, once its fetch is over. *)
Definition by_view_settled (e : event) : bool :=
  match e with
  | Responded _ (File _) => true
  | Responded _ (StatusJson status msg) =>
      Nat.eqb status 504 && String.eqb msg "File upload timeout"
  | _ => false
  end.

(** A resumed route handler, up to its next suspension. *)
Definition by_continuation (e : event) : bool :=
  match e with
  | Console (LogFetchingForZip _) | Console (LogFailedToFetch _ _)
  | Console (LogRequestingFile _) => true
  | SentFile _ _ | Rejected _ _ | ArchiveFile _ _ _ | ArchiveFinalize _
  | Unhandled _ _ => true
  | Responded _ (File _) => true
  | Responded _ (StatusJson status msg) =>
      Nat.eqb status 504 && String.eqb msg "File upload timeout"
  | _ => false
  end.

(** The message handler, before the continuations it wakes up. *)
Definition by_message (e : event) : bool :=
  match e with
  | Console (LogReceivedFile _ _) | Console (LogReceivedFiles _ _) => true
  | _ => by_emit e
  end.

(** The handler of [/files/:dir]. *)
Definition by_files (e : event) : bool :=
  match e with
  | SentDir _ _ | Console (LogSentRequestDir _) | Responded _ _
  | Unhandled _ _ => true
  | _ => false
  end.



Definition is_settled (e : event) : bool :=
  match e with
  | Settled _ _ => true
  | _ => false
  end.

(** *** Fetches of one archive run come one after the other *)

(** The fetch [f] is over: its promise was resolved, or the call threw. *)
Definition is_done (f : fetch_id) (e : event) : bool :=
  match e with
  | Settled g _ | Rejected g _ => bool_decide (g = f)
  | _ => false
  end.

(** A [request_file] for an entry after the first of a listing. *)
Definition is_later_send (e : event) : bool :=
  match e with
  | SentFile (_, S _) _ => true
  | _ => false
  end.

(** Every [request_file] for entry [n + 1] of a run comes after the end
    of the fetch for entry [n] of that run. *)
Definition ordered (evs : list event) : Prop :=
  forall pre r n p post,
    evs = pre ++ SentFile (r, S n) p :: post ->
    exists e, e ∈ pre /\ is_done (r, n) e = true.

(** Entry [f.2] of run [f.1] may be fetched now. *)
Definition done_before (evs : list event) (f : fetch_id) : Prop :=
  match f.2 with
  | 0 => True
  | S n => exists e, e ∈ evs /\ is_done (f.1, n) e = true
  end.

(** *** A listing wait ends by timeout only after its deadline *)




End Invariants.

(** ** An archive run, entry by entry

  What the agent does about each entry of the listing while
  [/download-all/:dir] walks through it, and what the process is then
  expected to do. *)

Module ArchiveRun.
Import Js Server.

(** The agent sends the requested file back under the requested path,
    or never answers. *)
Inductive reply :=
| Answers (content : string)
| Silent.

(** An entry of the cached listing: a file name with the agent's reply
    to its request, or a value that is not a string. *)
Inductive entry :=
| Named (name : string) (r : reply)
| Broken (j : json).

Definition entry_json (e : entry) : json :=
  match e with
  | Named name _ => JStr name
  | Broken j => j
  end.

(** What happens outside while the entry at [idx] is being fetched. *)
Definition entry_inputs (req : nat) (dir : string) (idx : nat) (e : entry)
  : list input :=
  match e with
  | Named name (Answers content) =>
      [AgentMessage
         (Some (file_message (RequestPath.filePath dir name) content))]
  | Named name Silent => [Tick 60000; FetchTimeout (req, idx)]
  | Broken _ => []
  end.

Fixpoint entries_inputs (req : nat) (dir : string) (idx : nat)
    (es : list entry) : list input :=
  match es with
  | [] => []
  | e :: rest => entry_inputs req dir idx e ++ entries_inputs req dir (S idx) rest
  end.

(** What the process does about the entry at [idx]. *)
Definition entry_events (req : nat) (dir : string) (idx : nat) (e : entry)
  : list event :=
  match e with
  | Named name (Answers _) =>
      let p := RequestPath.filePath dir name in
      [Console (LogFetchingForZip name);
       Console (LogRequestingFile p);
       SentFile (req, idx) p;
       Console (LogReceivedFile (JsString.replace_separators p) p);
       Console (LogMatched p p);
       Settled (req, idx) (Some (staged p));
       ArchiveFile req (staged p) (Path.basename name)]
  | Named name Silent =>
      let p := RequestPath.filePath dir name in
      [Console (LogFetchingForZip name);
       Console (LogRequestingFile p);
       SentFile (req, idx) p;
       Settled (req, idx) None]
  | Broken j =>
      match to_string j with
      | Some shown =>
          [Console (LogFetchingForZip shown);
           Rejected (req, idx) TypeError;
           Console (LogFailedToFetch shown TypeError)]
      | None => []
      end
  end.

Fixpoint entries_events (req : nat) (dir : string) (idx : nat)
    (es : list entry) : list event :=
  match es with
  | [] => []
  | e :: rest => entry_events req dir idx e ++ entries_events req dir (S idx) rest
  end.

(** The entries the archive is expected to hold: one for each answered
    name, under its base name. *)
Definition expected_archive (dir : string) (es : list entry)
  : list (string * string) :=
  omap (fun e => match e with
                 | Named name (Answers _) =>
                     Some (staged (RequestPath.filePath dir name),
                           Path.basename name)
                 | _ => None
                 end) es.

(** The failures the console is expected to show: one for each entry
    whose fetch throws. *)
Definition expected_failures (es : list entry) : list log_entry :=
  omap (fun e => match e with
                 | Broken j =>
                     match to_string j with
                     | Some shown => Some (LogFailedToFetch shown TypeError)
                     | None => None
                     end
                 | _ => None
                 end) es.

Definition archive_entries_of (req : nat) (evs : list event)
  : list (string * string) :=
  omap (fun e => match e with
                 | ArchiveFile r p name =>
                     if Nat.eqb r req then Some (p, name) else None
                 | _ => None
                 end) evs.

Definition failures_of (evs : list event) : list log_entry :=
  omap (fun e => match e with
                 | Console (LogFailedToFetch shown x) =>
                     Some (LogFailedToFetch shown x)
                 | _ => None
                 end) evs.

Definition responses_of (req : nat) (evs : list event) : list response :=
  omap (fun e => match e with
                 | Responded r x => if Nat.eqb r req then Some x else None
                 | _ => None
                 end) evs.

(** The entries the run can cope with: an answered file can be staged,
    and a value that is not a string can at least be printed. *)
Definition manageable (dir : string) (e : entry) : Prop :=
  match e with
  | Named name (Answers _) => stageable (RequestPath.filePath dir name) = true
  | Named _ Silent => True
  | Broken j => (forall s, j <> JStr s) /\ is_Some (to_string j)
  end.

(** A listing entry the log lines of the loop can print. *)
Definition printable (j : json) : Prop := is_Some (to_string j).

(** What the loop of request [req] adds to the trace. *)
Definition by_zip_loop (req : nat) (e : event) : bool :=
  match e with
  | Console (LogFetchingForZip _) | Console (LogFailedToFetch _ _)
  | Console (LogRequestingFile _) => true
  | SentFile (r, _) _ | Rejected (r, _) _ => Nat.eqb r req
  | ArchiveFile r _ _ | ArchiveFinalize r => Nat.eqb r req
  | _ => false
  end.

(** The run of request [req] over [files] is still under way: it is
    closing the archive, or it waits for one of the entries. *)
Definition goes_on (req : nat) (dir : string) (files : list json)
    (st : state) : Prop :=
  tasks st !! req = Some ZipFinalizing \/
  exists skipped idx file rest,
    tasks st !! req = Some (ZipAwaiting dir idx file rest) /\
    files = skipped ++ file :: rest.

(** The process is up, the agent is connected, and nothing else is
    waiting for an arrival. *)
Record idle (st : state) : Prop := {
  idle_alive : alive st = true;
  idle_socket : agentSocket st = Some OPEN;
  idle_listeners : listeners st = [];
  idle_queue : microtasks st = []
}.

(** The state in which the run waits for the entry at [idx]. *)
Definition waiting_for (req : nat) (dir : string) (idx : nat) (name : string)
    (rest : list json) (st : state) : state :=
  set_task req (ZipAwaiting dir idx (JStr name) rest)
    (set_listeners
       (fun l => l ++ [Waiter (req, idx) (RequestPath.filePath dir name)
                         (now st + 60000)])
       (add_event (SentFile (req, idx) (RequestPath.filePath dir name))
          (console (LogRequestingFile (RequestPath.filePath dir name))
             (console (LogFetchingForZip name) st)))).


(** Everything the outside does during one archive run of request [req]
    over the entries [es]. *)
Definition run_inputs (req : nat) (dir : string) (es : list entry)
  : list input :=
  HttpDownloadAll dir :: entries_inputs req dir 0 es ++ [ArchiveFinalized req].

(** Files 1 and 3 are answered, file 2 never is. *)
Definition one_missing (f1 f2 f3 c1 c3 : string) : list entry :=
  [Named f1 (Answers c1); Named f2 Silent; Named f3 (Answers c3)].

End ArchiveRun.

(** ** Claims that the code does not meet, as they are written *)

Module AsWritten.
Import Js Server Invariants.

(** Every timed-out fetch of a finished archive run has left a failure
    line on the console. *)
Definition timed_out_entries_are_logged : Prop :=
  forall st req idx,
    reachable st ->
    ArchiveFinalize req ∈ events st ->
    Settled (req, idx) None ∈ events st ->
    exists shown e, Console (LogFailedToFetch shown e) ∈ events st.

(** A cached non-empty listing is returned whatever the state of the
    agent connection. *)
Definition cached_listing_is_always_served : Prop :=
  forall st dir files,
    reachable st -> alive st = true ->
    tempDirFiles st !! dir = Some (JArr files) -> files <> [] ->
    exists st',
      step st (HttpFiles dir) = Some st' /\
      new_events st st' = [Responded (next_req st) (Json (JArr files))].

(** A message that is not JSON, arriving while the agent is connected,
    is dropped: the process lives on with its connection, waiters and
    cache as they were. *)
Definition malformed_messages_are_dropped : Prop :=
  forall st,
    reachable st -> alive st = true -> agentSocket st = Some OPEN ->
    exists st',
      step st (AgentMessage None) = Some st' /\
      alive st' = true /\
      agentSocket st' = agentSocket st /\
      listeners st' = listeners st /\
      tempDirFiles st' = tempDirFiles st.

(** Once the send of a file view is over, failed or not, the staged
    file is gone. *)
Definition staged_file_is_always_deleted : Prop :=
  forall st req savePath err st',
    tasks st !! req = Some (ViewSending savePath) ->
    step st (SendFileDone req err) = Some st' ->
    uploads st' !! savePath = None.

End AsWritten.

(** ** Messages the handler is prepared for *)

Module Messages.
Import Js Server.

(** A message that is JSON, is not [null], and carries what its kind
    needs: a [file] message a string path that can be staged and a
    string content, a [dir_list] message a string directory and an array
    of names; a message of any other kind needs nothing. *)
Definition well_formed (data : json) : Prop :=
  match get data "type" with
  | None => False
  | Some type =>
      (is_literal type "file" = true ->
       exists p c,
         get data "path" = Some (Some (JStr p)) /\
         get data "content" = Some (Some (JStr c)) /\
         stageable p = true) /\
      (is_literal type "dir_list" = true ->
       exists d names,
         get data "dir" = Some (Some (JStr d)) /\
         get data "files" = Some (Some (JArr (JStr <$> names))))
  end.

(** A message of a kind the handler does not know. *)
Definition unrecognised (data : json) : Prop :=
  exists type,
    get data "type" = Some type /\
    is_literal type "file" = false /\ is_literal type "dir_list" = false.

End Messages.

(** ** Concrete runs *)

Module Runs.
Import Js Server ArchiveRun.

(** The agent connects and a file view for [c.txt] in [/a/b] is
    requested. *)
Definition one_view : state :=
  after [AgentConnects; HttpFileView "/a/b" "c.txt"].

Definition the_waiter : waiter := Waiter (0, 0) "/a/b/c.txt" 60000.


(** The same, and the 60 s have passed. *)
Definition one_view_overdue : state :=
  after [AgentConnects; HttpFileView "/a/b" "c.txt"; Tick 60000].

(** The agent connects and pushes a listing of three files. *)
Definition listing_pushed : state :=
  after [AgentConnects;
         AgentMessage
           (Some (dir_list_message "/sdcard/dl" ["a.jpg"; "b.jpg"; "c.jpg"]))].

(** An archive run over that listing in which the second file is never
    answered. *)
Definition archive_done : state :=
  after (AgentConnects
         :: AgentMessage
              (Some (dir_list_message "/sdcard/dl" ["a.jpg"; "b.jpg"; "c.jpg"]))
         :: run_inputs 0 "/sdcard/dl" (one_missing "a.jpg" "b.jpg" "c.jpg" "QQ==" "QQ==")).

(** An archive run over a listing of one file that is never answered. *)
Definition archive_of_one_silent : list input :=
  AgentConnects
  :: AgentMessage (Some (dir_list_message "/sdcard/dl" ["a.jpg"]))
  :: run_inputs 0 "/sdcard/dl" [Named "a.jpg" Silent].

(** A listing request that is waiting for the agent. *)
Definition listing_wait : state :=
  after [AgentConnects; HttpFiles "/sdcard/dl"; Tick 100].

(** A file view whose file has arrived and is being sent. *)
Definition view_sending : state :=
  after [AgentConnects; HttpFileView "d" "f.txt";
         AgentMessage (Some (file_message "d/f.txt" "QQ=="))].

(** The listing is cached and the agent has gone. *)
Definition agent_gone : state :=
  after [AgentConnects;
         AgentMessage (Some (dir_list_message "/sdcard/dl" ["a.jpg"; "b.jpg"]));
         AgentCloses].

Definition agent_gone_asked : state :=
  after [AgentConnects;
         AgentMessage (Some (dir_list_message "/sdcard/dl" ["a.jpg"; "b.jpg"]));
         AgentCloses;
         HttpFiles "/sdcard/dl"].

(** The send of the file view has failed. *)
Definition view_send_failed : state :=
  after [AgentConnects; HttpFileView "d" "f.txt";
         AgentMessage (Some (file_message "d/f.txt" "QQ=="));
         SendFileDone 0 true].

(** The agent has connected. *)
Definition agent_connected : state := after [AgentConnects].

(** The agent has connected and sent a text that is not JSON. *)
Definition after_garbage : state := after [AgentConnects; AgentMessage None].

End Runs.

(** ** Paths written with either slash *)

Module Slashes.

(** The two paths differ at most in which of the two slashes stands at
    each place. *)
Inductive same_up_to_slashes : string -> string -> Prop :=
| same_empty : same_up_to_slashes "" ""
| same_slash (c d : ascii) (s t : string) :
    Spec.is_separator c -> Spec.is_separator d ->
    same_up_to_slashes s t ->
    same_up_to_slashes (String c s) (String d t)
| same_other (c : ascii) (s t : string) :
    same_up_to_slashes s t ->
    same_up_to_slashes (String c s) (String c t).

End Slashes.

(** ** Where staged files may lie *)

Module Staging.
Import JsString Server.

(** A single path segment that names something inside a directory. *)
Definition plain_name (name : string) : Prop :=
  name <> "" /\ name <> "." /\ name <> ".." /\
  Forall (fun c => is_sep c = false) (chars name).

(** A location directly inside the upload directory. *)
Definition inside_UPLOAD_DIR (savePath : string) : Prop :=
  exists name, savePath = UPLOAD_DIR +:+ "/" +:+ name /\ plain_name name.

End Staging.

(** ** What a piece of code leaves alone *)

Module Frames.
Import Js Server.

(** The file store, the listing cache, the agent socket and the life of
    the process are the same in [st'] as in [st]. *)
Definition keeps_store (st st' : state) : Prop :=
  uploads st' = uploads st /\ tempDirFiles st' = tempDirFiles st /\
  agentSocket st' = agentSocket st /\ alive st' = alive st.

End Frames.

(** ** Messages and answers used below *)

Module Pushes.
Import Js Server.

(** The [dir_list] message [{type: "dir_list", dir, files}] with any
    JSON values as the items of [files]. *)
Definition listing_message (dir : string) (items : list json) : json :=
  JObj [("type", JStr "dir_list"); ("dir", JStr dir); ("files", JArr items)].

Definition not_connected : response := StatusJson 503 "Agent not connected".

Definition not_loaded : response :=
  StatusJson 400 "Directory list not loaded. Please view the directory first.".

(** The properties every object inherits from [Object.prototype]:
    [tempDirFiles[dir]] finds them when the object has no property of
    its own under the name. *)
Definition Object_prototype_keys : list string :=
  ["constructor"; "__proto__"; "hasOwnProperty"; "isPrototypeOf";
   "propertyIsEnumerable"; "toLocaleString"; "toString"; "valueOf";
   "__defineGetter__"; "__defineSetter__"; "__lookupGetter__";
   "__lookupSetter__"].

(** The lookup [tempDirFiles[dir]] finds what the cache holds and
    nothing else: [dir] is not the name of an inherited property, and
    no listing was pushed under [__proto__], which would have put the
    pushed value in the place of [Object.prototype]. *)
Definition own_lookup (st : state) (dir : string) : Prop :=
  (dir ∉ Object_prototype_keys) /\ tempDirFiles st !! "__proto__" = None.

(** The three routes that talk to the agent. *)
Definition agent_routes (dir filename : string) : list input :=
  [HttpFiles dir; HttpFileView dir filename; HttpDownloadAll dir].

End Pushes.

(** ** An archive run without the agent *)

Module Offline.
Import Js Server.

(** What the loop does about a named entry when [agentSocket] is
    [null]: the request is logged, the call of [send] throws, and the
    [catch] block logs the failure. *)
Definition failed_entry (req : nat) (dir : string) (idx : nat) (name : string)
  : list event :=
  [Console (LogFetchingForZip name);
   Console (LogRequestingFile (RequestPath.filePath dir name));
   Rejected (req, idx) TypeError;
   Console (LogFailedToFetch name TypeError)].

Fixpoint failed_entries (req : nat) (dir : string) (idx : nat)
    (names : list string) : list event :=
  match names with
  | [] => []
  | name :: rest =>
      failed_entry req dir idx name ++ failed_entries req dir (S idx) rest
  end.

End Offline.

(** ** The answers of the routes *)

Module Answers.
Import Js Server ArchiveRun.

(** A suspended handler that has not answered yet. *)
Definition unanswered (t : task) : bool :=
  match t with
  | FilesPolling _ _ _ | ViewAwaiting => true
  | _ => false
  end.

Definition is_response (e : event) : bool :=
  match e with
  | Responded _ _ => true
  | _ => false
  end.

(** No request has been answered twice; a request that waits for a
    listing or for its file has not been answered; and request numbers
    not given out yet have no answer. *)
Record answered_once (st : state) : Prop := {
  once_at_most : forall r, length (responses_of r (events st)) <= 1;
  once_pending :
    forall r t, tasks st !! r = Some t -> unanswered t = true ->
                responses_of r (events st) = [];
  once_fresh : forall r, next_req st <= r -> responses_of r (events st) = []
}.

(** From [st] to [st'] nothing is answered. *)
Definition quiet (st st' : state) : Prop :=
  exists new, events st' = events st ++ new /\
              Forall (fun e => is_response e = false) new.

(** From [st] to [st'] request [r] is answered at most once, no other
    request is answered, and if [r] is answered it is not left
    waiting for a listing or for a file. *)
Definition answers (r : nat) (st st' : state) : Prop :=
  quiet st st' \/
  exists pre x post,
    events st' = events st ++ pre ++ Responded r x :: post /\
    Forall (fun e => is_response e = false) pre /\
    Forall (fun e => is_response e = false) post /\
    forall t, tasks st' !! r = Some t -> unanswered t = false.

(** No request is left waiting for a listing or for a file in [st']
    that was not already waiting so in [st]. *)
Definition no_new_unanswered (st st' : state) : Prop :=
  forall r t, tasks st' !! r = Some t -> unanswered t = true ->
              tasks st !! r = Some t.

(** What the [for] loop of the archive route adds to the trace. *)
Definition by_loop (e : event) : bool :=
  match e with
  | Console (LogFetchingForZip _) | Console (LogFailedToFetch _ _)
  | Console (LogRequestingFile _) => true
  | SentFile _ _ | Rejected _ _ | ArchiveFinalize _ | Unhandled _ _ => true
  | _ => false
  end.

(** The answers the routes give. *)
Definition known_answer (x : response) : bool :=
  match x with
  | StatusJson status msg =>
      (Nat.eqb status 503 && String.eqb msg "Agent not connected") ||
      (Nat.eqb status 504 && String.eqb msg "No files received") ||
      (Nat.eqb status 504 && String.eqb msg "File upload timeout") ||
      (Nat.eqb status 400 &&
       String.eqb msg
         "Directory list not loaded. Please view the directory first.")
  | Json _ | File _ | Attachment _ => true
  end.

Definition no_slash (name : string) : Prop :=
  Forall (fun c => c <> JsString.slash) (JsString.chars name).

(** What holds of every event of a trace: an answer is one of the
    answers of the routes, and the name a file is put into an archive
    under is the last path segment of some string. *)
Definition sound_event (e : event) : Prop :=
  match e with
  | Responded _ x => known_answer x = true
  | ArchiveFile _ _ name => exists entry, Spec.last_segment entry name
  | _ => True
  end.

End Answers.

(** ** [app.post("/upload-files")]

  The route keeps the list it is given in [agentFiles], a variable no
  other handler reads.  [body] is [req.body] as the JSON body parser
  leaves it. *)

Module UploadFiles.
Import Js Server.

(** [Array.isArray(v)] *)
Definition isArray (v : value) : bool :=
  match v with
  | Some (JArr _) => true
  | _ => false
  end.

(** The test [!files || !Array.isArray(files)]. *)
Definition invalid_file_list (files : value) : bool :=
  negb (truthy files) || negb (isArray files).

(** What one request leaves: the answer, the value of [agentFiles] and
    the line written on the console, if any. *)
Record upload := Upload {
  up_answer : response;
  up_agentFiles : json;
  up_console : option string
}.

(** [None] is the [TypeError] of destructuring [null]. *)
Definition post_upload_files (body : json) (agentFiles : json) : option upload :=
  match get body "files" with
  | None => None
  | Some files =>
      if invalid_file_list files then
        Some (Upload (StatusJson 400 "Invalid file list") agentFiles None)
      else
        match files with
        | Some list =>
            match render (length_of list) with
            | Some count =>
                Some (Upload
                        (Json (JObj [("status", JStr "ok");
                                     ("count", JNum count)]))
                        list
                        (Some ("Agent file list updated (" +:+ count +:+
                               " items)")))
            | None => None
            end
        | None => None
        end
  end.

End UploadFiles.

(** ** The file view of the earlier revision

  Before [fetchFileFromAgent] existed, [/file/view/:dir/:filename] did
  the whole exchange itself: it removed a file left under the staging
  name, sent the request, and looked every 100 ms, for at most 15 s,
  whether the message handler had written the file. *)

Module LegacyServer.
Import Js Server.

(** The logical path: [dir] is used as it is. *)
Definition filePath (dir filename : string) : string :=
  if RequestPath.looks_absolute filename then filename
  else dir +:+ "/" +:+ filename.

(** [path.join(UPLOAD_DIR, filePath.replace(/[\/\\]/g, "_"))] *)
Definition savePath_of (filePath : string) : string :=
  path_join_UPLOAD_DIR (JsString.replace_separators filePath).

(** The two directories a joined path can name. *)
Definition is_directory (p : string) : bool :=
  String.eqb p UPLOAD_DIR || String.eqb p ".".

(** [fs.existsSync(savePath)] *)
Definition existsSync (savePath : string) (st : state) : bool :=
  is_directory savePath || bool_decide (is_Some (uploads st !! savePath)).

(** [fs.unlinkSync(savePath)], which refuses a directory. *)
Definition unlinkSync (savePath : string) : M unit :=
  if is_directory savePath then throw (FsError "EISDIR")
  else Server.unlinkSync savePath.

(** [if (fs.existsSync(savePath)) fs.unlinkSync(savePath);] *)
Definition remove_stale (savePath : string) : M unit := fun st =>
  if existsSync savePath st then unlinkSync savePath st else Ok tt st.

(** A suspended file view: in the loop of [waitForFile], or sending. *)
Inductive view_task :=
| ViewPolling (savePath : string) (timeout wake : Z)
| ViewSending (savePath : string).

(** The process: the variables shared with the later revision, and the
    suspended file views. *)
Record process := Process {
  base : state;
  views : gmap nat view_task
}.

Definition on_base (f : state -> state) (p : process) : process :=
  Process (f (base p)) (views p).
Definition set_view (req : nat) (t : view_task) (p : process) : process :=
  Process (base p) (<[req := t]> (views p)).
Definition del_view (req : nat) (p : process) : process :=
  Process (base p) (delete req (views p)).

Definition upload_timeout : response := StatusJson 504 "File upload timeout".

(** From [if (!checkFile()) return null;] to the end of the handler.
    [res.sendFile] does not send a dotfile: its callback gets the error
    at once and, as it deletes only after a send without error, does
    nothing. *)
Definition view_finish (req : nat) (savePath : string) (p : process) : process :=
  if existsSync savePath (base p) then
    if send_refused savePath then
      match Legacy.sendFile_callback savePath true (base p) with
      | Ok _ st1 => Process st1 (views p)
      | Throw e st1 => Process (crash e st1) (views p)
      end
    else
      set_view req (ViewSending savePath)
        (on_base (respond req (File savePath)) p)
  else on_base (respond req upload_timeout) p.

(** The loop of [waitForFile] from its test on. *)
Definition view_poll (req : nat) (savePath : string) (timeout : Z) (p : process)
  : process :=
  if negb (existsSync savePath (base p)) && (now (base p) <? timeout)%Z then
    set_view req (ViewPolling savePath timeout (now (base p) + 100)) p
  else view_finish req savePath p.

Definition get_file_view (req : nat) (dir filename : string) (p : process)
  : process :=
  if negb (socket_open (base p)) then
    on_base (respond req (StatusJson 503 "Agent not connected")) p
  else
    let filePath := filePath dir filename in
    let savePath := savePath_of filePath in
    match (do _ <- remove_stale savePath ;;
           agentSocket_send (SentFile (req, 0) filePath)) (base p) with
    | Ok _ st1 =>
        view_poll req savePath (now st1 + 15000) (Process st1 (views p))
    | Throw e st1 => Process (unhandled req e st1) (views p)
    end.

Inductive input :=
| Tick (dt : Z)
| AgentConnects
| AgentReadyState (rs : ready_state)
| AgentCloses
| AgentMessage (message : option json)
| HttpFileView (dir filename : string)
| ViewWake (req : nat)
| SendFileDone (req : nat) (err : bool).

(** One turn of the event loop of the earlier revision. *)
Definition step (p : process) (i : input) : option process :=
  if negb (alive (base p)) then None
  else
    match i with
    | Tick dt =>
        if (0 <=? dt)%Z then Some (on_base (set_now (fun t => (t + dt)%Z)) p)
        else None
    | AgentConnects =>
        Some (on_base (fun st => set_agentSocket (Some OPEN)
                                   (console LogAgentConnected st)) p)
    | AgentReadyState rs =>
        match agentSocket (base p) with
        | Some _ => Some (on_base (set_agentSocket (Some rs)) p)
        | None => None
        end
    | AgentCloses =>
        Some (on_base (fun st => set_agentSocket None
                                   (console LogAgentDisconnected st)) p)
    | AgentMessage message =>
        match Legacy.ws_on_message message (base p) with
        | Ok _ st1 => Some (Process st1 (views p))
        | Throw e st1 => Some (Process (crash e st1) (views p))
        end
    | HttpFileView dir filename =>
        Some (get_file_view (next_req (base p)) dir filename
                (on_base new_request p))
    | ViewWake req =>
        match views p !! req with
        | Some (ViewPolling savePath timeout wake) =>
            if (wake <=? now (base p))%Z
            then Some (view_poll req savePath timeout (del_view req p))
            else None
        | _ => None
        end
    | SendFileDone req err =>
        match views p !! req with
        | Some (ViewSending savePath) =>
            match Legacy.sendFile_callback savePath err (base p) with
            | Ok _ st1 => Some (Process st1 (delete req (views p)))
            | Throw e st1 => Some (Process (crash e st1) (delete req (views p)))
            end
        | _ => None
        end
    end.

Fixpoint run (p : process) (inputs : list input) : option process :=
  match inputs with
  | [] => Some p
  | i :: rest =>
      match step p i with
      | Some p1 => run p1 rest
      | None => None
      end
  end.

Definition init : process := Process Server.init ∅.

Definition reachable (p : process) : Prop :=
  exists inputs, run init inputs = Some p.

(** Every 504 of a file view comes at least 15 s after the request for
    its file was sent. *)
Definition view_timely (tr : list (Z * event)) : Prop :=
  forall t r, (t, Responded r upload_timeout) ∈ tr ->
    exists t0 fp, (t0, SentFile (r, 0) fp) ∈ tr /\ (t0 + 15000 <= t)%Z.

(** Every waiting file view looks for a file, and its deadline is 15 s
    after the request for that file was sent. *)
Definition views_linked (p : process) : Prop :=
  forall r savePath timeout wake,
    views p !! r = Some (ViewPolling savePath timeout wake) ->
    is_directory savePath = false /\
    exists fp, ((timeout - 15000)%Z, SentFile (r, 0) fp) ∈ trace (base p).

Definition is_upload_timeout (e : event) : bool :=
  match e with
  | Responded _ (StatusJson status msg) =>
      Nat.eqb status 504 && String.eqb msg "File upload timeout"
  | _ => false
  end.

End LegacyServer.

(** ** More concrete runs *)

Module MoreRuns.
Import Js Server ArchiveRun.

(** The agent has connected and nothing else has happened. *)
Definition connected : state := after [AgentConnects].

(** A file view has been served and its staged file deleted. *)
Definition view_sent : state :=
  after [AgentConnects; HttpFileView "d" "f.txt";
         AgentMessage (Some (file_message "d/f.txt" "QQ=="));
         SendFileDone 0 false].

(** An archive run waits for its first file; the agent has gone and
    the 60 s have passed. *)
Definition archive_agent_gone : state :=
  after [AgentConnects;
         AgentMessage
           (Some (dir_list_message "/sdcard/dl" ["a.jpg"; "b.jpg"; "c.jpg"]));
         HttpDownloadAll "/sdcard/dl"; AgentCloses; Tick 60000].

(** The same after the timeout of the first fetch. *)
Definition archive_given_up : state :=
  after [AgentConnects;
         AgentMessage
           (Some (dir_list_message "/sdcard/dl" ["a.jpg"; "b.jpg"; "c.jpg"]));
         HttpDownloadAll "/sdcard/dl"; AgentCloses; Tick 60000;
         FetchTimeout (0, 0)].


(** The state of the earlier revision after the inputs. *)
Definition legacy_after (inputs : list LegacyServer.input)
  : LegacyServer.process :=
  match LegacyServer.run LegacyServer.init inputs with
  | Some p => p
  | None => LegacyServer.init
  end.

Definition legacy_connected : LegacyServer.process :=
  legacy_after [LegacyServer.AgentConnects].

(** Two views of the same file, both answered from one staged file. *)
Definition legacy_two_views : list LegacyServer.input :=
  [LegacyServer.AgentConnects;
   LegacyServer.HttpFileView "d" "f.txt";
   LegacyServer.HttpFileView "d" "f.txt";
   LegacyServer.AgentMessage (Some (file_message "d/f.txt" "QQ=="));
   LegacyServer.Tick 100;
   LegacyServer.ViewWake 0;
   LegacyServer.ViewWake 1].

(** A view whose file never came. *)
Definition legacy_no_file : list LegacyServer.input :=
  [LegacyServer.AgentConnects;
   LegacyServer.HttpFileView "d" "f.txt";
   LegacyServer.Tick 15000;
   LegacyServer.ViewWake 0].

End MoreRuns.

(** ** Requests that wait have a timer *)

Module Pending.
Import Js Server Invariants.

(** Every request suspended on a fetch has the waiter of that fetch
    registered, or its resolution queued in [q]. *)
Definition owned (q : list (fetch_id * option string)) (st : state) : Prop :=
  forall f, awaiting st f -> f ∈ ids st \/ f ∈ q.*1.

(** The same for the request [r] alone, with nothing queued. *)
Definition owned_at (r : nat) (st : state) : Prop :=
  forall f, f.1 = r -> awaiting st f -> f ∈ ids st.

(** A timer going off, or time passing. *)
Definition is_timer (i : input) : Prop :=
  (exists dt, i = Tick dt) \/ (exists f, i = FetchTimeout f).

End Pending.

Module PendingRuns.
Import Js Server ArchiveRun.

(** An archive run over a listing of three files waits for the first. *)
Definition archive_waiting : state :=
  after [AgentConnects;
         AgentMessage
           (Some (dir_list_message "/sdcard/dl" ["a.jpg"; "b.jpg"; "c.jpg"]));
         HttpDownloadAll "/sdcard/dl"].

End PendingRuns.

(** * Properties *)

(** ** Strings *)

Module JsStringFacts.
Import JsString.

Lemma chars_app (a b : string) : chars (a +:+ b) = chars a ++ chars b.
Proof. induction a as [|c a IH]; simpl; [reflexivity|]. now rewrite <- IH. Qed.

Lemma chars_inj (a b : string) : chars a = chars b -> a = b.
Proof.
  intros H. rewrite <- (String.string_of_list_ascii_of_string a).
  rewrite <- (String.string_of_list_ascii_of_string b).
  unfold chars in H. now rewrite H.
Qed.

Lemma chars_str (l : list ascii) : chars (str l) = l.
Proof. apply String.list_ascii_of_string_of_list_ascii. Qed.

Lemma str_chars (s : string) : str (chars s) = s.
Proof. apply String.string_of_list_ascii_of_string. Qed.

Lemma str_app (l k : list ascii) : str (l ++ k) = str l +:+ str k.
Proof. apply chars_inj. now rewrite chars_app, !chars_str. Qed.

(** [endsWith] is the suffix relation. *)
Lemma endsWith_spec (s t : string) :
  endsWith s t = true <-> exists p, s = p +:+ t.
Proof.
  unfold endsWith. rewrite andb_true_iff, Nat.leb_le, bool_decide_eq_true.
  split.
  - intros [Hlen Hdrop]. exists (str (take (length (chars s) - length (chars t)) (chars s))).
    apply chars_inj. rewrite chars_app, chars_str.
    etransitivity; [symmetry; apply (take_drop (length (chars s) - length (chars t)))|].
    now rewrite Hdrop.
  - intros [p ->]. rewrite chars_app, length_app. split; [lia|].
    replace (length (chars p) + length (chars t) - length (chars t))
      with (length (chars p)) by lia.
    now rewrite drop_app_length.
Qed.

Lemma endsWith_refl (s : string) : endsWith s s = true.
Proof. apply endsWith_spec. now exists ""%string. Qed.

Lemma app_cons (c : ascii) (a b : string) :
  String c a +:+ b = String c (a +:+ b).
Proof. reflexivity. Qed.

Lemma app_nil_l (b : string) : "" +:+ b = b.
Proof. reflexivity. Qed.

Lemma startsWith_spec (s p : string) :
  startsWith s p = true <-> exists r, s = p +:+ r.
Proof.
  unfold startsWith. revert s. induction p as [|c p IH]; intros s.
  - destruct s; simpl; split; eauto.
  - destruct s as [|d s]; simpl.
    + split; [discriminate|]. intros [r Hr]. rewrite app_cons in Hr. discriminate.
    + destruct (ascii_dec c d) as [->|Hne].
      * rewrite IH. split; intros [r Hr]; exists r; rewrite app_cons in *; congruence.
      * split; [discriminate|]. intros [r Hr]. rewrite app_cons in Hr. congruence.
Qed.

End JsStringFacts.

(** ** The matching predicate *)

Module MatchingFacts.
Import JsString JsStringFacts Matching.

(** C10: dropping the exact-equality operand changes nothing, because a
    string always ends with itself. *)
Theorem loose_match_exact_is_redundant (reqNorm resNorm : string) :
  (String.eqb reqNorm resNorm = true -> endsWith resNorm reqNorm = true) /\
  loose_match reqNorm resNorm = loose_match_without_exact reqNorm resNorm.
Proof.
  assert (H : String.eqb reqNorm resNorm = true -> endsWith resNorm reqNorm = true).
  { intros ->%String.eqb_eq. apply endsWith_refl. }
  split; [exact H|].
  unfold loose_match, loose_match_without_exact.
  destruct (String.eqb reqNorm resNorm); [|reflexivity].
  now rewrite H.
Qed.

End MatchingFacts.

(** ** The requested logical path *)

Module RequestPathFacts.
Import JsString JsStringFacts RequestPath Spec.

Lemma is_sep_spec (c : ascii) : is_sep c = true <-> is_separator c.
Proof.
  unfold is_sep, is_slash, is_backslash, is_separator.
  rewrite orb_true_iff, !Ascii.eqb_eq. reflexivity.
Qed.

Lemma is_letter_spec (c : ascii) : is_letter c = true <-> is_ascii_letter c.
Proof.
  unfold is_letter, is_ascii_letter.
  rewrite orb_true_iff, !andb_true_iff, !Nat.leb_le. reflexivity.
Qed.

Lemma matches_drive_letter_spec (s : string) :
  matches_drive_letter s = true <-> drive_letter_pattern s.
Proof.
  unfold matches_drive_letter, drive_letter_pattern. split.
  - destruct s as [|c [|d r]]; try discriminate.
    rewrite andb_true_iff, is_letter_spec, Ascii.eqb_eq.
    intros [Hc ->]. now exists c, r.
  - intros (c & r & Hc & ->).
    rewrite andb_true_iff, is_letter_spec, Ascii.eqb_eq. now split.
Qed.

Lemma looks_absolute_spec (filename : string) :
  looks_absolute filename = true <->
  begins_with "/" filename \/ begins_with "storage" filename \/
  drive_letter_pattern filename.
Proof.
  unfold looks_absolute.
  rewrite !orb_true_iff, !startsWith_spec, matches_drive_letter_spec.
  unfold begins_with. tauto.
Qed.

Lemma strip_trailing_separator_spec (dir : string) :
  without_trailing_separator dir (strip_trailing_separator dir).
Proof.
  unfold strip_trailing_separator.
  destruct (rev (chars dir)) as [|c r] eqn:Hrev.
  - apply wts_keep. intros d' c Hc ->.
    rewrite chars_app, rev_app_distr in Hrev. discriminate.
  - assert (Hdir : dir = str (rev r) +:+ String c EmptyString).
    { apply chars_inj. rewrite chars_app, chars_str.
      rewrite <- (rev_involutive (chars dir)), Hrev. reflexivity. }
    destruct (is_sep c) eqn:Hsep.
    + rewrite Hdir at 1. apply wts_strip. now apply is_sep_spec.
    + apply wts_keep. intros d' c' Hc' Heq.
      rewrite Heq, chars_app, rev_app_distr in Hrev.
      simpl in Hrev. injection Hrev as <- _.
      apply is_sep_spec in Hc'. congruence.
Qed.

(** C8, as the code has it: a leading forward slash, the prefix
    [storage] or a drive letter keep [filename] as it is; any other
    filename, one with a leading backslash included, is joined by one
    forward slash to [dir] less its last code unit when that is a
    forward slash or a backslash. *)
Theorem filePath_verbatim_or_joined (dir filename : string) :
  (begins_with "/" filename \/ begins_with "storage" filename \/
   drive_letter_pattern filename ->
   filePath dir filename = filename) /\
  (~ (begins_with "/" filename \/ begins_with "storage" filename \/
      drive_letter_pattern filename) ->
   exists cleanDir,
     without_trailing_separator dir cleanDir /\
     filePath dir filename = cleanDir +:+ "/" +:+ filename).
Proof.
  unfold filePath. split.
  - intros H. apply looks_absolute_spec in H. now rewrite H.
  - intros H. destruct (looks_absolute filename) eqn:Habs.
    + exfalso. apply H. now apply looks_absolute_spec.
    + exists (strip_trailing_separator dir). split; [|reflexivity].
      apply strip_trailing_separator_spec.
Qed.

(** C8 as written fails: a filename that starts with a backslash starts
    with a path separator, yet it is not used verbatim. *)
Lemma filePath_leading_backslash_is_joined :
  ~ (forall dir filename,
       begins_with_separator filename \/ begins_with "storage" filename \/
       drive_letter_pattern filename ->
       filePath dir filename = filename).
Proof.
  intros H. specialize (H "d" "\x").
  assert (Hsep : begins_with_separator "\x").
  { exists backslash, "x". split; [now right|reflexivity]. }
  specialize (H (or_introl Hsep)). vm_compute in H. discriminate.
Qed.

End RequestPathFacts.

(** ** Reading a state after an update *)

Module StateFacts.
Import Js Server.

(** Unfolds the field updates and the effects built from them, and reads
    the fields of the resulting record. *)
Ltac st_simpl :=
  cbn [now agentSocket tempDirFiles listeners uploads tasks microtasks
       trace next_req alive
       set_now set_agentSocket set_tempDirFiles set_listeners set_uploads
       set_tasks set_microtasks set_trace set_next_req set_alive
       add_event console respond set_task del_task unhandled resolve
       fileEvents_off crash new_request on_timeout] in *.

(** Evaluates a closed term and names the equation. *)
Ltac compute_eq t E :=
  let v := eval vm_compute in t in
  assert (E : t = v) by (vm_compute; reflexivity).

Lemma events_add_event (e : event) (st : state) :
  events (add_event e st) = events st ++ [e].
Proof. unfold events. st_simpl. now rewrite map_app. Qed.

Lemma new_events_app (st st' : state) (l : list event) :
  events st' = events st ++ l -> new_events st st' = l.
Proof.
  intros H. unfold new_events. rewrite H.
  rewrite <- (length_map snd). apply drop_app_length.
Qed.

End StateFacts.

(** ** The vocabulary of the specification and the code

  The relations of [Spec] say what a normalised path and a last path
  segment are; here they are shown to be what [replace(/\\/g, "/")] and
  [path.basename] compute. *)

Module SpecFacts.
Import JsString JsStringFacts Spec.

Lemma replace_backslashes_cons (c : ascii) (s : string) :
  replace_backslashes (String c s) =
  String (if is_backslash c then slash else c) (replace_backslashes s).
Proof. reflexivity. Qed.

Lemma normalized_spec (s n : string) :
  normalized s n <-> n = replace_backslashes s.
Proof.
  split.
  - induction 1 as [|s n _ IH|c s n Hc _ IH].
    + reflexivity.
    + now rewrite replace_backslashes_cons, <- IH.
    + rewrite replace_backslashes_cons, <- IH.
      destruct (is_backslash c) eqn:E; [|reflexivity].
      apply Ascii.eqb_eq in E. contradiction.
  - intros ->. induction s as [|c s IH]; [constructor|].
    rewrite replace_backslashes_cons. destruct (is_backslash c) eqn:E.
    + apply Ascii.eqb_eq in E. subst c. now constructor.
    + constructor; [|exact IH]. intros ->. discriminate E.
Qed.

Lemma take_drop_while (p : ascii -> bool) (l : list ascii) :
  Path.take_while p l ++ Path.drop_while p l = l.
Proof.
  induction l as [|c l IH]; [reflexivity|]. simpl.
  destruct (p c); [|reflexivity]. simpl. now rewrite IH.
Qed.

Lemma take_while_Forall (p : ascii -> bool) (l : list ascii) :
  Forall (fun c => p c = true) (Path.take_while p l).
Proof.
  induction l as [|c l IH]; [constructor|]. simpl.
  destruct (p c) eqn:E; [now constructor|constructor].
Qed.

Lemma drop_while_head (p : ascii -> bool) (l : list ascii) :
  match Path.drop_while p l with
  | [] => True
  | c :: _ => p c = false
  end.
Proof.
  induction l as [|c l IH]; [exact I|]. simpl.
  destruct (p c) eqn:E; [exact IH|exact E].
Qed.

Lemma drop_while_app_all (p : ascii -> bool) (l k : list ascii) :
  Forall (fun c => p c = true) l ->
  Path.drop_while p (l ++ k) = Path.drop_while p k.
Proof.
  induction 1 as [|c l Hc _ IH]; [reflexivity|]. simpl. now rewrite Hc.
Qed.

Lemma take_while_app_all (p : ascii -> bool) (l k : list ascii) :
  Forall (fun c => p c = true) l ->
  Path.take_while p (l ++ k) = l ++ Path.take_while p k.
Proof.
  induction 1 as [|c l Hc _ IH]; [reflexivity|]. simpl.
  now rewrite Hc, IH.
Qed.

Lemma is_slash_true (c : ascii) : is_slash c = true <-> c = "/"%char.
Proof. apply Ascii.eqb_eq. Qed.

Lemma is_slash_false (c : ascii) : negb (is_slash c) = true <-> c <> "/"%char.
Proof.
  rewrite negb_true_iff. unfold is_slash.
  destruct (Ascii.eqb_spec c slash) as [->|Hne]; [|easy].
  split; [discriminate|]. intros H. now destruct H.
Qed.

Lemma str_nil_inv (l : list ascii) : str l = "" -> l = [].
Proof. intros H. now rewrite <- (chars_str l), H. Qed.

(** [path.basename] computes the last path segment. *)
Lemma basename_is_last_segment (s : string) : last_segment s (Path.basename s).
Proof.
  unfold Path.basename.
  set (l1 := Path.drop_while is_slash (rev (chars s))).
  set (t := Path.take_while is_slash (rev (chars s))).
  set (m := Path.take_while (fun c => negb (is_slash c)) l1).
  set (l2 := Path.drop_while (fun c => negb (is_slash c)) l1).
  assert (H1 : rev (chars s) = t ++ m ++ l2).
  { unfold m, l2. rewrite take_drop_while. unfold t, l1.
    now rewrite take_drop_while. }
  assert (Hs : chars s = rev l2 ++ rev m ++ rev t).
  { rewrite <- (rev_involutive (chars s)), H1, !rev_app_distr.
    now rewrite app_assoc. }
  split.
  - unfold slash_free. fold (chars (str (rev m))). rewrite chars_str.
    apply Forall_rev. eapply Forall_impl; [apply take_while_Forall|].
    intros c Hc. now apply is_slash_false.
  - exists (str (rev l2)), (str (rev t)). split; [|split; [|split]].
    + apply chars_inj. now rewrite !chars_app, !chars_str.
    + unfold only_slashes. fold (chars (str (rev t))). rewrite chars_str.
      apply Forall_rev. eapply Forall_impl; [apply take_while_Forall|].
      intros c Hc. now apply is_slash_true.
    + pose proof (drop_while_head (fun c => negb (is_slash c)) l1) as Hh.
      fold l2 in Hh. destruct l2 as [|c l2']; [now left|]. right.
      apply negb_false_iff, is_slash_true in Hh. subst c.
      exists (str (rev l2')). cbn [rev]. now rewrite str_app.
    + intros Hb. apply str_nil_inv in Hb.
      assert (Hm : m = []).
      { rewrite <- (rev_involutive m), Hb. reflexivity. }
      pose proof (drop_while_head is_slash (rev (chars s))) as Hh.
      fold l1 in Hh. unfold l2.
      destruct l1 as [|c l1']; [reflexivity|].
      unfold m in Hm. simpl in Hm. now rewrite Hh in Hm.
Qed.

(** A path has one last segment only. *)
Lemma last_segment_basename (s b : string) :
  last_segment s b -> b = Path.basename s.
Proof.
  intros (Hb & dir & tail & -> & Ht & Hd & He).
  unfold Path.basename. rewrite !chars_app, !rev_app_distr, <- !app_assoc.
  rewrite drop_while_app_all.
  2:{ apply Forall_rev. eapply Forall_impl; [exact Ht|].
      intros c Hc. now apply is_slash_true. }
  destruct (chars b) as [|x r] eqn:Hcb.
  - assert (b = "") as -> by (apply chars_inj; now rewrite Hcb).
    rewrite (He eq_refl). reflexivity.
  - assert (Hns : Forall (fun c => negb (is_slash c) = true) (rev (x :: r))).
    { apply Forall_rev. rewrite <- Hcb. eapply Forall_impl; [exact Hb|].
      intros c Hc. now apply is_slash_false. }
    assert (Hhd : exists y k, rev (x :: r) = y :: k).
    { destruct (rev (x :: r)) as [|y k] eqn:E; [|eauto].
      apply (f_equal (@length ascii)) in E. rewrite length_rev in E.
      discriminate E. }
    destruct Hhd as (y & k & Hyk). rewrite Hyk in *.
    cbn [app Path.drop_while].
    assert (Hy : is_slash y = false).
    { apply Forall_cons in Hns as [Hy _]. now apply negb_true_iff. }
    rewrite Hy. change (y :: k ++ rev (chars dir)) with ((y :: k) ++ rev (chars dir)).
    rewrite take_while_app_all by exact Hns.
    assert (Hdir : Path.take_while (fun c => negb (is_slash c)) (rev (chars dir)) = []).
    { destruct Hd as [->|[p ->]]; [reflexivity|].
      rewrite chars_app, rev_app_distr. reflexivity. }
    rewrite Hdir, app_nil_r, <- Hyk, rev_involutive, <- Hcb. symmetry. apply str_chars.
Qed.

Lemma last_segment_spec (s b : string) :
  last_segment s b <-> b = Path.basename s.
Proof.
  split; [apply last_segment_basename|]. intros ->. apply basename_is_last_segment.
Qed.

Lemma rule_exact_iff (P Q : string) :
  rule_exact P Q <-> replace_backslashes P = replace_backslashes Q.
Proof.
  unfold rule_exact. split.
  - intros (Pn & Qn & ->%normalized_spec & ->%normalized_spec & H). exact H.
  - intros H. exists (replace_backslashes P), (replace_backslashes Q).
    now rewrite !normalized_spec.
Qed.

Lemma rule_arrived_iff (P Q : string) :
  rule_arrived_ends_with_requested P Q <->
  exists x, replace_backslashes Q = x +:+ replace_backslashes P.
Proof.
  unfold rule_arrived_ends_with_requested, ends_with. split.
  - intros (Pn & Qn & ->%normalized_spec & ->%normalized_spec & H). exact H.
  - intros H. exists (replace_backslashes P), (replace_backslashes Q).
    now rewrite !normalized_spec.
Qed.

Lemma rule_requested_iff (P Q : string) :
  rule_requested_ends_with_arrived P Q <->
  exists x, replace_backslashes P = x +:+ replace_backslashes Q.
Proof.
  unfold rule_requested_ends_with_arrived, ends_with. split.
  - intros (Pn & Qn & ->%normalized_spec & ->%normalized_spec & H). exact H.
  - intros H. exists (replace_backslashes P), (replace_backslashes Q).
    now rewrite !normalized_spec.
Qed.

Lemma rule_same_basename_iff (P Q : string) :
  rule_same_basename P Q <->
  Path.basename (replace_backslashes P) = Path.basename (replace_backslashes Q).
Proof.
  unfold rule_same_basename. split.
  - intros (Pn & Qn & b & ->%normalized_spec & ->%normalized_spec & H1 & H2).
    apply last_segment_basename in H1, H2. congruence.
  - intros H. exists (replace_backslashes P), (replace_backslashes Q),
      (Path.basename (replace_backslashes P)).
    rewrite !normalized_spec.
    split; [reflexivity|]. split; [reflexivity|]. split.
    + apply basename_is_last_segment.
    + rewrite H. apply basename_is_last_segment.
Qed.

End SpecFacts.

(** ** Waiters and arrivals *)

Module WaiterFacts.
Import JsString JsStringFacts Matching Spec SpecFacts Js Server StateFacts
       Invariants.

Lemma handler_matches_spec (P Q : string) :
  handler_matches P Q = true <-> some_rule_holds P Q.
Proof.
  unfold handler_matches, loose_match, some_rule_holds.
  rewrite rule_exact_iff, rule_arrived_iff, rule_requested_iff,
    rule_same_basename_iff.
  rewrite !orb_true_iff, !String.eqb_eq, !endsWith_spec. tauto.
Qed.




Lemma emit_from_events (fd : fileData) (ws : list waiter) (st : state) :
  events (fold_left (fun s w => handler w fd s) ws st) =
  events st ++ flat_map (matched_events fd) ws.
Proof.
  revert st. induction ws as [|w ws IH]; intros st; simpl.
  - now rewrite app_nil_r.
  - rewrite IH. unfold handler, matched_events.
    destruct (handler_matches _ _); simpl; [|reflexivity].
    unfold events. st_simpl. rewrite !map_app. simpl.
    rewrite <- !app_assoc. reflexivity.
Qed.

Lemma emit_from_listeners (fd : fileData) (ws : list waiter) (st : state) :
  listeners (fold_left (fun s w => handler w fd s) ws st) =
  filter (fun x => w_id x ∉ w_id <$> matching fd ws) (listeners st).
Proof.
  revert st. induction ws as [|w ws IH]; intros st; cbn [fold_left].
  - induction (listeners st) as [|x l IHl]; [reflexivity|].
    rewrite filter_cons_True; [now f_equal|]. apply not_elem_of_nil.
  - rewrite IH. unfold handler, matching.
    destruct (handler_matches (w_filePath w) _) eqn:Hm.
    + rewrite filter_cons_True by assumption. st_simpl.
      rewrite list_filter_filter. apply list_filter_iff. intros x.
      rewrite fmap_cons, not_elem_of_cons. tauto.
    + rewrite filter_cons_False by congruence. reflexivity.
Qed.

Lemma emit_from_microtasks (fd : fileData) (ws : list waiter) (st : state) :
  microtasks (fold_left (fun s w => handler w fd s) ws st) =
  microtasks st ++
  ((fun w => (w_id w, Some (fd_savePath fd))) <$> matching fd ws).
Proof.
  revert st. induction ws as [|w ws IH]; intros st; cbn [fold_left].
  - now rewrite app_nil_r.
  - rewrite IH. unfold handler, matching.
    destruct (handler_matches (w_filePath w) _) eqn:Hm.
    + rewrite filter_cons_True by assumption. st_simpl.
      now rewrite <- app_assoc.
    + rewrite filter_cons_False by congruence. reflexivity.
Qed.

Lemma emit_from_tasks (fd : fileData) (ws : list waiter) (st : state) :
  tasks (fold_left (fun s w => handler w fd s) ws st) = tasks st /\
  next_req (fold_left (fun s w => handler w fd s) ws st) = next_req st.
Proof.
  revert st. induction ws as [|w ws IH]; intros st; cbn [fold_left]; [easy|].
  destruct (IH (handler w fd st)) as [-> ->]. unfold handler.
  destruct (handler_matches _ _); easy.
Qed.


Lemma settled_in_matched (fd : fileData) (ws : list waiter) (f : fetch_id)
    (v : option string) :
  In (Settled f v) (flat_map (matched_events fd) ws) <->
  v = Some (fd_savePath fd) /\
  exists w, In w ws /\ w_id w = f /\
            handler_matches (w_filePath w) (fd_path fd) = true.
Proof.
  rewrite in_flat_map. unfold matched_events. split.
  - intros (w & Hw & Hin). destruct (handler_matches _ _) eqn:Hm; [|easy].
    destruct Hin as [Hin|[Hin|[]]]; [discriminate|].
    injection Hin as <- <-. eauto.
  - intros (-> & w & Hw & <- & Hm). exists w. rewrite Hm. simpl. auto.
Qed.

Lemma NoDup_ids_filter (P : waiter -> Prop) `{forall x, Decision (P x)}
    (l : list waiter) :
  NoDup (w_id <$> l) -> NoDup (w_id <$> filter P l).
Proof.
  induction l as [|x l IH]; [easy|].
  rewrite fmap_cons, NoDup_cons. intros [Hx Hl].
  destruct (decide (P x)).
  - rewrite filter_cons_True by assumption.
    rewrite fmap_cons, NoDup_cons. split; [|auto].
    rewrite list_elem_of_fmap in *. intros (y & Hy & Hin).
    apply Hx. exists y. split; [assumption|].
    apply list_elem_of_filter in Hin. tauto.
  - rewrite filter_cons_False by assumption. auto.
Qed.

Lemma same_id_same_waiter (l : list waiter) (w w' : waiter) :
  NoDup (w_id <$> l) -> w ∈ l -> w' ∈ l -> w_id w = w_id w' -> w = w'.
Proof.
  induction l as [|x l IH]; [now intros _ ?%elem_of_nil|].
  rewrite fmap_cons, NoDup_cons, !elem_of_cons. intros [Hx Hl] Hw Hw' Hid.
  destruct Hw as [->|Hw], Hw' as [->|Hw']; auto.
  - exfalso. apply Hx. rewrite Hid. now apply list_elem_of_fmap_2.
  - exfalso. apply Hx. rewrite <- Hid. now apply list_elem_of_fmap_2.
Qed.

Lemma id_matched_iff (fd : fileData) (l : list waiter) (w : waiter) :
  NoDup (w_id <$> l) -> w ∈ l ->
  (w_id w ∈ w_id <$> matching fd l <->
   handler_matches (w_filePath w) (fd_path fd) = true).
Proof.
  intros Hnd Hw. rewrite list_elem_of_fmap. unfold matching. split.
  - intros (w' & Hid & Hin). apply list_elem_of_filter in Hin as [Hm Hin].
    now rewrite (same_id_same_waiter l w w' Hnd Hw Hin Hid).
  - intros Hm. exists w. split; [reflexivity|].
    apply list_elem_of_filter. now split.
Qed.

(** After an [emit], exactly the listeners that did not match are left. *)
Lemma emit_listeners (fd : fileData) (st : state) (w : waiter) :
  NoDup (w_id <$> listeners st) ->
  (w ∈ listeners (fileEvents_emit fd st) <->
   w ∈ listeners st /\ handler_matches (w_filePath w) (fd_path fd) = false).
Proof.
  intros Hnd. unfold fileEvents_emit.
  rewrite emit_from_listeners, list_elem_of_filter. split.
  - intros [Hid Hw]. split; [assumption|].
    destruct (handler_matches _ _) eqn:Hm; [|reflexivity].
    exfalso. apply Hid. now apply id_matched_iff.
  - intros [Hw Hm]. split; [|assumption].
    rewrite id_matched_iff by assumption. congruence.
Qed.


Lemma emit_NoDup (fd : fileData) (st : state) :
  NoDup (w_id <$> listeners st) ->
  NoDup (w_id <$> listeners (fileEvents_emit fd st)).
Proof.
  intros Hnd. unfold fileEvents_emit. rewrite emit_from_listeners.
  now apply NoDup_ids_filter.
Qed.


Lemma ws_on_message_file (path content : string) (st : state) :
  stageable path = true ->
  ws_on_message (Some (file_message path content)) st =
  Ok tt (fileEvents_emit (FileData path (staged path))
           (console (LogReceivedFile (replace_separators path) path)
              (set_uploads (fun m => <[staged path := FromBase64 content]> m) st))).
Proof.
  unfold stageable, staged. intros Hs.
  apply andb_true_iff in Hs as [H1 H2].
  apply negb_true_iff in H1. apply negb_true_iff in H2.
  unfold ws_on_message, file_message, bind, or_throw, ret.
  cbn [get own_property String.eqb Ascii.eqb Bool.eqb is_literal].
  unfold on_file_message, bind, or_throw, ret, effect.
  cbn [get own_property String.eqb Ascii.eqb Bool.eqb Buffer_from].
  unfold ret, writeFileSync, effect. now rewrite H1, H2.
Qed.

End WaiterFacts.

(** ** Waiters, tasks and request numbers *)

Module StructureFacts.
Import Js Server StateFacts Invariants WaiterFacts.

Lemma control_eq (st st' : state) :
  control st' = control st ->
  listeners st' = listeners st /\ tasks st' = tasks st /\
  microtasks st' = microtasks st /\ next_req st' = next_req st.
Proof. unfold control. intros H. injection H as -> -> -> ->. auto. Qed.

Lemma Inv_ext (st st' : state) :
  listeners st' = listeners st -> tasks st' = tasks st ->
  next_req st' = next_req st -> Inv st -> Inv st'.
Proof.
  intros Hl Ht Hn [H1 H2 H3].
  split; unfold ids, awaiting in *; rewrite ?Hl, ?Ht, ?Hn; assumption.
Qed.

Lemma Queued_ext (st st' : state) q :
  listeners st' = listeners st -> tasks st' = tasks st ->
  Queued st q -> Queued st' q.
Proof.
  intros Hl Ht [H1 H2 H3].
  split; unfold ids, awaiting in *; rewrite ?Hl, ?Ht; assumption.
Qed.

Lemma awaiting_functional (st : state) (f f' : fetch_id) :
  awaiting st f -> awaiting st f' -> f.1 = f'.1 -> f = f'.
Proof.
  unfold awaiting. destruct f as [r i], f' as [r' i']. simpl.
  intros H H' <-. destruct (tasks st !! r) as [[]|]; try easy; congruence.
Qed.

Lemma awaiting_other (st st' : state) (r : nat) (f : fetch_id) :
  (forall r', r' <> r -> tasks st' !! r' = tasks st !! r') ->
  f.1 <> r -> awaiting st f -> awaiting st' f.
Proof. unfold awaiting. intros H Hne. now rewrite H. Qed.

Lemma awaiting_is_Some (st : state) (f : fetch_id) :
  awaiting st f -> is_Some (tasks st !! f.1).
Proof. unfold awaiting. destruct (tasks st !! f.1); [eauto|easy]. Qed.

(** Request numbers of registered waiters are in use. *)
Lemma Inv_ids_lt (st : state) (f : fetch_id) :
  Inv st -> f ∈ ids st -> f.1 < next_req st.
Proof.
  intros [_ Ho Ht] Hf. apply Ht. apply awaiting_is_Some. now apply Ho.
Qed.

Lemma local_to_Inv (r : nat) (st st' : state) :
  Inv st -> (forall f, f ∈ ids st -> f.1 <> r) -> r < next_req st ->
  local_to r st st' -> Inv st'.
Proof.
  intros [Hnd Ho Ht] Hr Hlt [Htasks Hnext _ Hls]. split.
  - destruct Hls as [Hls|(w & Hls & Hw & _)]; unfold ids in *; rewrite Hls.
    + assumption.
    + rewrite fmap_app. apply NoDup_app. split; [assumption|]. split.
      * intros f Hf Hin. apply list_elem_of_singleton in Hin.
        apply (Hr f Hf). now rewrite Hin.
      * simpl. apply NoDup_singleton.
  - intros f Hf.
    assert (Hcase : f ∈ ids st \/
              exists w, listeners st' = listeners st ++ [w] /\
                        f = w_id w /\ awaiting st' (w_id w)).
    { destruct Hls as [Hls|(w & Hls & Hw & Haw)]; unfold ids in *;
        rewrite Hls in Hf; [now left|].
      rewrite fmap_app, elem_of_app in Hf. destruct Hf as [Hf|Hf]; [now left|].
      apply list_elem_of_singleton in Hf. right. eauto. }
    destruct Hcase as [Hin|(w & _ & -> & Haw)]; [|assumption].
    apply (awaiting_other st st' r); auto.
  - intros r' Hsome. rewrite Hnext.
    destruct (decide (r' = r)) as [->|Hne]; [assumption|].
    apply Ht. now rewrite <- Htasks.
Qed.

Lemma local_to_Queued (r : nat) (st st' : state) q :
  Queued st q -> (forall f, f ∈ q.*1 -> f.1 <> r) ->
  local_to r st st' -> Queued st' q.
Proof.
  intros [Hnd Ho Hoff] Hr [Htasks _ _ Hls]. split; [assumption| |].
  - intros f Hf. apply (awaiting_other st st' r); auto.
  - intros f Hf Hin.
    destruct Hls as [Hls|(w & Hls & Hw & _)]; unfold ids in *;
      rewrite Hls in Hin; [now apply (Hoff f Hf)|].
    rewrite fmap_app, elem_of_app in Hin. destruct Hin as [Hin|Hin].
    + now apply (Hoff f Hf).
    + apply list_elem_of_singleton in Hin. apply (Hr f Hf). now rewrite Hin.
Qed.

(** A change that is local to [r] may be preceded by one that touches
    the task of [r] only. *)
Lemma local_to_after (r : nat) (st st1 st' : state) :
  listeners st1 = listeners st ->
  (forall r', r' <> r -> tasks st1 !! r' = tasks st !! r') ->
  next_req st1 = next_req st -> microtasks st1 = microtasks st ->
  local_to r st1 st' -> local_to r st st'.
Proof.
  intros Hl Ht Hn Hq [Htasks Hnext Hqueue Hls]. split.
  - intros r' Hne. rewrite Htasks by assumption. now apply Ht.
  - congruence.
  - congruence.
  - now rewrite <- Hl.
Qed.

Lemma local_to_quiet (r : nat) (st st' : state) :
  listeners st' = listeners st ->
  (forall r', r' <> r -> tasks st' !! r' = tasks st !! r') ->
  next_req st' = next_req st -> microtasks st' = microtasks st ->
  local_to r st st'.
Proof. intros Hl Ht Hn Hq. split; auto. Qed.

(** What a call of [fetchFileFromAgent] does to waiters and tasks. *)
Lemma fetch_control (f : fetch_id) (dir : string) (file : json) (st : state) :
  match fetchFileFromAgent f dir file st with
  | Ok _ st' =>
      exists name,
        file = JStr name /\
        listeners st' =
          listeners st ++
          [Waiter f (RequestPath.filePath dir name) (now st + 60000)] /\
        tasks st' = tasks st /\ microtasks st' = microtasks st /\
        next_req st' = next_req st
  | Throw _ st' => control st' = control st
  end.
Proof.
  unfold fetchFileFromAgent, control.
  destruct file; try reflexivity.
  unfold bind, effect, agentSocket_send. st_simpl.
  destruct (agentSocket st) as [[]|]; st_simpl; try reflexivity; eauto 10.
Qed.

Lemma zip_loop_local (req : nat) (dir : string) (files : list json) :
  forall (idx : nat) (st : state),
    local_to req st (zip_loop req dir idx files st).
Proof.
  induction files as [|file rest IH]; intros idx st; simpl.
  - apply local_to_quiet; st_simpl; try reflexivity.
    intros r' Hne. now apply lookup_insert_ne.
  - destruct (to_string file) as [shown|].
    2:{ apply local_to_quiet; st_simpl; reflexivity. }
    pose proof (fetch_control (req, idx) dir file
                  (console (LogFetchingForZip shown) st)) as Hf.
    destruct (fetchFileFromAgent _ _ _ _) as [[] st1|e st1].
    + destruct Hf as (name & -> & Hl & Ht & Hq & Hn). split; st_simpl.
      * intros r' Hne. rewrite lookup_insert_ne by congruence. now rewrite Ht.
      * assumption.
      * assumption.
      * right. eexists. split; [exact Hl|]. split; [reflexivity|].
        unfold awaiting. st_simpl. now rewrite lookup_insert_eq.
    + apply control_eq in Hf as (Hl & Ht & Hq & Hn).
      eapply local_to_after; [| | | |apply IH]; st_simpl;
        try assumption. intros r' _. now rewrite Ht.
Qed.

Lemma zip_settled_local (req : nat) (dir : string) (idx : nat) (file : json)
    (rest : list json) (v : option string) (st : state) :
  local_to req st (zip_settled req dir idx file rest v st).
Proof.
  unfold zip_settled.
  eapply local_to_after; [| | | |apply zip_loop_local];
    destruct v as [p|]; try reflexivity;
    destruct (String.eqb p ""); try reflexivity;
    destruct file; try reflexivity;
    destruct (to_string _); reflexivity.
Qed.

Lemma view_settled_local (req : nat) (v : option string) (st : state) :
  local_to req st (view_settled req v st).
Proof.
  unfold view_settled.
  destruct v as [p|];
    [destruct (String.eqb p ""); [|destruct (send_refused p)]|];
    cbn [sendFile_callback negb];
    apply local_to_quiet; st_simpl; try reflexivity.
  intros r' Hne. now apply lookup_insert_ne.
Qed.

Lemma del_task_then_local (r : nat) (st st' : state) :
  local_to r (del_task r st) st' -> local_to r st st'.
Proof.
  apply local_to_after; st_simpl; try reflexivity.
  intros r' Hne. now apply lookup_delete_ne.
Qed.

(** Running one queued continuation. *)
Lemma resume_Inv (f : fetch_id) (v : option string) q (st : state) :
  Inv st -> Queued st ((f, v) :: q) ->
  Inv (resume (f, v) st) /\ Queued (resume (f, v) st) q /\
  microtasks (resume (f, v) st) = microtasks st.
Proof.
  intros HI HQ. destruct HQ as [Hnd Ho Hoff]. simpl in *.
  apply NoDup_cons in Hnd as [Hfq Hnd].
  assert (Hf : awaiting st f) by (apply Ho; left).
  assert (Hr1 : forall f', f' ∈ ids st -> f'.1 <> f.1).
  { intros f' Hin Heq. apply (Hoff f); [left|].
    rewrite (awaiting_functional st f f' Hf); auto.
    now apply (inv_owner st HI). }
  assert (Hr2 : forall f', f' ∈ q.*1 -> f'.1 <> f.1).
  { intros f' Hin Heq. apply Hfq.
    rewrite (awaiting_functional st f f' Hf); auto.
    apply Ho. now right. }
  assert (HQ' : Queued st q).
  { split; [assumption| |]; intros f' Hin; [apply Ho|apply Hoff]; now right. }
  assert (Hlt : f.1 < next_req st).
  { apply (inv_tasks st HI). now apply awaiting_is_Some. }
  assert (Hloc : local_to f.1 st (resume (f, v) st)).
  { unfold resume. destruct f as [req idx]. simpl.
    destruct (tasks st !! req) as [[]|];
      try (apply local_to_quiet; reflexivity).
    - destruct (Nat.eqb idx 0); [|apply local_to_quiet; reflexivity].
      apply del_task_then_local, view_settled_local.
    - destruct (Nat.eqb idx idx0); [|apply local_to_quiet; reflexivity].
      apply del_task_then_local, zip_settled_local. }
  split; [|split].
  - eapply local_to_Inv; eauto.
  - eapply local_to_Queued; eauto.
  - apply Hloc.
Qed.

Lemma drain_from_Inv q :
  forall st, Inv st -> Queued st q ->
    Inv (fold_left (fun s m => resume m s) q st) /\
    microtasks (fold_left (fun s m => resume m s) q st) = microtasks st.
Proof.
  induction q as [|[f v] q IH]; intros st HI HQ; cbn [fold_left]; [auto|].
  destruct (resume_Inv f v q st HI HQ) as (HI' & HQ' & Hm).
  destruct (IH _ HI' HQ') as [HI'' Hm'']. split; [assumption|congruence].
Qed.

Lemma drain_Inv (st : state) :
  Inv st -> Queued st (microtasks st) ->
  Inv (drain st) /\ microtasks (drain st) = [].
Proof.
  intros HI HQ. unfold drain.
  apply drain_from_Inv.
  - eapply Inv_ext; [| | |exact HI]; reflexivity.
  - eapply Queued_ext; [| |exact HQ]; reflexivity.
Qed.

Lemma emit_Inv (fd : fileData) (st : state) :
  Inv st -> microtasks st = [] ->
  Inv (fileEvents_emit fd st) /\
  Queued (fileEvents_emit fd st) (microtasks (fileEvents_emit fd st)).
Proof.
  intros [Hnd Ho Ht] Hq. unfold fileEvents_emit.
  destruct (emit_from_tasks fd (listeners st) st) as [Htasks Hnext].
  pose proof (emit_from_listeners fd (listeners st) st) as Hl.
  pose proof (emit_from_microtasks fd (listeners st) st) as Hm.
  rewrite Hq in Hm. simpl in Hm.
  set (st' := fold_left _ _ _) in *.
  assert (Hsub : forall f, f ∈ ids st' -> f ∈ ids st).
  { intros f. unfold ids. rewrite Hl, !list_elem_of_fmap.
    intros (w & -> & Hw). apply list_elem_of_filter in Hw as [_ Hw]. eauto. }
  assert (Hq1 : (microtasks st').*1 = w_id <$> matching fd (listeners st)).
  { rewrite Hm, <- list_fmap_compose. reflexivity. }
  split; split.
  - unfold ids. rewrite Hl. now apply NoDup_ids_filter.
  - intros f Hf. unfold awaiting. rewrite Htasks. apply Ho. auto.
  - intros r. rewrite Htasks, Hnext. apply Ht.
  - rewrite Hq1. unfold matching. now apply NoDup_ids_filter.
  - intros f. rewrite Hq1. unfold awaiting. rewrite Htasks. intros Hf.
    apply Ho. unfold ids. apply list_elem_of_fmap in Hf as (w & -> & Hw).
    apply list_elem_of_filter in Hw as [_ Hw]. now apply list_elem_of_fmap_2.
  - intros f. rewrite Hq1. intros Hf. unfold ids. rewrite Hl.
    rewrite list_elem_of_fmap. intros (x & -> & Hx).
    apply list_elem_of_filter in Hx as [Hx _]. auto.
Qed.

Lemma find_waiter_Some (f : fetch_id) (st : state) (w : waiter) :
  find_waiter f st = Some w -> w ∈ listeners st /\ w_id w = f.
Proof.
  unfold find_waiter. intros H. apply find_some in H as [Hin Hd].
  apply bool_decide_eq_true in Hd. split; [now apply list_elem_of_In|assumption].
Qed.

Lemma find_waiter_In (st : state) (w : waiter) :
  w ∈ listeners st -> is_Some (find_waiter (w_id w) st).
Proof.
  unfold find_waiter. intros Hin.
  destruct (find _ _) eqn:Hf; [eauto|].
  apply list_elem_of_In in Hin.
  apply (find_none _ _ Hf) in Hin. apply bool_decide_eq_false in Hin. easy.
Qed.

Lemma off_ids (f f' : fetch_id) (st : state) :
  f' ∈ ids (fileEvents_off f st) <-> f' ∈ ids st /\ f' <> f.
Proof.
  unfold ids. st_simpl. rewrite !list_elem_of_fmap. split.
  - intros (w & -> & Hw). apply list_elem_of_filter in Hw as [Hne Hw].
    split; [eauto|assumption].
  - intros [(w & -> & Hw) Hne]. exists w. split; [reflexivity|].
    now apply list_elem_of_filter.
Qed.

Lemma on_timeout_Inv (f : fetch_id) (st : state) :
  Inv st -> microtasks st = [] -> f ∈ ids st ->
  Inv (on_timeout f st) /\
  Queued (on_timeout f st) (microtasks (on_timeout f st)).
Proof.
  intros [Hnd Ho Ht] Hq Hf.
  assert (Hids : forall f', f' ∈ ids (on_timeout f st) <-> f' ∈ ids st /\ f' <> f).
  { intros f'. apply (off_ids f f' st). }
  split; split.
  - unfold ids. st_simpl. now apply NoDup_ids_filter.
  - intros f' Hf'. apply Hids in Hf' as [Hf' _]. now apply Ho.
  - exact Ht.
  - st_simpl. rewrite Hq. simpl. apply NoDup_singleton.
  - st_simpl. rewrite Hq. simpl. intros f' Hf'.
    apply list_elem_of_singleton in Hf' as ->. now apply Ho.
  - st_simpl. rewrite Hq. simpl. intros f' Hf'.
    apply list_elem_of_singleton in Hf' as ->.
    intros Hin. apply Hids in Hin. easy.
Qed.

Lemma is_literal_eq (v : value) (s : string) :
  is_literal v s = true -> v = Some (JStr s).
Proof.
  destruct v as [[]|]; try discriminate. simpl.
  now intros ->%String.eqb_eq.
Qed.

(** Every way a message can be handled. *)
Lemma ws_on_message_cases (message : option json) (st : state) :
  match ws_on_message message st with
  | Ok _ st1 =>
      (exists data p buffer,
         message = Some data /\
         get data "type" = Some (Some (JStr "file")) /\
         get data "path" = Some (Some (JStr p)) /\
         writeFileSync (path_join_UPLOAD_DIR (JsString.replace_separators p))
           buffer st =
         Ok tt (set_uploads
                  (fun m => <[path_join_UPLOAD_DIR
                                (JsString.replace_separators p) := buffer]> m)
                  st) /\
         st1 = fileEvents_emit
                 (FileData p (path_join_UPLOAD_DIR (JsString.replace_separators p)))
                 (console (LogReceivedFile (JsString.replace_separators p) p)
                    (set_uploads
                       (fun m => <[path_join_UPLOAD_DIR
                                     (JsString.replace_separators p) := buffer]> m)
                       st))) \/
      (exists data key listing count,
         message = Some data /\
         get data "type" = Some (Some (JStr "dir_list")) /\
         get data "files" = Some (Some listing) /\
         st1 = console (LogReceivedFiles key count)
                 (set_tempDirFiles (fun m => <[key := listing]> m) st)) \/
      st1 = st
  | Throw _ st1 =>
      st1 = st \/ exists f, st1 = set_tempDirFiles f st
  end.
Proof.
  unfold ws_on_message, bind, or_throw, ret, throw.
  destruct message as [data|]; [|now left].
  destruct (get data "type") as [type|] eqn:Htype; [|now left].
  destruct (is_literal type "file") eqn:Hfile.
  - apply is_literal_eq in Hfile as ->. simpl.
    unfold on_file_message, bind, or_throw, ret, throw, effect.
    destruct (get data "path") as [[[]|]|] eqn:Hpath; try now left.
    destruct (get data "content") as [content|]; [|now left].
    assert (HB : (exists b, forall s, Buffer_from content s = Ok b s) \/
                 (forall s, exists e, Buffer_from content s = Throw e s)).
    { unfold Buffer_from, ret, throw.
      destruct content as [[]|]; eauto.
      repeat match goal with
             | |- context [match ?x with _ => _ end] => destruct x
             end; eauto. }
    destruct HB as [[b Hb]|Hb].
    2:{ destruct (Hb st) as [e ->]. now left. }
    rewrite Hb.
    unfold writeFileSync, throw, effect.
    destruct (_ || _) eqn:Hd; [now left|].
    destruct (has_nul _) eqn:Hn; [now left|].
    left. exists data, s, b. repeat split; try assumption; try reflexivity.
    unfold writeFileSync, effect. now rewrite Hd, Hn.
  - simpl. destruct (is_literal type "dir_list") eqn:Hdir; [|now right; right].
    apply is_literal_eq in Hdir as ->.
    unfold on_dir_list_message, bind, or_throw, ret, throw, effect.
    destruct (get data "dir") as [dir|]; [|now left].
    destruct (get data "files") as [files|] eqn:Hfiles; [|now left].
    destruct (render dir) as [key|]; [|now left].
    destruct files as [listing|]; [|right; eauto].
    destruct listing; try (right; eauto; fail);
      (destruct (render (length_of _)) as [count|] eqn:Hc;
       [right; left; eexists data, key, _, count;
        repeat split; solve [reflexivity|eassumption]
       |right; eauto]).
Qed.

Lemma files_finish_local (req : nat) (dir : string) (st : state) :
  local_to req st (files_finish req dir st).
Proof.
  unfold files_finish. destruct (no_listing st dir);
    [|destruct (tempDirFiles st !! dir)]; apply local_to_quiet; reflexivity.
Qed.

Lemma files_poll_local (req : nat) (dir : string) (timeout : Z) (st : state) :
  local_to req st (files_poll req dir timeout st).
Proof.
  unfold files_poll. destruct (_ && _); [|apply files_finish_local].
  apply local_to_quiet; st_simpl; try reflexivity.
  intros r' Hne. now apply lookup_insert_ne.
Qed.

Lemma get_files_local (req : nat) (dir : string) (st : state) :
  local_to req st (get_files req dir st).
Proof.
  unfold get_files.
  destruct (negb _); [apply local_to_quiet; reflexivity|].
  destruct (no_listing st dir); [|apply files_finish_local].
  unfold agentSocket_send.
  destruct (agentSocket st) as [[]|];
    try (apply local_to_quiet; reflexivity);
    (eapply local_to_after; [| | | |apply files_poll_local]; reflexivity).
Qed.

Lemma get_file_view_local (req : nat) (dir filename : string) (st : state) :
  local_to req st (get_file_view req dir filename st).
Proof.
  unfold get_file_view.
  destruct (negb _); [apply local_to_quiet; reflexivity|].
  pose proof (fetch_control (req, 0) dir (JStr filename) st) as Hf.
  destruct (fetchFileFromAgent _ _ _ _) as [[] st1|e st1].
  - destruct Hf as (name & _ & Hl & Ht & Hq & Hn). split; st_simpl.
    + intros r' Hne. rewrite lookup_insert_ne by congruence. now rewrite Ht.
    + assumption.
    + assumption.
    + right. eexists. split; [exact Hl|]. split; [reflexivity|].
      unfold awaiting. st_simpl. now rewrite lookup_insert_eq.
  - apply control_eq in Hf as (Hl & Ht & Hq & Hn).
    apply local_to_quiet; st_simpl; try assumption.
    intros r' _. now rewrite Ht.
Qed.

Lemma get_download_all_local (req : nat) (dir : string) (st : state) :
  local_to req st (get_download_all req dir st).
Proof.
  unfold get_download_all.
  destruct (negb _); [apply local_to_quiet; reflexivity|].
  destruct (no_listing st dir); [apply local_to_quiet; reflexivity|].
  destruct (tempDirFiles st !! dir) as [files|];
    [|apply local_to_quiet; reflexivity].
  destruct (render _); [|apply local_to_quiet; reflexivity].
  destruct (iterate files); [|apply local_to_quiet; reflexivity].
  eapply local_to_after; [| | | |apply zip_loop_local]; reflexivity.
Qed.

Lemma sendFile_callback_control (savePath : string) (err : bool) (st : state) :
  control (sendFile_callback savePath err st) = control st.
Proof.
  unfold sendFile_callback, unlinkSync.
  destruct err; simpl; [reflexivity|].
  destruct (uploads st !! savePath); reflexivity.
Qed.

Lemma Inv_new_request (st : state) : Inv st -> Inv (new_request st).
Proof.
  intros [H1 H2 H3]. split; try assumption.
  intros r Hr. st_simpl. specialize (H3 r Hr). lia.
Qed.

Lemma no_waiter_of_fresh (st : state) (f : fetch_id) :
  Inv st -> f ∈ ids (new_request st) -> f.1 <> next_req st.
Proof.
  intros HI Hf. pose proof (Inv_ids_lt st f HI Hf). lia.
Qed.

Lemma no_waiter_of_other_task (st : state) (r : nat) (t : task) (f : fetch_id) :
  Inv st -> tasks st !! r = Some t ->
  match t with ViewAwaiting | ZipAwaiting _ _ _ _ => False | _ => True end ->
  f ∈ ids st -> f.1 <> r.
Proof.
  intros HI Ht Hkind Hf Heq. apply (inv_owner st HI) in Hf.
  unfold awaiting in Hf. rewrite Heq, Ht in Hf. now destruct t.
Qed.

Lemma Queued_nil (st : state) : Queued st [].
Proof. split; simpl; [constructor| |]; intros f Hf; now apply elem_of_nil in Hf. Qed.

(** The invariant holds between any two turns. *)
Lemma step_Good (st st' : state) (i : input) :
  Good st -> step st i = Some st' -> Good st'.
Proof.
  intros [HI Hq] Hstep. unfold step in Hstep.
  destruct (negb (alive st)); [discriminate|].
  destruct i.
  - destruct (0 <=? dt)%Z; [|discriminate]. injection Hstep as <-.
    split; [eapply Inv_ext; [| | |exact HI]; reflexivity|exact Hq].
  - injection Hstep as <-.
    split; [eapply Inv_ext; [| | |exact HI]; reflexivity|exact Hq].
  - destruct (agentSocket st); [|discriminate]. injection Hstep as <-.
    split; [eapply Inv_ext; [| | |exact HI]; reflexivity|exact Hq].
  - injection Hstep as <-.
    split; [eapply Inv_ext; [| | |exact HI]; reflexivity|exact Hq].
  - pose proof (ws_on_message_cases message st) as Hc.
    destruct (ws_on_message message st) as [[] st1|e st1];
      injection Hstep as <-.
    + destruct Hc as [(data & p & b & _ & _ & _ & _ & ->)|
                      [(data & key & listing & count & _ & _ & _ & ->)| ->]].
      * apply drain_Inv; apply emit_Inv; try assumption.
        all: try (eapply Inv_ext; [| | |exact HI]; reflexivity).
      * apply drain_Inv.
        -- eapply Inv_ext; [| | |exact HI]; reflexivity.
        -- st_simpl. rewrite Hq. apply Queued_nil.
      * apply drain_Inv; [assumption|]. rewrite Hq. apply Queued_nil.
    + destruct Hc as [->|[f ->]];
        (split; [eapply Inv_ext; [| | |exact HI]; reflexivity|exact Hq]).
  - destruct (find_waiter f st) as [w|] eqn:Hw; [|discriminate].
    destruct (w_due w <=? now st)%Z; [|discriminate]. injection Hstep as <-.
    apply find_waiter_Some in Hw as [Hw <-].
    apply drain_Inv; apply on_timeout_Inv; try assumption;
      now apply list_elem_of_fmap_2.
  - destruct (tasks st !! req) as [[]|] eqn:Ht; try discriminate.
    destruct (wake <=? now st)%Z; [|discriminate]. injection Hstep as <-.
    assert (Hloc : local_to req st (files_poll req dir timeout (del_task req st))).
    { apply del_task_then_local, files_poll_local. }
    split.
    + eapply local_to_Inv; [exact HI| | |exact Hloc].
      * intros f. now apply (no_waiter_of_other_task st req _ f HI Ht).
      * apply (inv_tasks st HI). rewrite Ht. eauto.
    + rewrite (local_queue _ _ _ Hloc). exact Hq.
  - injection Hstep as <-.
    pose proof (get_files_local (next_req st) dir (new_request st)) as Hloc.
    split.
    + eapply local_to_Inv; [apply Inv_new_request, HI| | |exact Hloc].
      * intros f. now apply no_waiter_of_fresh.
      * st_simpl. lia.
    + rewrite (local_queue _ _ _ Hloc). exact Hq.
  - injection Hstep as <-.
    pose proof (get_file_view_local (next_req st) dir filename (new_request st))
      as Hloc.
    split.
    + eapply local_to_Inv; [apply Inv_new_request, HI| | |exact Hloc].
      * intros f. now apply no_waiter_of_fresh.
      * st_simpl. lia.
    + rewrite (local_queue _ _ _ Hloc). exact Hq.
  - injection Hstep as <-.
    pose proof (get_download_all_local (next_req st) dir (new_request st))
      as Hloc.
    split.
    + eapply local_to_Inv; [apply Inv_new_request, HI| | |exact Hloc].
      * intros f. now apply no_waiter_of_fresh.
      * st_simpl. lia.
    + rewrite (local_queue _ _ _ Hloc). exact Hq.
  - destruct (tasks st !! req) as [[]|] eqn:Ht; try discriminate.
    injection Hstep as <-.
    assert (Hloc : local_to req st
                     (sendFile_callback savePath err (del_task req st))).
    { apply del_task_then_local.
      pose proof (sendFile_callback_control savePath err (del_task req st)) as Hc.
      apply control_eq in Hc as (Hl & Htk & Hm & Hn).
      apply local_to_quiet; try assumption. intros r' _. now rewrite Htk. }
    split.
    + eapply local_to_Inv; [exact HI| | |exact Hloc].
      * intros f. now apply (no_waiter_of_other_task st req _ f HI Ht).
      * apply (inv_tasks st HI). rewrite Ht. eauto.
    + rewrite (local_queue _ _ _ Hloc). exact Hq.
  - destruct (tasks st !! req) as [[]|] eqn:Ht; try discriminate.
    injection Hstep as <-.
    assert (Hloc : local_to req st (console LogZipFinalized (del_task req st))).
    { apply del_task_then_local. apply local_to_quiet; reflexivity. }
    split.
    + eapply local_to_Inv; [exact HI| | |exact Hloc].
      * intros f. now apply (no_waiter_of_other_task st req _ f HI Ht).
      * apply (inv_tasks st HI). rewrite Ht. eauto.
    + rewrite (local_queue _ _ _ Hloc). exact Hq.
Qed.

Lemma init_Good : Good init.
Proof.
  split; [|reflexivity]. split.
  - constructor.
  - intros f Hf. now apply elem_of_nil in Hf.
  - intros r [t Ht]. change (tasks init) with (∅ : gmap nat task) in Ht.
    now rewrite lookup_empty in Ht.
Qed.

Lemma run_Good (inputs : list input) :
  forall st st', Good st -> run st inputs = Some st' -> Good st'.
Proof.
  induction inputs as [|i rest IH]; intros st st' HG Hrun; simpl in Hrun.
  - now injection Hrun as <-.
  - destruct (step st i) as [st1|] eqn:Hs; [|discriminate].
    eapply IH; [|exact Hrun]. eapply step_Good; eauto.
Qed.

Lemma reachable_Good (st : state) : reachable st -> Good st.
Proof. intros [inputs Hrun]. eapply run_Good; [apply init_Good|exact Hrun]. Qed.

End StructureFacts.

(** ** What is added to the trace *)

Module TraceFacts.
Import Js Server StateFacts Invariants WaiterFacts StructureFacts.

Lemma adds_refl (P : event -> Prop) (st : state) : adds P st st.
Proof. split; [reflexivity|]. exists []. simpl. now rewrite app_nil_r. Qed.

Lemma adds_quiet (P : event -> Prop) (st st' : state) :
  now st' = now st -> trace st' = trace st -> adds P st st'.
Proof.
  intros Hn Ht. split; [assumption|]. exists []. simpl.
  now rewrite app_nil_r.
Qed.

Lemma adds_trans (P : event -> Prop) (st st1 st2 : state) :
  adds P st st1 -> adds P st1 st2 -> adds P st st2.
Proof.
  intros [Hn1 (n1 & Ht1 & Hf1)] [Hn2 (n2 & Ht2 & Hf2)].
  split; [congruence|]. exists (n1 ++ n2). split.
  - rewrite Ht2, Ht1, Hn1, fmap_app, app_assoc. reflexivity.
  - now apply Forall_app.
Qed.

Lemma adds_event (P : event -> Prop) (e : event) (st : state) :
  P e -> adds P st (add_event e st).
Proof.
  intros He. split; [reflexivity|]. exists [e]. split; [reflexivity|].
  now constructor.
Qed.

Lemma adds_then_event (P : event -> Prop) (e : event) (st st' : state) :
  P e -> adds P st st' -> adds P st (add_event e st').
Proof. intros He H. eapply adds_trans; [exact H|]. now apply adds_event. Qed.


Lemma adds_events (P : event -> Prop) (st st' : state) :
  adds P st st' ->
  exists new, events st' = events st ++ new /\ Forall P new.
Proof.
  intros [_ (new & Ht & Hf)]. exists new. split; [|assumption].
  unfold events. rewrite Ht, map_app. f_equal.
  clear. induction new as [|e l IH]; simpl; [reflexivity|]. now f_equal.
Qed.

Lemma adds_trace_mono (P : event -> Prop) (st st' : state) x :
  adds P st st' -> x ∈ trace st -> x ∈ trace st'.
Proof. intros [_ (new & -> & _)] Hx. apply elem_of_app. now left. Qed.

Lemma adds_events_mono (P : event -> Prop) (st st' : state) e :
  adds P st st' -> e ∈ events st -> e ∈ events st'.
Proof.
  intros H He. apply adds_events in H as (new & -> & _).
  apply elem_of_app. now left.
Qed.

(** The new part of the trace, seen from the new state. *)
Lemma adds_new (P : event -> Prop) (st st' : state) t e :
  adds P st st' -> (t, e) ∈ trace st' ->
  (t, e) ∈ trace st \/ (t = now st /\ P e).
Proof.
  intros [_ (new & -> & Hf)] Hx. apply elem_of_app in Hx as [Hx|Hx]; [now left|].
  right. apply list_elem_of_fmap in Hx as (e' & Heq & He').
  injection Heq as -> ->. split; [reflexivity|].
  rewrite Forall_forall in Hf. now apply Hf.
Qed.

Lemma adds_ext (P : event -> Prop) (st st1 st2 : state) :
  now st2 = now st1 -> trace st2 = trace st1 ->
  adds P st st1 -> adds P st st2.
Proof.
  intros Hn Ht H. eapply adds_trans; [exact H|]. now apply adds_quiet.
Qed.

Lemma adds_set_agentSocket P st st' s :
  adds P st st' -> adds P st (set_agentSocket s st').
Proof. now apply adds_ext. Qed.
Lemma adds_set_tempDirFiles P st st' f :
  adds P st st' -> adds P st (set_tempDirFiles f st').
Proof. now apply adds_ext. Qed.
Lemma adds_set_listeners P st st' f :
  adds P st st' -> adds P st (set_listeners f st').
Proof. now apply adds_ext. Qed.
Lemma adds_set_uploads P st st' f :
  adds P st st' -> adds P st (set_uploads f st').
Proof. now apply adds_ext. Qed.
Lemma adds_set_tasks P st st' f :
  adds P st st' -> adds P st (set_tasks f st').
Proof. now apply adds_ext. Qed.
Lemma adds_set_microtasks P st st' f :
  adds P st st' -> adds P st (set_microtasks f st').
Proof. now apply adds_ext. Qed.
Lemma adds_set_next_req P st st' n :
  adds P st st' -> adds P st (set_next_req n st').
Proof. now apply adds_ext. Qed.
Lemma adds_set_alive P st st' b :
  adds P st st' -> adds P st (set_alive b st').
Proof. now apply adds_ext. Qed.

(** Solves [adds] goals for code made of field updates and events; the
    side conditions on the events are left when not immediate. *)
Ltac adds_tac :=
  unfold console, respond, unhandled, set_task, del_task, fileEvents_off,
    new_request, resolve, crash, on_timeout;
  repeat first
    [ apply adds_refl
    | assumption
    | apply adds_set_agentSocket
    | apply adds_set_tempDirFiles
    | apply adds_set_listeners
    | apply adds_set_uploads
    | apply adds_set_tasks
    | apply adds_set_microtasks
    | apply adds_set_next_req
    | apply adds_set_alive
    | apply adds_then_event; [try solve [reflexivity|auto]|] ].

Lemma fetch_adds (P : event -> Prop) f dir file st :
  (forall p, P (Console (LogRequestingFile p))) ->
  (forall p, P (SentFile f p)) ->
  adds P st (outcome_state (fetchFileFromAgent f dir file st)).
Proof.
  intros H1 H2. unfold fetchFileFromAgent.
  destruct file; try apply adds_refl.
  unfold bind, effect, agentSocket_send.
  destruct (agentSocket _) as [[]|] eqn:Hs; simpl; adds_tac.
Qed.

Lemma fetch_now f dir file st :
  now (outcome_state (fetchFileFromAgent f dir file st)) = now st.
Proof. apply (fetch_adds (fun _ => True)); auto. Qed.

Lemma by_continuation_fetch (P : event -> Prop) :
  (forall e, by_continuation e = true -> P e) ->
  (forall p, P (Console (LogRequestingFile p))) /\
  (forall f p, P (SentFile f p)).
Proof. intros H. split; intros; now apply H. Qed.

Lemma zip_loop_adds (P : event -> Prop) req dir files :
  (forall e, by_continuation e = true -> P e) ->
  forall idx st, adds P st (zip_loop req dir idx files st).
Proof.
  intros HP. destruct (by_continuation_fetch P HP) as [H1 H2].
  induction files as [|file rest IH]; intros idx st; simpl.
  - adds_tac; try now apply HP.
  - destruct (to_string file) as [shown|]; [|adds_tac; try now apply HP].
    pose proof (fetch_adds P (req, idx) dir file
                  (console (LogFetchingForZip shown) st) H1 (H2 _)) as Hf.
    assert (H0 : adds P st (console (LogFetchingForZip shown) st)).
    { adds_tac; try now apply HP. }
    destruct (fetchFileFromAgent _ _ _ _) as [[] st1|e st1]; simpl in Hf.
    + adds_tac. eapply adds_trans; eauto.
    + eapply adds_trans; [|apply IH]. adds_tac; try now apply HP.
      eapply adds_trans; eauto.
Qed.

Lemma zip_settled_adds (P : event -> Prop) req dir idx file rest v st :
  (forall e, by_continuation e = true -> P e) ->
  adds P st (zip_settled req dir idx file rest v st).
Proof.
  intros HP. unfold zip_settled.
  eapply adds_trans; [|now apply zip_loop_adds].
  destruct v as [p|]; [|apply adds_refl].
  destruct (String.eqb p ""); [apply adds_refl|].
  destruct file; try (destruct (to_string _)); adds_tac; try now apply HP.
Qed.

Lemma view_settled_adds (P : event -> Prop) req v st :
  (forall e, by_view_settled e = true -> P e) ->
  adds P st (view_settled req v st).
Proof.
  intros HP. unfold view_settled.
  destruct v as [p|];
    [destruct (String.eqb p ""); [|destruct (send_refused p)]|];
    cbn [sendFile_callback negb]; adds_tac; try now apply HP.
Qed.

Lemma by_view_settled_continuation (e : event) :
  by_view_settled e = true -> by_continuation e = true.
Proof. destruct e as [| | | | |? []| | | |]; easy. Qed.

Lemma resume_adds (P : event -> Prop) m st :
  (forall e, by_continuation e = true -> P e) ->
  adds P st (resume m st).
Proof.
  intros HP. destruct m as [[req idx] v]. unfold resume.
  destruct (tasks st !! req) as [[]|]; try apply adds_refl.
  - destruct (Nat.eqb idx 0); [|apply adds_refl].
    eapply adds_trans; [|apply view_settled_adds]; [adds_tac|].
    intros e He. now apply HP, by_view_settled_continuation.
  - destruct (Nat.eqb idx idx0); [|apply adds_refl].
    eapply adds_trans; [|now apply zip_settled_adds]. adds_tac.
Qed.

Lemma drain_from_adds (P : event -> Prop) q :
  (forall e, by_continuation e = true -> P e) ->
  forall st, adds P st (fold_left (fun s m => resume m s) q st).
Proof.
  intros HP. induction q as [|m q IH]; intros st; cbn [fold_left].
  - apply adds_refl.
  - eapply adds_trans; [|apply IH]. now apply resume_adds.
Qed.

Lemma drain_adds (P : event -> Prop) st :
  (forall e, by_continuation e = true -> P e) ->
  adds P st (drain st).
Proof.
  intros HP. unfold drain.
  eapply adds_trans; [|now apply drain_from_adds]. adds_tac.
Qed.

Lemma handler_adds (P : event -> Prop) w fd st :
  (forall e, by_emit e = true -> P e) ->
  adds P st (handler w fd st).
Proof.
  intros HP. unfold handler. destruct (Matching.handler_matches _ _);
    adds_tac; try now apply HP.
Qed.

Lemma emit_from_adds (P : event -> Prop) fd ws :
  (forall e, by_emit e = true -> P e) ->
  forall st, adds P st (fold_left (fun s w => handler w fd s) ws st).
Proof.
  intros HP. induction ws as [|w ws IH]; intros st; cbn [fold_left].
  - apply adds_refl.
  - eapply adds_trans; [|apply IH]. now apply handler_adds.
Qed.

Lemma emit_adds (P : event -> Prop) fd st :
  (forall e, by_emit e = true -> P e) ->
  adds P st (fileEvents_emit fd st).
Proof. intros HP. now apply emit_from_adds. Qed.

Lemma ws_on_message_adds (P : event -> Prop) message st :
  (forall e, by_message e = true -> P e) ->
  adds P st (outcome_state (ws_on_message message st)).
Proof.
  intros HP. pose proof (ws_on_message_cases message st) as Hc.
  destruct (ws_on_message message st) as [[] st1|e st1]; simpl.
  - destruct Hc as [(data & p & b & _ & _ & _ & _ & ->)|
                    [(data & key & listing & count & _ & _ & _ & ->)| ->]].
    + eapply adds_trans; [|apply emit_adds].
      * adds_tac; try now apply HP.
      * intros e He. apply HP. unfold by_message.
        destruct e as [| |[]| | | | | | |]; try easy.
    + adds_tac; try now apply HP.
    + apply adds_refl.
  - destruct Hc as [->|[f ->]]; adds_tac.
Qed.

End TraceFacts.

(** ** When an arrival resolves a waiter *)

Module ResolutionFacts.
Import JsString JsStringFacts Matching Spec SpecFacts Js Server StateFacts
       Invariants WaiterFacts StructureFacts TraceFacts.


End ResolutionFacts.

(** ** The fetches of an archive run are sequential *)

Module OrderFacts.
Import Js Server StateFacts Invariants WaiterFacts StructureFacts TraceFacts.

Lemma ordered_snoc (evs : list event) (e : event) :
  ordered evs ->
  (forall r n p, e = SentFile (r, S n) p ->
     exists x, x ∈ evs /\ is_done (r, n) x = true) ->
  ordered (evs ++ [e]).
Proof.
  intros Ho He pre r n p post Heq.
  apply app_eq_app in Heq as [l [[H1 H2]|[H1 H2]]].
  - destruct l as [|y l].
    + simpl in H2. injection H2 as H2 _. rewrite app_nil_r in H1. subst pre.
      now apply (He r n p).
    + simpl in H2. injection H2 as <- Hpost. now apply (Ho pre r n p l).
  - destruct l as [|y l]; simpl in H2.
    + injection H2 as H2 _. rewrite app_nil_r in H1. subst pre.
      now apply (He r n p).
    + injection H2 as _ H2. now destruct l.
Qed.

Lemma ordered_app (evs new : list event) :
  ordered evs -> Forall (fun e => is_later_send e = false) new ->
  ordered (evs ++ new).
Proof.
  revert evs. induction new as [|e new IH]; intros evs Ho Hf.
  - now rewrite app_nil_r.
  - apply Forall_cons in Hf as [He Hf].
    change (e :: new) with ([e] ++ new). rewrite app_assoc.
    apply IH; [|assumption]. apply ordered_snoc; [assumption|].
    intros r n p Heq. subst e. discriminate.
Qed.

Lemma ordered_adds (st st' : state) :
  ordered (events st) -> adds (fun e => is_later_send e = false) st st' ->
  ordered (events st').
Proof.
  intros Ho H. apply adds_events in H as (new & -> & Hf).
  now apply ordered_app.
Qed.

Lemma done_before_mono (evs evs' : list event) (f : fetch_id) :
  (forall e, e ∈ evs -> e ∈ evs') -> done_before evs f -> done_before evs' f.
Proof.
  unfold done_before. destruct f.2; [auto|].
  intros H (e & He & Hd). eauto.
Qed.

Lemma fetch_ordered f dir file st :
  ordered (events st) -> done_before (events st) f ->
  ordered (events (outcome_state (fetchFileFromAgent f dir file st))).
Proof.
  intros Ho Hd. unfold fetchFileFromAgent.
  destruct file; try assumption.
  assert (H0 : ordered (events (console (LogRequestingFile
                                           (RequestPath.filePath dir s)) st))).
  { unfold console. rewrite events_add_event.
    apply ordered_snoc; [assumption|]. intros r n p. discriminate. }
  unfold bind, effect, agentSocket_send.
  destruct (agentSocket _) as [[]|] eqn:Hs; simpl; try assumption.
  change (events (set_listeners ?g ?s)) with (events s).
  rewrite events_add_event. apply ordered_snoc; [assumption|].
  intros r n p Heq. injection Heq as Hf _. subst f.
  unfold done_before in Hd. simpl in Hd. destruct Hd as (x & Hx & Hdone).
  exists x. split; [|assumption].
  unfold console. rewrite events_add_event. apply elem_of_app. now left.
Qed.

Lemma zip_loop_ordered req dir files :
  forall idx st,
    ordered (events st) -> done_before (events st) (req, idx) ->
    ordered (events (zip_loop req dir idx files st)).
Proof.
  induction files as [|file rest IH]; intros idx st Ho Hd; simpl.
  - change (events (set_task ?r ?t ?s)) with (events s).
    rewrite events_add_event. apply ordered_snoc; [assumption|].
    intros r n p. discriminate.
  - destruct (to_string file) as [shown|].
    2:{ unfold unhandled. rewrite events_add_event.
        apply ordered_snoc; [assumption|]. intros r n p. discriminate. }
    set (st0 := console (LogFetchingForZip shown) st).
    assert (H0 : ordered (events st0)).
    { unfold st0, console. rewrite events_add_event.
      apply ordered_snoc; [assumption|]. intros r n p. discriminate. }
    assert (Hd0 : done_before (events st0) (req, idx)).
    { eapply done_before_mono; [|exact Hd]. intros e He.
      unfold st0, console. rewrite events_add_event. apply elem_of_app. now left. }
    pose proof (fetch_ordered (req, idx) dir file st0 H0 Hd0) as Hf.
    destruct (fetchFileFromAgent _ _ _ _) as [[] st1|e st1]; simpl in Hf.
    + exact Hf.
    + apply IH.
      * unfold console. rewrite !events_add_event.
        apply ordered_snoc; [apply ordered_snoc; [assumption|]|];
          intros r n p; discriminate.
      * unfold done_before. simpl. exists (Rejected (req, idx) e). split.
        -- unfold console. rewrite !events_add_event.
           apply elem_of_app. left. apply elem_of_app. right. now left.
        -- simpl. now apply bool_decide_eq_true.
Qed.

Lemma zip_settled_ordered req dir idx file rest v st :
  ordered (events st) -> Settled (req, idx) v ∈ events st ->
  ordered (events (zip_settled req dir idx file rest v st)).
Proof.
  intros Ho Hs. unfold zip_settled.
  set (st1 := match v with Some _ => _ | None => _ end).
  assert (H1 : adds (fun e => is_later_send e = false) st st1).
  { unfold st1. destruct v as [p|]; [|apply adds_refl].
    destruct (String.eqb p ""); [apply adds_refl|].
    destruct file; try (destruct (to_string _)); adds_tac. }
  apply zip_loop_ordered; [now apply (ordered_adds st)|].
  unfold done_before. simpl. exists (Settled (req, idx) v). split.
  - now apply (adds_events_mono _ st st1 _ H1).
  - simpl. now apply bool_decide_eq_true.
Qed.

Lemma resume_ordered f v st :
  ordered (events st) -> Settled f v ∈ events st ->
  ordered (events (resume (f, v) st)).
Proof.
  intros Ho Hs. destruct f as [req idx]. unfold resume.
  destruct (tasks st !! req) as [[]|]; try assumption.
  - destruct (Nat.eqb idx 0); [|assumption].
    eapply ordered_adds; [exact Ho|].
    eapply adds_trans; [|apply view_settled_adds].
    + adds_tac.
    + intros e He. now destruct e.
  - destruct (Nat.eqb_spec idx idx0) as [->|]; [|assumption].
    now apply zip_settled_ordered.
Qed.

Lemma drain_from_ordered q :
  forall st,
    ordered (events st) ->
    (forall f v, (f, v) ∈ q -> Settled f v ∈ events st) ->
    ordered (events (fold_left (fun s m => resume m s) q st)).
Proof.
  induction q as [|[f v] q IH]; intros st Ho Hq; cbn [fold_left]; [assumption|].
  apply IH.
  - apply resume_ordered; [assumption|]. apply Hq. now left.
  - intros f' v' Hin. eapply adds_events_mono.
    + apply (resume_adds (fun _ => True)). auto.
    + apply Hq. now right.
Qed.

Lemma drain_ordered st :
  ordered (events st) ->
  (forall f v, (f, v) ∈ microtasks st -> Settled f v ∈ events st) ->
  ordered (events (drain st)).
Proof. intros Ho Hq. unfold drain. now apply drain_from_ordered. Qed.

Lemma emit_queue fd st f v :
  microtasks st = [] ->
  (f, v) ∈ microtasks (fileEvents_emit fd st) ->
  Settled f v ∈ events (fileEvents_emit fd st).
Proof.
  intros Hq Hin. unfold fileEvents_emit in *.
  rewrite emit_from_microtasks, Hq in Hin. simpl in Hin.
  apply list_elem_of_fmap in Hin as (w & Heq & Hw).
  injection Heq as -> ->.
  apply list_elem_of_filter in Hw as [Hm Hw].
  rewrite emit_from_events. apply elem_of_app. right.
  apply list_elem_of_In, settled_in_matched. split; [reflexivity|].
  exists w. split; [now apply list_elem_of_In|]. auto.
Qed.

Lemma files_finish_adds (P : event -> Prop) req dir st :
  (forall e, by_files e = true -> P e) ->
  adds P st (files_finish req dir st).
Proof.
  intros HP. unfold files_finish.
  destruct (no_listing st dir); [|destruct (tempDirFiles st !! dir)];
    adds_tac; now apply HP.
Qed.

Lemma files_poll_adds (P : event -> Prop) req dir timeout st :
  (forall e, by_files e = true -> P e) ->
  adds P st (files_poll req dir timeout st).
Proof.
  intros HP. unfold files_poll.
  destruct (_ && _); [adds_tac|now apply files_finish_adds].
Qed.

Lemma get_files_adds (P : event -> Prop) req dir st :
  (forall e, by_files e = true -> P e) ->
  adds P st (get_files req dir st).
Proof.
  intros HP. unfold get_files.
  destruct (negb _); [adds_tac; now apply HP|].
  destruct (no_listing st dir); [|now apply files_finish_adds].
  unfold agentSocket_send.
  destruct (agentSocket st) as [[]|];
    try (adds_tac; now apply HP);
    (eapply adds_trans; [|now apply files_poll_adds]);
    adds_tac; now apply HP.
Qed.

Lemma sendFile_callback_adds (P : event -> Prop) savePath err st :
  adds P st (sendFile_callback savePath err st).
Proof.
  unfold sendFile_callback, unlinkSync.
  destruct err; simpl; [apply adds_refl|].
  destruct (uploads st !! savePath); adds_tac.
Qed.

Lemma by_files_not_later_send (e : event) :
  by_files e = true -> is_later_send e = false.
Proof. now destruct e. Qed.

Lemma by_message_not_later_send (e : event) :
  by_message e = true -> is_later_send e = false.
Proof. now destruct e. Qed.

Lemma get_file_view_ordered req dir filename st :
  ordered (events st) -> ordered (events (get_file_view req dir filename st)).
Proof.
  intros Ho. unfold get_file_view.
  destruct (negb _).
  { eapply ordered_adds; [exact Ho|]. adds_tac. }
  pose proof (fetch_ordered (req, 0) dir (JStr filename) st Ho I) as Hf.
  destruct (fetchFileFromAgent _ _ _ _) as [[] st1|e st1]; simpl in Hf.
  - exact Hf.
  - eapply ordered_adds; [exact Hf|]. adds_tac.
Qed.

Lemma get_download_all_ordered req dir st :
  ordered (events st) -> ordered (events (get_download_all req dir st)).
Proof.
  intros Ho. unfold get_download_all.
  destruct (negb _).
  { eapply ordered_adds; [exact Ho|]. adds_tac. }
  destruct (no_listing st dir).
  { eapply ordered_adds; [exact Ho|]. adds_tac. }
  destruct (tempDirFiles st !! dir) as [files|]; [|assumption].
  destruct (render _).
  2:{ eapply ordered_adds; [exact Ho|]. adds_tac. }
  destruct (iterate files).
  2:{ eapply ordered_adds; [exact Ho|]. adds_tac. }
  apply zip_loop_ordered; [|exact I].
  eapply ordered_adds; [exact Ho|]. adds_tac.
Qed.

(** One turn keeps the fetches of every run in order. *)
Lemma step_ordered (st st' : state) (i : input) :
  Good st -> ordered (events st) -> step st i = Some st' ->
  ordered (events st').
Proof.
  intros [HI Hq] Ho Hstep. unfold step in Hstep.
  destruct (negb (alive st)); [discriminate|].
  destruct i.
  - destruct (0 <=? dt)%Z; [|discriminate]. now injection Hstep as <-.
  - injection Hstep as <-. eapply ordered_adds; [exact Ho|]. adds_tac.
  - destruct (agentSocket st); [|discriminate]. now injection Hstep as <-.
  - injection Hstep as <-. eapply ordered_adds; [exact Ho|]. adds_tac.
  - pose proof (ws_on_message_cases message st) as Hc.
    pose proof (ws_on_message_adds (fun e => is_later_send e = false)
                  message st by_message_not_later_send) as Ha.
    destruct (ws_on_message message st) as [[] st1|e st1];
      injection Hstep as <-; simpl in Ha.
    + apply drain_ordered; [now apply (ordered_adds st)|].
      destruct Hc as [(data & p & b & _ & _ & _ & _ & ->)|
                      [(data & key & listing & count & _ & _ & _ & ->)| ->]].
      * intros f v. now apply emit_queue.
      * st_simpl. rewrite Hq. intros f v Hin. now apply elem_of_nil in Hin.
      * rewrite Hq. intros f v Hin. now apply elem_of_nil in Hin.
    + eapply ordered_adds; [now apply (ordered_adds st), Ha|]. adds_tac.
  - destruct (find_waiter f st) as [w|] eqn:Hw; [|discriminate].
    destruct (w_due w <=? now st)%Z; [|discriminate]. injection Hstep as <-.
    apply drain_ordered.
    + eapply ordered_adds; [exact Ho|]. adds_tac.
    + st_simpl. rewrite Hq. intros f' v Hin.
      apply list_elem_of_singleton in Hin. injection Hin as -> ->.
      unfold events. st_simpl. rewrite map_app. apply elem_of_app.
      right. now left.
  - destruct (tasks st !! req) as [[]|] eqn:Ht; try discriminate.
    destruct (wake <=? now st)%Z; [|discriminate]. injection Hstep as <-.
    eapply ordered_adds; [exact Ho|].
    eapply adds_trans; [|apply files_poll_adds, by_files_not_later_send].
    adds_tac.
  - injection Hstep as <-.
    eapply ordered_adds; [exact Ho|].
    eapply adds_trans; [|apply get_files_adds, by_files_not_later_send].
    adds_tac.
  - injection Hstep as <-. now apply get_file_view_ordered.
  - injection Hstep as <-. now apply get_download_all_ordered.
  - destruct (tasks st !! req) as [[]|] eqn:Ht; try discriminate.
    injection Hstep as <-.
    eapply ordered_adds; [exact Ho|].
    eapply adds_trans; [|apply sendFile_callback_adds]. adds_tac.
  - destruct (tasks st !! req) as [[]|] eqn:Ht; try discriminate.
    injection Hstep as <-.
    eapply ordered_adds; [exact Ho|]. adds_tac.
Qed.

Lemma run_ordered (inputs : list input) :
  forall st st',
    Good st -> ordered (events st) -> run st inputs = Some st' ->
    ordered (events st').
Proof.
  induction inputs as [|i rest IH]; intros st st' HG Ho Hrun; simpl in Hrun.
  - now injection Hrun as <-.
  - destruct (step st i) as [st1|] eqn:Hs; [|discriminate].
    eapply IH; [| |exact Hrun].
    + eapply step_Good; eauto.
    + eapply step_ordered; eauto.
Qed.

Lemma one_waiter_per_request (st : state) (w w' : waiter) :
  Inv st -> w ∈ listeners st -> w' ∈ listeners st ->
  (w_id w).1 = (w_id w').1 -> w = w'.
Proof.
  intros HI Hw Hw' Hreq.
  apply (same_id_same_waiter (listeners st)); auto.
  - apply (inv_nodup st HI).
  - apply (awaiting_functional st); auto;
      apply (inv_owner st HI); now apply list_elem_of_fmap_2.
Qed.

(** C2: in every state the server can reach, a [request_file] for entry
    [n + 1] of an archive run appears in the trace only after the fetch
    for entry [n] of that run has ended (its promise resolved with a
    staged location or, on timeout, with null; or the call threw and the
    entry was skipped); and a request never has two waiters registered
    at once. *)
Theorem archive_fetches_are_sequential (st : state) :
  reachable st ->
  (forall pre req n filePath post,
     events st = pre ++ SentFile (req, S n) filePath :: post ->
     exists e, e ∈ pre /\
       ((exists v, e = Settled (req, n) v) \/
        (exists x, e = Rejected (req, n) x))) /\
  (forall w w', w ∈ listeners st -> w' ∈ listeners st ->
                (w_id w).1 = (w_id w').1 -> w = w').
Proof.
  intros Hreach. pose proof (reachable_Good st Hreach) as [HI Hq].
  destruct Hreach as [inputs Hrun]. split.
  - intros pre req n p post Heq.
    assert (Ho : ordered (events st)).
    { eapply run_ordered; [apply init_Good| |exact Hrun].
      intros pre' r' n' p' post' H. now destruct pre'. }
    destruct (Ho pre req n p post Heq) as (e & He & Hd).
    exists e. split; [assumption|].
    destruct e; try discriminate; simpl in Hd;
      apply bool_decide_eq_true in Hd; subst; eauto.
  - intros w w'. now apply one_waiter_per_request.
Qed.

End OrderFacts.

(** ** A listing wait and its deadline *)

Module ListingFacts.
Import Js Server StateFacts Invariants WaiterFacts StructureFacts TraceFacts
       OrderFacts.






Lemma fetch_tasks f dir file st :
  tasks (outcome_state (fetchFileFromAgent f dir file st)) = tasks st.
Proof.
  pose proof (fetch_control f dir file st) as H.
  destruct (fetchFileFromAgent _ _ _ _); simpl.
  - now destruct H as (_ & _ & _ & -> & _).
  - now apply control_eq in H as (_ & -> & _).
Qed.





Lemma emit_tasks fd st : tasks (fileEvents_emit fd st) = tasks st.
Proof. unfold fileEvents_emit. apply emit_from_tasks. Qed.








Lemma socket_open_OPEN (st : state) :
  socket_open st = true -> agentSocket st = Some OPEN.
Proof. unfold socket_open. now destruct (agentSocket st) as [[]|]. Qed.







Lemma drain_nothing (st : state) :
  microtasks st = [] -> drain st = set_microtasks (fun _ => []) st.
Proof. unfold drain. now intros ->. Qed.



End ListingFacts.


(** ** The deadline of a fetch *)

Module TimeoutFacts.
Import JsString Spec Js Server StateFacts Invariants WaiterFacts
       StructureFacts TraceFacts OrderFacts ListingFacts.

Lemma resume_local (f : fetch_id) (v : option string) (st : state) :
  local_to f.1 st (resume (f, v) st).
Proof.
  unfold resume. destruct f as [req idx]. simpl.
  destruct (tasks st !! req) as [[]|];
    try (apply local_to_quiet; reflexivity).
  - destruct (Nat.eqb idx 0); [|apply local_to_quiet; reflexivity].
    apply del_task_then_local, view_settled_local.
  - destruct (Nat.eqb idx idx0); [|apply local_to_quiet; reflexivity].
    apply del_task_then_local, zip_settled_local.
Qed.

Lemma local_listeners_mono (r : nat) (st st' : state) (w : waiter) :
  local_to r st st' -> w ∈ listeners st -> w ∈ listeners st'.
Proof.
  intros [_ _ _ [->|(w' & -> & _)]] Hw; [assumption|].
  apply elem_of_app. now left.
Qed.

Lemma drain_from_listeners_mono q (w : waiter) :
  forall st, w ∈ listeners st ->
             w ∈ listeners (fold_left (fun s m => resume m s) q st).
Proof.
  induction q as [|[f v] q IH]; intros st Hw; cbn [fold_left]; [assumption|].
  apply IH. eapply local_listeners_mono; [apply resume_local|assumption].
Qed.

Lemma drain_listeners_mono (st : state) (w : waiter) :
  w ∈ listeners st -> w ∈ listeners (drain st).
Proof. intros Hw. unfold drain. now apply drain_from_listeners_mono. Qed.

(** The loop registers waiters for entries from [idx] on only. *)
Lemma zip_loop_new_ids req dir files :
  forall idx st f,
    f ∈ ids (zip_loop req dir idx files st) ->
    f ∈ ids st \/ (f.1 = req /\ idx <= f.2).
Proof.
  induction files as [|file rest IH]; intros idx st f; simpl.
  - now left.
  - destruct (to_string file) as [shown|]; [|now left].
    pose proof (fetch_control (req, idx) dir file
                  (console (LogFetchingForZip shown) st)) as Hf.
    destruct (fetchFileFromAgent _ _ _ _) as [[] st1|e st1].
    + destruct Hf as (name & _ & Hl & _). unfold ids. st_simpl. rewrite Hl.
      rewrite fmap_app, elem_of_app. intros [H|H]; [now left|].
      apply list_elem_of_singleton in H as ->. right. simpl. auto.
    + apply control_eq in Hf as (Hl & _). intros H.
      apply IH in H as [H|[H1 H2]]; [left|right; split; [assumption|lia]].
      unfold ids in *. st_simpl. now rewrite Hl in H.
Qed.

Lemma resume_new_ids (f : fetch_id) (v : option string) (st : state) g :
  g ∈ ids (resume (f, v) st) -> g ∈ ids st \/ (g.1 = f.1 /\ f.2 < g.2).
Proof.
  unfold resume. destruct f as [req idx]. simpl.
  destruct (tasks st !! req) as [[]|]; try (now left).
  - destruct (Nat.eqb idx 0); [|now left].
    unfold view_settled.
    destruct v as [p|];
      [destruct (String.eqb p ""); [|destruct (send_refused p)]|];
      cbn [sendFile_callback negb]; now left.
  - destruct (Nat.eqb_spec idx idx0) as [->|]; [|now left].
    unfold zip_settled. intros H.
    apply zip_loop_new_ids in H as [H|[H1 H2]]; [left|right; split; [assumption|lia]].
    destruct v as [p|]; [|exact H].
    destruct (String.eqb p ""); [exact H|].
    destruct file; try (destruct (to_string _)); exact H.
Qed.

Lemma adds_new_events (P : event -> Prop) (st st' : state) :
  adds P st st' ->
  exists new, new_events st st' = new /\ events st' = events st ++ new /\
              Forall P new.
Proof.
  intros H. apply adds_events in H as (new & He & Hf).
  exists new. split; [now apply new_events_app|]. now split.
Qed.

Lemma find_waiter_unique (st : state) (w : waiter) :
  NoDup (ids st) -> w ∈ listeners st -> find_waiter (w_id w) st = Some w.
Proof.
  intros Hnd Hw. destruct (find_waiter_In st w Hw) as [w' Hf].
  rewrite Hf. f_equal. apply find_waiter_Some in Hf as [Hw' Hid].
  now apply (same_id_same_waiter (listeners st)).
Qed.

(** A registered waiter stays registered until an arrival satisfies one
    of the rules or its own timer fires. *)
Lemma step_keeps_waiter (st st' : state) (i : input) (w : waiter) :
  Good st -> w ∈ listeners st -> step st i = Some st' ->
  w ∈ listeners st' \/ i = FetchTimeout (w_id w) \/
  exists data path,
    i = AgentMessage (Some data) /\
    get data "path" = Some (Some (JStr path)) /\
    some_rule_holds (w_filePath w) path.
Proof.
  intros [HI Hq] Hw Hstep. unfold step in Hstep.
  destruct (negb (alive st)); [discriminate|].
  destruct i.
  - destruct (0 <=? dt)%Z; [|discriminate]. injection Hstep as <-. now left.
  - injection Hstep as <-. now left.
  - destruct (agentSocket st); [|discriminate]. injection Hstep as <-. now left.
  - injection Hstep as <-. now left.
  - pose proof (ws_on_message_cases message st) as Hc.
    destruct (ws_on_message message st) as [[] st1|e st1];
      injection Hstep as <-.
    + destruct Hc as [(data & p & b & -> & _ & Hpath & _ & ->)|
                      [(data & key & listing & count & _ & _ & _ & ->)| ->]].
      * destruct (Matching.handler_matches (w_filePath w) p) eqn:Hm.
        -- right. right. exists data, p. repeat split; try assumption.
           now apply handler_matches_spec.
        -- left. apply drain_listeners_mono. apply emit_listeners.
           ++ apply (inv_nodup st HI).
           ++ now split.
      * left. now apply drain_listeners_mono.
      * left. now apply drain_listeners_mono.
    + left. now destruct Hc as [->|[f ->]].
  - destruct (find_waiter f st) as [w'|] eqn:Hf; [|discriminate].
    destruct (w_due w' <=? now st)%Z; [|discriminate]. injection Hstep as <-.
    destruct (decide (f = w_id w)) as [->|Hne]; [now right; left|].
    left. apply drain_listeners_mono. st_simpl.
    apply list_elem_of_filter. split; [congruence|assumption].
  - destruct (tasks st !! req) as [[]|] eqn:Ht; try discriminate.
    destruct (wake <=? now st)%Z; [|discriminate]. injection Hstep as <-.
    left. eapply local_listeners_mono;
      [apply del_task_then_local, files_poll_local|assumption].
  - injection Hstep as <-. left.
    eapply local_listeners_mono; [apply get_files_local|assumption].
  - injection Hstep as <-. left.
    eapply local_listeners_mono; [apply get_file_view_local|assumption].
  - injection Hstep as <-. left.
    eapply local_listeners_mono; [apply get_download_all_local|assumption].
  - destruct (tasks st !! req) as [[]|] eqn:Ht; try discriminate.
    injection Hstep as <-. left.
    now destruct (control_eq _ _ (sendFile_callback_control savePath err
                                    (del_task req st))) as (-> & _).
  - destruct (tasks st !! req) as [[]|] eqn:Ht; try discriminate.
    injection Hstep as <-. now left.
Qed.

(** What the turn of a fetch timer is. *)
Lemma timeout_turn (st st' : state) (w : waiter) :
  Good st -> w ∈ listeners st ->
  step st (FetchTimeout (w_id w)) = Some st' ->
  (w_due w <= now st)%Z /\
  st' = resume (w_id w, None)
          (set_microtasks (fun _ => []) (on_timeout (w_id w) st)).
Proof.
  intros [HI Hq] Hw Hstep. unfold step in Hstep.
  destruct (negb (alive st)); [discriminate|].
  rewrite (find_waiter_unique st w (inv_nodup st HI) Hw) in Hstep.
  destruct (w_due w <=? now st)%Z eqn:Hdue; [|discriminate].
  apply Z.leb_le in Hdue. split; [assumption|].
  injection Hstep as <-. unfold drain. st_simpl. now rewrite Hq.
Qed.

Lemma timeout_settles_null (st st' : state) (w : waiter) :
  Good st -> w ∈ listeners st ->
  step st (FetchTimeout (w_id w)) = Some st' ->
  exists rest,
    new_events st st' = Settled (w_id w) None :: rest /\
    Forall (fun e => by_continuation e = true) rest /\
    (tasks st !! (w_id w).1 = Some ViewAwaiting ->
     rest = [Responded (w_id w).1 (StatusJson 504 "File upload timeout")]).
Proof.
  intros HG Hw Hstep.
  destruct (timeout_turn st st' w HG Hw Hstep) as [_ ->].
  set (s0 := set_microtasks (fun _ => []) (on_timeout (w_id w) st)).
  assert (H0 : events s0 = events st ++ [Settled (w_id w) None]).
  { unfold s0, events. st_simpl. now rewrite map_app. }
  destruct (adds_new_events (fun e => by_continuation e = true) s0
              (resume (w_id w, None) s0)) as (rest & _ & He & Hf).
  { apply resume_adds. auto. }
  exists rest. split; [|split; [assumption|]].
  - apply new_events_app. rewrite He, H0, <- app_assoc. reflexivity.
  - intros Htask. destruct HG as [HI _].
    assert (Hidx : (w_id w).2 = 0).
    { pose proof (inv_owner st HI (w_id w) (list_elem_of_fmap_2 _ _ _ Hw)) as Ha.
      unfold awaiting in Ha. now rewrite Htask in Ha. }
    revert He. unfold resume. destruct (w_id w) as [req idx]. simpl in *.
    subst idx. change (tasks s0) with (tasks st). rewrite Htask. simpl.
    unfold events. st_simpl. rewrite map_app. intros He.
    now apply app_inv_head in He.
Qed.

Lemma timeout_deregisters (st st' : state) (w : waiter) :
  Good st -> w ∈ listeners st ->
  step st (FetchTimeout (w_id w)) = Some st' ->
  w_id w ∉ ids st'.
Proof.
  intros HG Hw Hstep.
  destruct (timeout_turn st st' w HG Hw Hstep) as [_ ->].
  intros Hin. apply resume_new_ids in Hin as [Hin|[_ Hlt]]; [|lia].
  change (ids (set_microtasks ?f ?s)) with (ids s) in Hin.
  apply (off_ids (w_id w) (w_id w) st) in Hin. easy.
Qed.

Lemma fetch_when_open (f : fetch_id) (dir name : string) (st : state) :
  socket_open st = true ->
  exists st',
    fetchFileFromAgent f dir (JStr name) st = Ok tt st' /\
    listeners st' =
      listeners st ++ [Waiter f (RequestPath.filePath dir name) (now st + 60000)] /\
    SentFile f (RequestPath.filePath dir name) ∈ new_events st st'.
Proof.
  intros Hopen. apply socket_open_OPEN in Hopen.
  unfold fetchFileFromAgent, bind, effect, agentSocket_send. st_simpl.
  rewrite Hopen. eexists. split; [reflexivity|]. split; [reflexivity|].
  erewrite new_events_app.
  2:{ unfold events. st_simpl. rewrite !map_app, <- app_assoc. reflexivity. }
  simpl. right. now left.
Qed.

(** After a timeout, a new file view is matched by a later arrival, and
    that arrival does not reach the fetch that timed out. *)
Lemma second_fetch_is_independent (st st1 st2 st3 : state) (w : waiter)
    (dir2 name2 path content : string) :
  Good st -> w ∈ listeners st ->
  step st (FetchTimeout (w_id w)) = Some st1 ->
  socket_open st1 = true ->
  step st1 (HttpFileView dir2 name2) = Some st2 ->
  stageable path = true ->
  some_rule_holds (RequestPath.filePath dir2 name2) path ->
  step st2 (AgentMessage (Some (file_message path content))) = Some st3 ->
  Settled (next_req st1, 0) (Some (staged path)) ∈ new_events st2 st3 /\
  forall v, Settled (w_id w) v ∉ new_events st2 st3.
Proof.
  intros HG Hw Hstep1 Hopen Hstep2 Hstage Hrule Hstep3.
  pose proof (timeout_deregisters st st1 w HG Hw Hstep1) as Hoff.
  assert (Hlt : (w_id w).1 < next_req st1).
  { destruct (timeout_turn st st1 w HG Hw Hstep1) as [_ ->].
    rewrite (local_next _ _ _ (resume_local (w_id w) None _)). st_simpl.
    destruct HG as [HI _]. apply (Inv_ids_lt st _ HI).
    now apply list_elem_of_fmap_2. }
  unfold step in Hstep2. destruct (negb (alive st1)); [discriminate|].
  injection Hstep2 as <-. unfold get_file_view in Hstep3 |- *.
  change (socket_open (new_request st1)) with (socket_open st1) in *.
  rewrite Hopen in *. cbn [negb] in *.
  destruct (fetch_when_open (next_req st1, 0) dir2 name2 (new_request st1) Hopen)
    as (s2 & Hfetch & Hl2 & _).
  rewrite Hfetch in *.
  set (st2 := set_task (next_req st1) ViewAwaiting s2) in *.
  set (w2 := Waiter (next_req st1, 0) (RequestPath.filePath dir2 name2)
               (now (new_request st1) + 60000)) in *.
  assert (Hl : listeners st2 = listeners st1 ++ [w2]) by exact Hl2.
  unfold step in Hstep3. destruct (negb (alive st2)); [discriminate|].
  rewrite (ws_on_message_file path content st2 Hstage) in Hstep3.
  injection Hstep3 as <-.
  set (s3 := console (LogReceivedFile (replace_separators path) path)
               (set_uploads (fun m => <[staged path := FromBase64 content]> m) st2)).
  set (fd := FileData path (staged path)).
  destruct (adds_new_events (fun e => by_continuation e = true)
              (fileEvents_emit fd s3) (drain (fileEvents_emit fd s3)))
    as (rest & _ & He & Hf).
  { apply drain_adds. auto. }
  assert (Hnew : new_events st2 (drain (fileEvents_emit fd s3)) =
                 Console (LogReceivedFile (replace_separators path) path)
                 :: flat_map (matched_events fd) (listeners st2) ++ rest).
  { apply new_events_app. rewrite He. unfold fileEvents_emit.
    rewrite emit_from_events. unfold s3 at 1, events at 1. st_simpl.
    rewrite map_app, <- !app_assoc. reflexivity. }
  rewrite Hnew. split.
  - right. apply elem_of_app. left.
    apply list_elem_of_In, settled_in_matched. split; [reflexivity|].
    exists w2. split; [|split; [reflexivity|]].
    + apply list_elem_of_In. rewrite Hl. apply elem_of_app. right. now left.
    + now apply handler_matches_spec.
  - intros v Hin. apply elem_of_cons in Hin as [Hin|Hin]; [discriminate|].
    apply elem_of_app in Hin as [Hin|Hin].
    + apply list_elem_of_In, settled_in_matched in Hin
        as (_ & w' & Hw' & Hid & _).
      apply list_elem_of_In in Hw'. rewrite Hl in Hw'.
      apply elem_of_app in Hw' as [Hw'|Hw'].
      * apply Hoff. rewrite <- Hid. now apply list_elem_of_fmap_2.
      * apply list_elem_of_singleton in Hw'. subst w'.
        rewrite <- Hid in Hlt. simpl in Hlt. lia.
    + rewrite Forall_forall in Hf. now apply Hf in Hin.
Qed.

(** C6: the waiter of a fetch is due 60 s after the call; it stays
    registered until an arrival satisfies a rule or its timer fires; the
    timer fires only once the deadline is reached, and can fire from
    then on; when it fires the promise is resolved with null (a file
    view answers 504) and the waiter is removed; a file view started
    afterwards is resolved by a later arrival that matches it, and this
    arrival does not reach the fetch that timed out. *)
Theorem fetch_times_out_at_its_deadline (st : state) (w : waiter) :
  reachable st -> w ∈ listeners st ->
  (forall s f dir name s1,
     fetchFileFromAgent f dir (JStr name) s = Ok tt s1 ->
     listeners s1 =
       listeners s ++ [Waiter f (RequestPath.filePath dir name) (now s + 60000)]) /\
  (forall i st',
     step st i = Some st' ->
     w ∈ listeners st' \/ i = FetchTimeout (w_id w) \/
     exists data path,
       i = AgentMessage (Some data) /\
       get data "path" = Some (Some (JStr path)) /\
       some_rule_holds (w_filePath w) path) /\
  (alive st = true -> (w_due w <= now st)%Z ->
   is_Some (step st (FetchTimeout (w_id w)))) /\
  (forall st1,
     step st (FetchTimeout (w_id w)) = Some st1 ->
     (w_due w <= now st)%Z /\
     (exists rest,
        new_events st st1 = Settled (w_id w) None :: rest /\
        Forall (fun e => is_settled e = false) rest /\
        (tasks st !! (w_id w).1 = Some ViewAwaiting ->
         rest = [Responded (w_id w).1 (StatusJson 504 "File upload timeout")])) /\
     (w_id w ∉ ids st1) /\
     forall dir2 name2 st2 path content st3,
       socket_open st1 = true ->
       step st1 (HttpFileView dir2 name2) = Some st2 ->
       stageable path = true ->
       some_rule_holds (RequestPath.filePath dir2 name2) path ->
       step st2 (AgentMessage (Some (file_message path content))) = Some st3 ->
       Settled (next_req st1, 0) (Some (staged path)) ∈ new_events st2 st3 /\
       forall v, Settled (w_id w) v ∉ new_events st2 st3).
Proof.
  intros Hreach Hw. pose proof (reachable_Good st Hreach) as HG.
  split; [|split; [|split]].
  - intros s f dir name s1 Hfetch.
    pose proof (fetch_control f dir (JStr name) s) as Hc.
    rewrite Hfetch in Hc. destruct Hc as (name' & Heq & Hl & _).
    now injection Heq as <-.
  - intros i st'. now apply step_keeps_waiter.
  - intros Halive Hdue. unfold step. rewrite Halive. simpl.
    destruct HG as [HI _].
    rewrite (find_waiter_unique st w (inv_nodup st HI) Hw).
    apply Z.leb_le in Hdue. rewrite Hdue. eauto.
  - intros st1 Hstep. split; [|split; [|split]].
    + now destruct (timeout_turn st st1 w HG Hw Hstep).
    + destruct (timeout_settles_null st st1 w HG Hw Hstep)
        as (rest & Hnew & Hf & Hview).
      exists rest. split; [assumption|]. split; [|assumption].
      eapply Forall_impl; [exact Hf|]. intros e He. now destruct e.
    + now apply (timeout_deregisters st).
    + intros dir2 name2 st2 path content st3.
      now apply (second_fetch_is_independent st).
Qed.

End TimeoutFacts.

(** ** The archive run *)

Module ArchiveFacts.
Import JsString JsStringFacts Spec Js Server StateFacts Invariants WaiterFacts
       StructureFacts TraceFacts OrderFacts ListingFacts TimeoutFacts
       ArchiveRun.

Lemma fetch_open_eq (f : fetch_id) (dir name : string) (st : state) :
  agentSocket st = Some OPEN ->
  fetchFileFromAgent f dir (JStr name) st =
  Ok tt (set_listeners
           (fun l => l ++ [Waiter f (RequestPath.filePath dir name)
                             (now st + 60000)])
           (add_event (SentFile f (RequestPath.filePath dir name))
              (console (LogRequestingFile (RequestPath.filePath dir name)) st))).
Proof.
  intros Hopen. unfold fetchFileFromAgent, bind, effect, agentSocket_send.
  st_simpl. now rewrite Hopen.
Qed.

Lemma fetch_broken (f : fetch_id) (dir : string) (j : json) (st : state) :
  (forall s, j <> JStr s) ->
  fetchFileFromAgent f dir j st = Throw TypeError st.
Proof. intros Hj. destruct j; try reflexivity. now destruct (Hj s). Qed.

Lemma handler_matches_refl (p : string) : Matching.handler_matches p p = true.
Proof. apply handler_matches_spec. left. now apply SpecFacts.rule_exact_iff. Qed.

Lemma staged_nonempty (p : string) : String.eqb (staged p) "" = false.
Proof.
  unfold staged, path_join_UPLOAD_DIR.
  destruct (_ || _); [reflexivity|]. destruct (String.eqb _ "..");
    reflexivity.
Qed.

Lemma zip_loop_named req dir idx name rest st :
  agentSocket st = Some OPEN ->
  zip_loop req dir idx (JStr name :: rest) st =
  waiting_for req dir idx name rest st.
Proof.
  intros Hopen. cbn [zip_loop to_string].
  now rewrite fetch_open_eq.
Qed.

Lemma answered_turn req dir idx name content rest st :
  idle st -> stageable (RequestPath.filePath dir name) = true ->
  exists st2,
    step (waiting_for req dir idx name rest st)
      (AgentMessage
         (Some (file_message (RequestPath.filePath dir name) content))) =
    Some (zip_loop req dir (S idx) rest st2) /\
    idle st2 /\
    events st2 =
      events st ++ entry_events req dir idx (Named name (Answers content)).
Proof.
  intros [Halive Hopen Hls Hq] Hstage.
  set (p := RequestPath.filePath dir name) in *.
  unfold step.
  change (alive (waiting_for req dir idx name rest st)) with (alive st).
  rewrite Halive. cbn [negb].
  rewrite (ws_on_message_file p content _ Hstage).
  unfold fileEvents_emit, waiting_for. st_simpl. rewrite Hls.
  cbn [app fold_left]. unfold handler. cbn [w_filePath fd_path w_id fd_savePath].
  fold p. rewrite handler_matches_refl.
  unfold drain. st_simpl. rewrite Hq. cbn [app fold_left].
  unfold resume. st_simpl. rewrite lookup_insert_eq, Nat.eqb_refl.
  unfold zip_settled. rewrite staged_nonempty.
  eexists. split; [reflexivity|]. split; [split|].
  - exact Halive.
  - exact Hopen.
  - st_simpl. rewrite Hls. cbn [app].
    now rewrite filter_cons_False, filter_nil by (simpl; tauto).
  - reflexivity.
  - unfold events. st_simpl. rewrite !map_app. cbn [map snd].
    rewrite <- !app_assoc. reflexivity.
Qed.

Lemma silent_turn req dir idx name rest st :
  idle st ->
  exists st2,
    run (waiting_for req dir idx name rest st)
      (entry_inputs req dir idx (Named name Silent)) =
    Some (zip_loop req dir (S idx) rest st2) /\
    idle st2 /\
    events st2 = events st ++ entry_events req dir idx (Named name Silent).
Proof.
  intros [Halive Hopen Hls Hq].
  set (p := RequestPath.filePath dir name) in *.
  cbn [run entry_inputs]. unfold step at 1.
  change (alive (waiting_for req dir idx name rest st)) with (alive st).
  rewrite Halive. cbn [negb Z.leb Z.compare].
  unfold step, find_waiter, waiting_for. st_simpl. rewrite Halive. cbn [negb].
  rewrite Hls. cbn [app find w_id].
  rewrite bool_decide_eq_true_2 by reflexivity. cbn [w_due].
  rewrite (proj2 (Z.leb_le _ _)) by lia.
  unfold drain. st_simpl. rewrite Hq. cbn [app fold_left].
  unfold resume. st_simpl. rewrite lookup_insert_eq, Nat.eqb_refl.
  unfold zip_settled.
  eexists. split; [reflexivity|]. split; [split|].
  - exact Halive.
  - exact Hopen.
  - st_simpl. rewrite Hls. cbn [app].
    now rewrite filter_cons_False, filter_nil by (simpl; tauto).
  - reflexivity.
  - unfold events. st_simpl. rewrite !map_app. cbn [map snd].
    rewrite <- !app_assoc. reflexivity.
Qed.

Lemma fetch_alive f dir file st :
  alive (outcome_state (fetchFileFromAgent f dir file st)) = alive st.
Proof.
  unfold fetchFileFromAgent. destruct file; try reflexivity.
  unfold bind, effect, agentSocket_send. st_simpl.
  now destruct (agentSocket st) as [[]|].
Qed.

(** Whatever the state, the loop passes over the entries whose fetch
    throws and stops only to wait for an entry or to close the
    archive. *)
Lemma zip_loop_goes_on req dir files :
  forall idx st,
    Forall printable files ->
    adds (fun e => by_zip_loop req e = true) st (zip_loop req dir idx files st) /\
    alive (zip_loop req dir idx files st) = alive st /\
    goes_on req dir files (zip_loop req dir idx files st).
Proof.
  induction files as [|file rest IH]; intros idx st Hp; cbn [zip_loop].
  - split; [|split].
    + adds_tac. simpl. apply Nat.eqb_refl.
    + reflexivity.
    + left. st_simpl. now rewrite lookup_insert_eq.
  - apply Forall_cons in Hp as [[shown Hshown] Hp]. rewrite Hshown.
    set (st0 := console (LogFetchingForZip shown) st).
    pose proof (fetch_adds (fun e => by_zip_loop req e = true) (req, idx) dir file
                  st0 (fun _ => eq_refl) (fun _ => Nat.eqb_refl req)) as Ha.
    pose proof (fetch_alive (req, idx) dir file st0) as Hal.
    destruct (fetchFileFromAgent _ _ _ _) as [[] st1|e st1]; simpl in Ha, Hal.
    + split; [|split].
      * adds_tac. eapply adds_trans; [|exact Ha]. unfold st0. adds_tac.
      * exact Hal.
      * right. exists [], idx, file, rest. split; [|reflexivity].
        st_simpl. now rewrite lookup_insert_eq.
    + destruct (IH (S idx)
                  (console (LogFailedToFetch shown e)
                     (add_event (Rejected (req, idx) e) st1)) Hp)
        as (Ha' & Hal' & Hgo).
      split; [|split].
      * eapply adds_trans; [|exact Ha'].
        adds_tac; [simpl; apply Nat.eqb_refl|].
        eapply adds_trans; [|exact Ha]. unfold st0. adds_tac.
      * rewrite Hal'. exact Hal.
      * destruct Hgo as [Hfin|(skipped & j & f' & rest' & Ht & ->)]; [now left|].
        right. exists (file :: skipped), j, f', rest'. now split.
Qed.

(** When the fetch an archive run waits for times out, the run goes on
    with the entries that are left. *)
Lemma timeout_goes_on (st st' : state) req dir idx file rest :
  Good st ->
  tasks st !! req = Some (ZipAwaiting dir idx file rest) ->
  Forall printable rest ->
  step st (FetchTimeout (req, idx)) = Some st' ->
  alive st' = true /\
  goes_on req dir rest st' /\
  exists more,
    new_events st st' = Settled (req, idx) None :: more /\
    Forall (fun e => by_zip_loop req e = true) more.
Proof.
  intros HG Htask Hp Hstep.
  assert (Halive : alive st = true).
  { unfold step in Hstep. now destruct (alive st). }
  assert (Hw : exists w, w ∈ listeners st /\ w_id w = (req, idx)).
  { unfold step in Hstep. rewrite Halive in Hstep. cbn [negb] in Hstep.
    destruct (find_waiter (req, idx) st) as [w|] eqn:Hf; [|discriminate].
    exists w. now apply find_waiter_Some. }
  destruct Hw as (w & Hw & Hid). rewrite <- Hid in Hstep.
  destruct (timeout_turn st st' w HG Hw Hstep) as [_ ->]. rewrite Hid.
  set (s0 := set_microtasks (fun _ => []) (on_timeout (req, idx) st)).
  unfold resume. change (tasks s0) with (tasks st). rewrite Htask, Nat.eqb_refl.
  unfold zip_settled.
  destruct (zip_loop_goes_on req dir rest (S idx) (del_task req s0) Hp)
    as (Ha & Hal & Hgo).
  split; [|split].
  - rewrite Hal. exact Halive.
  - exact Hgo.
  - apply adds_events in Ha as (more & He & Hf). exists more.
    split; [|exact Hf]. apply new_events_app. rewrite He.
    unfold s0, events. st_simpl. rewrite map_app, <- app_assoc. reflexivity.
Qed.

Lemma run_app (a b : list input) :
  forall st,
    run st (a ++ b) =
    match run st a with
    | Some s => run s b
    | None => None
    end.
Proof.
  induction a as [|i a IH]; intros st; simpl; [reflexivity|].
  destruct (step st i); [apply IH|reflexivity].
Qed.

(** From any entry on, the run takes every entry in turn and ends by
    closing the archive. *)
Lemma zip_run req dir (es : list entry) :
  forall idx st,
    idle st -> Forall (manageable dir) es ->
    exists st',
      run (zip_loop req dir idx (entry_json <$> es) st)
        (entries_inputs req dir idx es ++ [ArchiveFinalized req]) = Some st' /\
      alive st' = true /\
      tasks st' !! req = None /\
      events st' =
        events st ++ entries_events req dir idx es ++
        [ArchiveFinalize req; Console LogZipFinalized].
Proof.
  induction es as [|e es IH]; intros idx st Hidle Hman.
  - destruct Hidle as [Halive _ _ _].
    cbn [fmap list_fmap zip_loop entries_inputs entries_events app run].
    unfold step. st_simpl. rewrite Halive. cbn [negb].
    rewrite lookup_insert_eq. eexists. split; [reflexivity|].
    split; [exact Halive|]. split.
    + st_simpl. now rewrite lookup_delete_eq.
    + unfold events. st_simpl. rewrite !map_app. cbn [map snd].
      rewrite <- !app_assoc. reflexivity.
  - apply Forall_cons in Hman as [He Hman].
    rewrite fmap_cons. cbn [entries_inputs entries_events].
    rewrite <- !app_assoc, run_app.
    destruct e as [name [content|]|j]; cbn [entry_json].
    + rewrite zip_loop_named by apply (idle_socket st Hidle).
      destruct (answered_turn req dir idx name content (entry_json <$> es) st
                  Hidle He) as (st2 & Hstep & Hidle2 & Hev).
      cbn [entry_inputs run]. rewrite Hstep.
      destruct (IH (S idx) st2 Hidle2 Hman) as (st' & Hrun & Ha & Ht & Hev').
      exists st'. repeat split; try assumption.
      rewrite Hev', Hev, <- !app_assoc. reflexivity.
    + rewrite zip_loop_named by apply (idle_socket st Hidle).
      destruct (silent_turn req dir idx name (entry_json <$> es) st Hidle)
        as (st2 & Hrun2 & Hidle2 & Hev).
      rewrite Hrun2.
      destruct (IH (S idx) st2 Hidle2 Hman) as (st' & Hrun & Ha & Ht & Hev').
      exists st'. repeat split; try assumption.
      rewrite Hev', Hev, <- !app_assoc. reflexivity.
    + destruct He as [Hj [shown Hshown]].
      cbn [zip_loop entry_inputs run entry_events]. rewrite Hshown.
      rewrite fetch_broken by exact Hj.
      set (st2 := console (LogFailedToFetch shown TypeError) _).
      assert (Hidle2 : idle st2).
      { destruct Hidle as [H1 H2 H3 H4]. now split. }
      destruct (IH (S idx) st2 Hidle2 Hman) as (st' & Hrun & Ha & Ht & Hev').
      exists st'. repeat split; try assumption.
      rewrite Hev'. unfold st2, events. st_simpl.
      rewrite !map_app. cbn [map snd]. rewrite <- !app_assoc. reflexivity.
Qed.

Lemma pretty_positive_length {A} (l : list A) :
  l <> [] -> String.eqb (pretty (length l)) "0" = false.
Proof.
  intros Hl. apply String.eqb_neq. intros H.
  change "0" with (pretty 0) in H. apply (inj pretty) in H.
  now destruct l.
Qed.

Lemma no_listing_array (st : state) (dir : string) (l : list json) :
  tempDirFiles st !! dir = Some (JArr l) -> l <> [] ->
  no_listing st dir = false.
Proof.
  intros H Hl. unfold no_listing. rewrite H. simpl.
  now apply pretty_positive_length.
Qed.

Lemma archive_entries_of_run req dir (es : list entry) :
  forall idx,
    archive_entries_of req (entries_events req dir idx es) =
    expected_archive dir es.
Proof.
  induction es as [|e es IH]; intros idx; [reflexivity|].
  cbn [entries_events]. unfold archive_entries_of, expected_archive in *.
  rewrite omap_app, IH.
  destruct e as [name [content|]|j]; cbn [entry_events omap list_omap app].
  - now rewrite Nat.eqb_refl.
  - reflexivity.
  - now destruct (to_string j).
Qed.

Lemma failures_of_run req dir (es : list entry) :
  forall idx,
    failures_of (entries_events req dir idx es) = expected_failures es.
Proof.
  induction es as [|e es IH]; intros idx; [reflexivity|].
  cbn [entries_events]. unfold failures_of, expected_failures in *.
  rewrite omap_app, IH.
  destruct e as [name [content|]|j]; cbn [entry_events omap list_omap app];
    try reflexivity.
  now destruct (to_string j).
Qed.

Lemma responses_of_run req dir (es : list entry) :
  forall idx, responses_of req (entries_events req dir idx es) = [].
Proof.
  induction es as [|e es IH]; intros idx; [reflexivity|].
  cbn [entries_events]. unfold responses_of in *.
  rewrite omap_app, IH.
  destruct e as [name [content|]|j]; cbn [entry_events omap list_omap app];
    try reflexivity.
  now destruct (to_string j).
Qed.

Lemma archive_run_trace (st : state) (dir : string) (es : list entry) :
  idle st ->
  tempDirFiles st !! dir = Some (JArr (entry_json <$> es)) -> es <> [] ->
  Forall (manageable dir) es ->
  exists st',
    run st (run_inputs (next_req st) dir es) = Some st' /\
    alive st' = true /\
    tasks st' !! next_req st = None /\
    new_events st st' =
      [Console (LogStartingZip (pretty (length es)) dir);
       Responded (next_req st) (Attachment (dir +:+ ".zip"))] ++
      entries_events (next_req st) dir 0 es ++
      [ArchiveFinalize (next_req st); Console LogZipFinalized].
Proof.
  intros Hidle Hcache Hne Hman. unfold run_inputs. cbn [run].
  unfold step. rewrite (idle_alive st Hidle). cbn [negb].
  unfold get_download_all.
  change (socket_open (new_request st)) with (socket_open st).
  unfold socket_open. rewrite (idle_socket st Hidle). cbn [negb].
  change (no_listing (new_request st) dir) with (no_listing st dir).
  rewrite (no_listing_array st dir (entry_json <$> es) Hcache)
    by (now destruct es).
  change (tempDirFiles (new_request st)) with (tempDirFiles st).
  rewrite Hcache. cbn [length_of render to_string iterate].
  rewrite length_fmap.
  set (st2 := respond _ _ _).
  assert (Hidle2 : idle st2).
  { destruct Hidle as [H1 H2 H3 H4]. now split. }
  destruct (zip_run (next_req st) dir es 0 st2 Hidle2 Hman)
    as (st' & Hrun & Ha & Ht & Hev).
  exists st'. repeat split; try assumption.
  apply new_events_app. rewrite Hev. unfold st2, events. st_simpl.
  rewrite !map_app. cbn [map snd]. rewrite <- !app_assoc. reflexivity.
Qed.

(** C3, as the code has it.  In any state the loop passes over the
    entries whose fetch throws, logging each, and when the fetch it
    waits for times out it goes on with the entries that are left; it
    stops only to wait for an entry or to close the archive.  With the
    agent connected and nothing else waiting, a run over a cached
    non-empty listing adds every answered file under its base name,
    skips an entry whose fetch times out without a word on the console,
    logs and skips an entry whose fetch throws, closes the archive, and
    gives the attachment as its only response.  With files 1 and 3
    answered and file 2 never, the archive holds exactly files 1 and 3.
    All this is for entries that can be turned into a string: at an
    entry that cannot, the log line of the [try] throws, the log line
    of the [catch] throws again, and the run ends there, with nothing
    sent and the archive not closed.  An entry that can be printed
    and whose fetch throws, in whatever state, leaves its failure line
    on the console and the loop goes on. *)
Theorem archive_run_skips_failed_entries (st : state) (dir : string) :
  (forall req idx files,
     Forall printable files ->
     adds (fun e => by_zip_loop req e = true) st (zip_loop req dir idx files st) /\
     alive (zip_loop req dir idx files st) = alive st /\
     goes_on req dir files (zip_loop req dir idx files st)) /\
  (forall req idx file rest st',
     reachable st ->
     tasks st !! req = Some (ZipAwaiting dir idx file rest) ->
     Forall printable rest ->
     step st (FetchTimeout (req, idx)) = Some st' ->
     alive st' = true /\
     goes_on req dir rest st' /\
     exists more,
       new_events st st' = Settled (req, idx) None :: more /\
       Forall (fun e => by_zip_loop req e = true) more) /\
  (forall es,
     idle st ->
     tempDirFiles st !! dir = Some (JArr (entry_json <$> es)) -> es <> [] ->
     Forall (manageable dir) es ->
     exists st',
       run st (run_inputs (next_req st) dir es) = Some st' /\
       alive st' = true /\
       archive_entries_of (next_req st) (new_events st st') =
         expected_archive dir es /\
       failures_of (new_events st st') = expected_failures es /\
       responses_of (next_req st) (new_events st st') =
         [Attachment (dir +:+ ".zip")] /\
       ArchiveFinalize (next_req st) ∈ new_events st st' /\
       Console LogZipFinalized ∈ new_events st st') /\
  (forall f1 f2 f3 c1 c3,
     idle st ->
     tempDirFiles st !! dir = Some (JArr [JStr f1; JStr f2; JStr f3]) ->
     stageable (RequestPath.filePath dir f1) = true ->
     stageable (RequestPath.filePath dir f3) = true ->
     exists st',
       run st (run_inputs (next_req st) dir (one_missing f1 f2 f3 c1 c3)) =
         Some st' /\
       alive st' = true /\
       archive_entries_of (next_req st) (new_events st st') =
         [(staged (RequestPath.filePath dir f1), Path.basename f1);
          (staged (RequestPath.filePath dir f3), Path.basename f3)] /\
       failures_of (new_events st st') = [] /\
       responses_of (next_req st) (new_events st st') =
         [Attachment (dir +:+ ".zip")]) /\
  (forall req idx file rest,
     ~ printable file ->
     let st' := zip_loop req dir idx (file :: rest) st in
     new_events st st' = [Unhandled req TypeError] /\
     tasks st' = tasks st /\ listeners st' = listeners st /\
     channel st' = channel st) /\
  (forall req idx file rest shown e st1,
     Forall printable rest ->
     to_string file = Some shown ->
     fetchFileFromAgent (req, idx) dir file
       (console (LogFetchingForZip shown) st) = Throw e st1 ->
     let st' := zip_loop req dir idx (file :: rest) st in
     Console (LogFailedToFetch shown e) ∈ new_events st st' /\
     alive st' = alive st /\ goes_on req dir rest st').
Proof.
  assert (Hgen : forall es,
     idle st ->
     tempDirFiles st !! dir = Some (JArr (entry_json <$> es)) -> es <> [] ->
     Forall (manageable dir) es ->
     exists st',
       run st (run_inputs (next_req st) dir es) = Some st' /\
       alive st' = true /\
       archive_entries_of (next_req st) (new_events st st') =
         expected_archive dir es /\
       failures_of (new_events st st') = expected_failures es /\
       responses_of (next_req st) (new_events st st') =
         [Attachment (dir +:+ ".zip")] /\
       ArchiveFinalize (next_req st) ∈ new_events st st' /\
       Console LogZipFinalized ∈ new_events st st').
  { intros es Hidle Hcache Hne Hman.
    destruct (archive_run_trace st dir es Hidle Hcache Hne Hman)
      as (st' & Hrun & Ha & _ & Hnew).
    exists st'. split; [assumption|]. split; [assumption|].
    rewrite Hnew. repeat split.
    - unfold archive_entries_of. rewrite !omap_app.
      fold (archive_entries_of (next_req st)
              (entries_events (next_req st) dir 0 es)).
      rewrite archive_entries_of_run. cbn [omap list_omap app].
      now rewrite app_nil_r.
    - unfold failures_of. rewrite !omap_app.
      fold (failures_of (entries_events (next_req st) dir 0 es)).
      rewrite failures_of_run. cbn [omap list_omap app].
      now rewrite app_nil_r.
    - unfold responses_of. rewrite !omap_app.
      fold (responses_of (next_req st)
              (entries_events (next_req st) dir 0 es)).
      rewrite responses_of_run. cbn [omap list_omap app].
      now rewrite Nat.eqb_refl.
    - apply elem_of_app. right. apply elem_of_app. right. now left.
    - apply elem_of_app. right. apply elem_of_app. right. right. now left. }
  split; [|split; [|split; [exact Hgen|split; [|split]]]].
  - intros req idx files. apply zip_loop_goes_on.
  - intros req idx file rest st' Hreach.
    apply timeout_goes_on. now apply reachable_Good.
  - intros f1 f2 f3 c1 c3 Hidle Hcache H1 H3.
    destruct (Hgen (one_missing f1 f2 f3 c1 c3))
      as (st' & Hrun & Ha & Har & Hf & Hr & _).
    + exact Hidle.
    + exact Hcache.
    + discriminate.
    + repeat constructor; assumption.
    + exists st'. repeat split; assumption.
  - intros req idx file rest Hnp. cbn zeta. cbn [zip_loop].
    destruct (to_string file) as [shown|] eqn:Hshown.
    { exfalso. apply Hnp. unfold printable. rewrite Hshown. eauto. }
    assert (Hev : events (unhandled req TypeError st) =
                  events st ++ [Unhandled req TypeError]).
    { apply events_add_event. }
    split; [now apply new_events_app|]. split; [reflexivity|].
    split; [reflexivity|].
    unfold channel. rewrite Hev, omap_app. cbn [omap list_omap].
    apply app_nil_r.
  - intros req idx file rest shown e st1 Hp Hshown Hfetch. cbn zeta.
    cbn [zip_loop]. rewrite Hshown, Hfetch.
    set (s2 := console (LogFailedToFetch shown e)
                 (add_event (Rejected (req, idx) e) st1)).
    destruct (zip_loop_goes_on req dir rest (S idx) s2 Hp)
      as (Hadds & Halive & Hgo).
    pose proof (fetch_adds (fun _ => True) (req, idx) dir file
                  (console (LogFetchingForZip shown) st)
                  (fun _ => I) (fun _ => I)) as Hf.
    rewrite Hfetch in Hf. cbn [outcome_state] in Hf.
    apply adds_events in Hf as (n1 & Hn1 & _).
    apply adds_events in Hadds as (n2 & Hn2 & _).
    split; [|split; [|exact Hgo]].
    + rewrite (new_events_app st _
                 ([Console (LogFetchingForZip shown)] ++ n1 ++
                  [Rejected (req, idx) e; Console (LogFailedToFetch shown e)] ++
                  n2)).
      * apply elem_of_app. right. apply elem_of_app. right.
        apply elem_of_app. left. right. now left.
      * rewrite Hn2. unfold s2. unfold console at 1.
        rewrite !events_add_event, Hn1. unfold console.
        rewrite events_add_event, <- !app_assoc. reflexivity.
    + rewrite Halive. unfold s2. st_simpl.
      unfold fetchFileFromAgent in Hfetch.
      destruct file; try (injection Hfetch as <- <-; reflexivity).
      unfold bind, effect, agentSocket_send in Hfetch. st_simpl.
      destruct (agentSocket st) as [[]|]; try discriminate Hfetch;
        injection Hfetch as <- <-; reflexivity.
Qed.

End ArchiveFacts.

(** ** Listings, messages and staged files *)

Module RouteFacts.
Import JsString JsStringFacts Spec Js Server StateFacts Invariants WaiterFacts
       StructureFacts TraceFacts OrderFacts ListingFacts TimeoutFacts
       ArchiveRun ArchiveFacts Messages.

Lemma channel_app (st st' : state) (new : list event) :
  events st' = events st ++ new ->
  Forall (fun e => match e with SentDir _ _ | SentFile _ _ => False | _ => True end)
    new ->
  channel st' = channel st.
Proof.
  intros He Hf. unfold channel. rewrite He, omap_app.
  rewrite <- (app_nil_r (omap _ (events st))) at 2. f_equal. clear He.
  induction Hf as [|e l He' _ IH]; [reflexivity|].
  cbn [omap list_omap]. destruct e; solve [exact IH|destruct He'].
Qed.

(** C4, as the code has it: while the agent connection is open, a
    request for a directory with a cached non-empty listing is answered
    within the same turn with exactly the stored array, and nothing is
    written on the agent channel; without an open connection the answer
    is 503, the cache is not consulted, and nothing is sent either. *)
Theorem cached_listing_is_served_while_agent_is_open (st : state)
    (dir : string) (files : list json) :
  alive st = true ->
  tempDirFiles st !! dir = Some (JArr files) -> files <> [] ->
  exists st',
    step st (HttpFiles dir) = Some st' /\
    channel st' = channel st /\
    tasks st' = tasks st /\
    tempDirFiles st' = tempDirFiles st /\
    (socket_open st = true ->
     new_events st st' = [Responded (next_req st) (Json (JArr files))]) /\
    (socket_open st = false ->
     new_events st st' =
       [Responded (next_req st) (StatusJson 503 "Agent not connected")]).
Proof.
  intros Halive Hcache Hne. unfold step. rewrite Halive. cbn [negb].
  eexists. split; [reflexivity|].
  unfold get_files, files_finish.
  change (socket_open (new_request st)) with (socket_open st).
  change (no_listing (new_request st) dir) with (no_listing st dir).
  change (tempDirFiles (new_request st)) with (tempDirFiles st).
  rewrite (no_listing_array st dir files Hcache Hne), Hcache.
  destruct (socket_open st); cbn [negb].
  - split; [|split; [reflexivity|split; [reflexivity|split; [|discriminate]]]].
    + eapply channel_app; [unfold events; st_simpl; now rewrite map_app|].
      now repeat constructor.
    + intros _. apply new_events_app. unfold events. st_simpl.
      now rewrite map_app.
  - split; [|split; [reflexivity|split; [reflexivity|split; [discriminate|]]]].
    + eapply channel_app; [unfold events; st_simpl; now rewrite map_app|].
      now repeat constructor.
    + intros _. apply new_events_app. unfold events. st_simpl.
      now rewrite map_app.
Qed.

Lemma emit_from_static (fd : fileData) (ws : list waiter) :
  forall st,
    let st' := fold_left (fun s w => handler w fd s) ws st in
    agentSocket st' = agentSocket st /\ alive st' = alive st /\
    tempDirFiles st' = tempDirFiles st /\ uploads st' = uploads st.
Proof.
  induction ws as [|w ws IH]; intros st; cbn [fold_left]; [easy|].
  destruct (IH (handler w fd st)) as (-> & -> & -> & ->).
  unfold handler. destruct (Matching.handler_matches _ _); easy.
Qed.

Lemma emit_listeners_subset (fd : fileData) (st : state) (w : waiter) :
  w ∈ listeners (fileEvents_emit fd st) -> w ∈ listeners st.
Proof.
  unfold fileEvents_emit. rewrite emit_from_listeners.
  intros H. now apply list_elem_of_filter in H.
Qed.

Lemma is_literal_file_not_dir_list (type : value) :
  is_literal type "file" = true -> is_literal type "dir_list" = false.
Proof. now intros ->%is_literal_eq. Qed.

Lemma ws_on_message_well_formed (st : state) (data : json) :
  well_formed data ->
  exists st1,
    ws_on_message (Some data) st = Ok tt st1 /\
    agentSocket st1 = agentSocket st /\ alive st1 = alive st /\
    (forall w, w ∈ listeners st1 -> w ∈ listeners st) /\
    (NoDup (w_id <$> listeners st) ->
     forall w, w ∈ listeners st -> w ∉ listeners st1 ->
       exists p,
         get data "type" = Some (Some (JStr "file")) /\
         get data "path" = Some (Some (JStr p)) /\
         some_rule_holds (w_filePath w) p) /\
    (get data "type" <> Some (Some (JStr "dir_list")) ->
     tempDirFiles st1 = tempDirFiles st) /\
    (unrecognised data -> st1 = st).
Proof.
  unfold well_formed, unrecognised. intros Hwf.
  destruct (get data "type") as [type|] eqn:Htype; [|easy].
  destruct Hwf as [Hfile Hdir].
  unfold ws_on_message, bind, or_throw, ret. rewrite Htype.
  destruct (is_literal type "file") eqn:Hf.
  - destruct (Hfile eq_refl) as (p & c & Hpath & Hcontent & Hstage).
    rewrite (is_literal_file_not_dir_list type Hf).
    unfold on_file_message, bind, or_throw, ret, effect.
    rewrite Hpath, Hcontent. cbn [Buffer_from]. unfold ret.
    unfold stageable in Hstage. apply andb_true_iff in Hstage as [H1 H2].
    apply negb_true_iff in H1. apply negb_true_iff in H2.
    unfold writeFileSync, effect. rewrite H1, H2.
    set (fd := FileData p (path_join_UPLOAD_DIR (replace_separators p))).
    set (st0 := console (LogReceivedFile (replace_separators p) p)
                  (set_uploads
                     (fun m => <[path_join_UPLOAD_DIR (replace_separators p)
                                 := FromBase64 c]> m) st)).
    exists (fileEvents_emit fd st0). split; [reflexivity|].
    unfold fileEvents_emit.
    destruct (emit_from_static fd (listeners st0) st0) as (Hs & Ha & Hc & _).
    split; [exact Hs|]. split; [exact Ha|]. split; [|split; [|split]].
    + intros w Hw. now apply emit_listeners_subset in Hw.
    + intros Hnd w Hw Hout. exists p.
      split; [now rewrite (is_literal_eq type "file" Hf)|].
      split; [reflexivity|].
      apply handler_matches_spec.
      destruct (Matching.handler_matches (w_filePath w) p) eqn:Hm;
        [reflexivity|].
      exfalso. apply Hout.
      apply (emit_listeners fd st0 w Hnd). now split.
    + intros _. exact Hc.
    + intros (type' & Heq & Hnf & _). congruence.
  - destruct (is_literal type "dir_list") eqn:Hd.
    + destruct (Hdir eq_refl) as (d & names & Hdirv & Hfiles).
      unfold on_dir_list_message, bind, or_throw, ret, effect.
      rewrite Hdirv, Hfiles. cbn [render to_string length_of].
      eexists. split; [reflexivity|].
      split; [reflexivity|]. split; [reflexivity|].
      split; [easy|]. split; [|split].
      * intros _ w Hw Hout. now destruct Hout.
      * intros Hne. destruct Hne. now rewrite (is_literal_eq type "dir_list" Hd).
      * intros (type' & Heq & _ & Hnd). congruence.
    + exists st. repeat split; easy.
Qed.

(** C5, as the code has it: the handler has no guard.  A message that
    is JSON and well formed for its kind is handled without an
    exception: the connection stays, no waiter is added, a waiter goes
    only when the arrival satisfies a rule for it, the cache is touched
    by a [dir_list] message only, and a message of an unknown kind
    changes nothing.  A text that is not JSON makes the handler throw
    before anything is logged, and the exception ends the process; a
    [file] message without a path throws as well; a [dir_list] message
    without [files] throws after it has wiped the cache entry of its
    directory.  The earlier revision throws on a text that is not JSON
    in the same way. *)
Theorem message_handler_has_no_guard (st : state) :
  (forall data,
     well_formed data ->
     exists st1,
       ws_on_message (Some data) st = Ok tt st1 /\
       agentSocket st1 = agentSocket st /\ alive st1 = alive st /\
       (forall w, w ∈ listeners st1 -> w ∈ listeners st) /\
       (NoDup (w_id <$> listeners st) ->
        forall w, w ∈ listeners st -> w ∉ listeners st1 ->
          exists p,
            get data "type" = Some (Some (JStr "file")) /\
            get data "path" = Some (Some (JStr p)) /\
            some_rule_holds (w_filePath w) p) /\
       (get data "type" <> Some (Some (JStr "dir_list")) ->
        tempDirFiles st1 = tempDirFiles st) /\
       (unrecognised data -> st1 = st)) /\
  ws_on_message None st = Throw SyntaxError st /\
  (alive st = true ->
   exists st',
     step st (AgentMessage None) = Some st' /\ alive st' = false /\
     new_events st st' = [Uncaught SyntaxError]) /\
  (forall content,
     ws_on_message
       (Some (JObj [("type", JStr "file"); ("content", JStr content)])) st =
     Throw TypeError st) /\
  (forall dir,
     ws_on_message (Some (JObj [("type", JStr "dir_list"); ("dir", JStr dir)])) st =
     Throw TypeError (set_tempDirFiles (fun m => delete dir m) st)) /\
  Legacy.ws_on_message None st = Throw SyntaxError st.
Proof.
  split; [intros data; apply ws_on_message_well_formed|].
  split; [reflexivity|]. split; [|split; [|split]].
  - intros Halive. unfold step. rewrite Halive. cbn [negb].
    eexists. split; [reflexivity|]. split; [reflexivity|].
    apply new_events_app. unfold events. st_simpl. now rewrite map_app.
  - reflexivity.
  - reflexivity.
  - reflexivity.
Qed.

(** C9, as the code has it: when the send of a file view is over, the
    staged file is deleted only if the send succeeded; after a send
    that failed it is left where it is.  An error of the deletion is
    swallowed: the state is that of a missing file and the process
    lives on.  The earlier revision has the same test on the error of
    the send but lets an error of the deletion escape. *)
Theorem staged_file_is_deleted_after_a_successful_send (st : state)
    (req : nat) (savePath : string) (err : bool) :
  alive st = true ->
  tasks st !! req = Some (ViewSending savePath) ->
  exists st',
    step st (SendFileDone req err) = Some st' /\
    alive st' = true /\ new_events st st' = [] /\
    tasks st' !! req = None /\
    (err = false -> uploads st' = delete savePath (uploads st)) /\
    (err = true -> uploads st' = uploads st) /\
    (err = false -> uploads st !! savePath = None ->
     unlinkSync savePath (del_task req st) =
       Throw (FsError "ENOENT") (del_task req st) /\
     st' = del_task req st) /\
    Legacy.sendFile_callback savePath true st = Ok tt st /\
    (uploads st !! savePath = None ->
     Legacy.sendFile_callback savePath false st = Throw (FsError "ENOENT") st).
Proof.
  intros Halive Htask. unfold step. rewrite Halive, Htask. cbn [negb].
  eexists. split; [reflexivity|].
  unfold sendFile_callback, unlinkSync, Legacy.sendFile_callback.
  change (uploads (del_task req st)) with (uploads st).
  destruct err; cbn [negb].
  - repeat split; try easy.
    + apply new_events_app. unfold events. st_simpl. now rewrite app_nil_r.
    + st_simpl. now rewrite lookup_delete_eq.
    + unfold unlinkSync. now intros ->.
  - destruct (uploads st !! savePath) eqn:Hup.
    + repeat split; try easy.
      * apply new_events_app. unfold events. st_simpl. now rewrite app_nil_r.
      * st_simpl. now rewrite lookup_delete_eq.
    + repeat split; try easy.
      * apply new_events_app. unfold events. st_simpl. now rewrite app_nil_r.
      * st_simpl. now rewrite lookup_delete_eq.
      * intros _. st_simpl. symmetry. now apply delete_id.
      * unfold unlinkSync. now rewrite Hup.
Qed.

End RouteFacts.

(** ** The properties on concrete runs *)

Module RunFacts.
Import JsString Spec Js Server StateFacts Invariants WaiterFacts
       StructureFacts TraceFacts OrderFacts ListingFacts TimeoutFacts
       ArchiveRun ArchiveFacts Messages RouteFacts Runs.

Lemma reachable_after (inputs : list input) :
  is_Some (run init inputs) -> reachable (after inputs).
Proof.
  intros [st H]. exists inputs. unfold after. now rewrite H.
Defined.

(** C3 as written fails: the only file of the listing times out, the
    archive is closed, and the console has no failure line. *)
Lemma timed_out_entry_is_not_logged :
  ~ AsWritten.timed_out_entries_are_logged.
Proof.
  intros H.
  compute_eq (events (after archive_of_one_silent)) E.
  destruct (H (after archive_of_one_silent) 0 0) as (shown & e & Hin).
  - apply reachable_after. vm_compute. eauto.
  - rewrite E. apply list_elem_of_In. simpl. tauto.
  - rewrite E. apply list_elem_of_In. simpl. tauto.
  - rewrite E in Hin. apply list_elem_of_In in Hin. simpl in Hin.
    repeat (destruct Hin as [Hin|Hin]; [discriminate|]). exact Hin.
Qed.

(** C4 as written fails: the listing is cached, the agent has gone, and
    the request is answered 503. *)
Lemma cached_listing_not_served_without_agent :
  ~ AsWritten.cached_listing_is_always_served.
Proof.
  intros H.
  assert (Hstep : step agent_gone (HttpFiles "/sdcard/dl") = Some agent_gone_asked)
    by (vm_compute; reflexivity).
  compute_eq (new_events agent_gone agent_gone_asked) E.
  destruct (H agent_gone "/sdcard/dl" [JStr "a.jpg"; JStr "b.jpg"])
    as (st' & Hstep' & Hnew).
  - apply reachable_after. vm_compute. eauto.
  - vm_compute. reflexivity.
  - vm_compute. reflexivity.
  - discriminate.
  - rewrite Hstep in Hstep'. injection Hstep' as <-.
    rewrite E in Hnew. discriminate.
Qed.

(** C5 as written fails: the agent is connected, sends a text that is
    not JSON, and the process ends. *)
Lemma non_json_message_ends_the_process :
  ~ AsWritten.malformed_messages_are_dropped.
Proof.
  intros H.
  assert (Hstep : step agent_connected (AgentMessage None) = Some after_garbage)
    by (vm_compute; reflexivity).
  assert (Hdead : alive after_garbage = false) by (vm_compute; reflexivity).
  destruct (H agent_connected) as (st' & Hstep' & Halive & _).
  - apply reachable_after. vm_compute. eauto.
  - vm_compute. reflexivity.
  - vm_compute. reflexivity.
  - rewrite Hstep in Hstep'. injection Hstep' as <-. congruence.
Qed.

(** C9 as written fails: after a send that failed, the staged file is
    still there. *)
Lemma staged_file_survives_a_failed_send :
  ~ AsWritten.staged_file_is_always_deleted.
Proof.
  intros H.
  assert (H1 : tasks view_sending !! 0 = Some (ViewSending "uploads/d_f.txt"))
    by (vm_compute; reflexivity).
  assert (H2 : step view_sending (SendFileDone 0 true) = Some view_send_failed)
    by (vm_compute; reflexivity).
  assert (H3 : uploads view_send_failed !! "uploads/d_f.txt" =
               Some (FromBase64 "QQ=="))
    by (vm_compute; reflexivity).
  specialize (H view_sending 0 "uploads/d_f.txt" true view_send_failed H1 H2).
  congruence.
Qed.


Lemma archive_fetches_are_sequential_witness :
  reachable archive_done /\
  forall w w', w ∈ listeners archive_done -> w' ∈ listeners archive_done ->
               (w_id w).1 = (w_id w').1 -> w = w'.
Proof.
  assert (H : reachable archive_done).
  { apply reachable_after. vm_compute. eauto. }
  split; [exact H|].
  exact (proj2 (archive_fetches_are_sequential archive_done H)).
Defined.

Lemma archive_run_skips_failed_entries_witness :
  idle listing_pushed /\
  exists st',
    run listing_pushed
      (run_inputs (next_req listing_pushed) "/sdcard/dl"
         (one_missing "a.jpg" "b.jpg" "c.jpg" "QQ==" "QQ==")) = Some st' /\
    archive_entries_of (next_req listing_pushed) (new_events listing_pushed st') =
      [(staged (RequestPath.filePath "/sdcard/dl" "a.jpg"), Path.basename "a.jpg");
       (staged (RequestPath.filePath "/sdcard/dl" "c.jpg"), Path.basename "c.jpg")].
Proof.
  assert (H : idle listing_pushed).
  { split; vm_compute; reflexivity. }
  split; [exact H|].
  destruct (proj1 (proj2 (proj2 (proj2 (archive_run_skips_failed_entries
                                          listing_pushed "/sdcard/dl"))))
              "a.jpg" "b.jpg" "c.jpg" "QQ==" "QQ==" H)
    as (st' & Hrun & _ & Hentries & _).
  - vm_compute. reflexivity.
  - vm_compute. reflexivity.
  - vm_compute. reflexivity.
  - exists st'. split; [exact Hrun|]. exact Hentries.
Defined.

Lemma cached_listing_is_served_while_agent_is_open_witness :
  alive listing_pushed = true /\
  tempDirFiles listing_pushed !! "/sdcard/dl" =
    Some (JArr [JStr "a.jpg"; JStr "b.jpg"; JStr "c.jpg"]) /\
  exists st',
    step listing_pushed (HttpFiles "/sdcard/dl") = Some st' /\
    channel st' = channel listing_pushed.
Proof.
  assert (H1 : alive listing_pushed = true) by (vm_compute; reflexivity).
  assert (H2 : tempDirFiles listing_pushed !! "/sdcard/dl" =
               Some (JArr [JStr "a.jpg"; JStr "b.jpg"; JStr "c.jpg"]))
    by (vm_compute; reflexivity).
  split; [exact H1|]. split; [exact H2|].
  destruct (cached_listing_is_served_while_agent_is_open listing_pushed
              "/sdcard/dl" [JStr "a.jpg"; JStr "b.jpg"; JStr "c.jpg"] H1 H2)
    as (st' & Hstep & Hch & _).
  - discriminate.
  - exists st'. split; [exact Hstep|exact Hch].
Defined.

Lemma fetch_times_out_at_its_deadline_witness :
  reachable one_view_overdue /\
  the_waiter ∈ listeners one_view_overdue /\
  is_Some (step one_view_overdue (FetchTimeout (0, 0))).
Proof.
  assert (H1 : reachable one_view_overdue).
  { apply reachable_after. vm_compute. eauto. }
  assert (H2 : the_waiter ∈ listeners one_view_overdue).
  { vm_compute. left. }
  split; [exact H1|]. split; [exact H2|].
  apply (proj1 (proj2 (proj2 (fetch_times_out_at_its_deadline one_view_overdue
                                the_waiter H1 H2)))).
  - vm_compute. reflexivity.
  - vm_compute. discriminate.
Defined.


Lemma staged_file_is_deleted_after_a_successful_send_witness :
  alive view_sending = true /\
  tasks view_sending !! 0 = Some (ViewSending "uploads/d_f.txt") /\
  exists st',
    step view_sending (SendFileDone 0 false) = Some st' /\
    uploads st' = delete "uploads/d_f.txt" (uploads view_sending).
Proof.
  assert (H1 : alive view_sending = true) by (vm_compute; reflexivity).
  assert (H2 : tasks view_sending !! 0 = Some (ViewSending "uploads/d_f.txt"))
    by (vm_compute; reflexivity).
  split; [exact H1|]. split; [exact H2|].
  destruct (staged_file_is_deleted_after_a_successful_send view_sending 0
              "uploads/d_f.txt" false H1 H2)
    as (st' & Hstep & _ & _ & _ & Hdel & _).
  exists st'. split; [exact Hstep|]. now apply Hdel.
Defined.

Lemma message_handler_has_no_guard_witness :
  well_formed (file_message "d/f.txt" "QQ==") /\
  exists st1,
    ws_on_message (Some (file_message "d/f.txt" "QQ==")) one_view = Ok tt st1 /\
    alive st1 = alive one_view.
Proof.
  assert (H : well_formed (file_message "d/f.txt" "QQ==")).
  { split; [|discriminate]. intros _. exists "d/f.txt", "QQ==".
    repeat split. }
  split; [exact H|].
  destruct (proj1 (message_handler_has_no_guard one_view)
              (file_message "d/f.txt" "QQ==") H)
    as (st1 & Hrun & _ & Halive & _).
  exists st1. split; [exact Hrun|exact Halive].
Defined.

End RunFacts.

(** ** Laws of the loose matching *)

Module MatchingLaws.
Import JsString JsStringFacts Matching RequestPath Slashes.

Lemma replace_backslashes_app (a b : string) :
  replace_backslashes (a +:+ b) = replace_backslashes a +:+ replace_backslashes b.
Proof.
  unfold replace_backslashes. now rewrite chars_app, map_app, str_app.
Qed.

Lemma replace_backslashes_idem (s : string) :
  replace_backslashes (replace_backslashes s) = replace_backslashes s.
Proof.
  unfold replace_backslashes. rewrite chars_str, map_map. f_equal.
  apply map_ext. intros c. destruct (is_backslash c) eqn:Hc; [reflexivity|].
  now rewrite Hc.
Qed.

Lemma append_assoc (a b c : string) : (a +:+ b) +:+ c = a +:+ (b +:+ c).
Proof. apply chars_inj. now rewrite !chars_app, app_assoc. Qed.

Lemma replace_backslashes_same (s t : string) :
  same_up_to_slashes s t -> replace_backslashes s = replace_backslashes t.
Proof.
  induction 1 as [|c d s t Hc Hd _ IH|c s t _ IH]; [reflexivity| |].
  - rewrite !SpecFacts.replace_backslashes_cons, IH.
    destruct Hc as [-> | ->], Hd as [-> | ->]; reflexivity.
  - now rewrite !SpecFacts.replace_backslashes_cons, IH.
Qed.

(** X1: the test of the handler is reflexive and symmetric, and it does not
    see which of the two slashes a path is written with: two requested
    paths that differ only in their slashes match the same arrivals,
    and two arrived paths that differ only in their slashes are matched
    by the same requests. *)
Theorem handler_matches_laws (P Q P' Q' : string) :
  same_up_to_slashes P P' -> same_up_to_slashes Q Q' ->
  handler_matches P P = true /\
  handler_matches P P' = true /\
  handler_matches P Q = handler_matches Q P /\
  handler_matches P Q = handler_matches P' Q'.
Proof.
  intros HP HQ.
  apply replace_backslashes_same in HP, HQ.
  split; [|split; [|split]].
  - unfold handler_matches, loose_match. now rewrite String.eqb_refl.
  - unfold handler_matches, loose_match. now rewrite HP, String.eqb_refl.
  - unfold handler_matches, loose_match.
    rewrite (String.eqb_sym (replace_backslashes P)).
    rewrite (String.eqb_sym (Path.basename (replace_backslashes P))).
    destruct (String.eqb _ _), (endsWith _ _), (endsWith _ _), (String.eqb _ _);
      reflexivity.
  - unfold handler_matches. now rewrite HP, HQ.
Qed.

(** X2: the agent may answer a request under the logical path it was asked
    for or under the bare file name: the handler accepts both. *)
Theorem requested_path_and_bare_name_match (dir filename : string) :
  handler_matches (filePath dir filename) (filePath dir filename) = true /\
  handler_matches (filePath dir filename) filename = true.
Proof.
  split.
  - unfold handler_matches, loose_match. now rewrite String.eqb_refl.
  - unfold handler_matches, loose_match.
    assert (H : endsWith (replace_backslashes (filePath dir filename))
                  (replace_backslashes filename) = true).
    { apply endsWith_spec. unfold filePath.
      destruct (looks_absolute filename).
      - exists "". now rewrite app_nil_l.
      - exists (replace_backslashes (strip_trailing_separator dir) +:+
                replace_backslashes "/").
        now rewrite !replace_backslashes_app, append_assoc. }
    rewrite H. now rewrite !orb_true_r.
Qed.

End MatchingLaws.

(** ** What the handlers leave alone *)

Module FrameFacts.
Import Js Server StateFacts Invariants StructureFacts Frames.

Lemma keeps_store_refl (st : state) : keeps_store st st.
Proof. now repeat split. Qed.

Lemma keeps_store_trans (st st1 st2 : state) :
  keeps_store st st1 -> keeps_store st1 st2 -> keeps_store st st2.
Proof.
  intros (H1 & H2 & H3 & H4) (K1 & K2 & K3 & K4).
  repeat split; congruence.
Qed.

Ltac keeps_tac :=
  unfold console, respond, unhandled, set_task, del_task, fileEvents_off,
    new_request, resolve, on_timeout, add_event;
  first [ apply keeps_store_refl | now repeat split ].

Lemma fetch_keeps f dir file st :
  keeps_store st (outcome_state (fetchFileFromAgent f dir file st)).
Proof.
  unfold fetchFileFromAgent. destruct file; try apply keeps_store_refl.
  unfold bind, effect, agentSocket_send.
  destruct (agentSocket _) as [[]|] eqn:Hs; simpl; now repeat split.
Qed.

Lemma zip_loop_keeps req dir files :
  forall idx st, keeps_store st (zip_loop req dir idx files st).
Proof.
  induction files as [|file rest IH]; intros idx st; simpl.
  - keeps_tac.
  - destruct (to_string file) as [shown|]; [|keeps_tac].
    pose proof (fetch_keeps (req, idx) dir file
                  (console (LogFetchingForZip shown) st)) as Hf.
    destruct (fetchFileFromAgent _ _ _ _) as [[] st1|e st1]; simpl in Hf.
    + eapply keeps_store_trans; [|eapply keeps_store_trans; [exact Hf|]];
        keeps_tac.
    + eapply keeps_store_trans; [|apply IH].
      eapply keeps_store_trans; [|eapply keeps_store_trans; [exact Hf|]];
        keeps_tac.
Qed.

Lemma zip_settled_keeps req dir idx file rest v st :
  keeps_store st (zip_settled req dir idx file rest v st).
Proof.
  unfold zip_settled. eapply keeps_store_trans; [|apply zip_loop_keeps].
  destruct v as [p|]; [|keeps_tac].
  destruct (String.eqb p ""); [keeps_tac|].
  destruct file; try (destruct (to_string _)); keeps_tac.
Qed.

Lemma view_settled_keeps req v st : keeps_store st (view_settled req v st).
Proof.
  unfold view_settled.
  destruct v as [p|];
    [destruct (String.eqb p ""); [|destruct (send_refused p)]|];
    cbn [sendFile_callback negb]; keeps_tac.
Qed.

Lemma resume_keeps m st : keeps_store st (resume m st).
Proof.
  destruct m as [[req idx] v]. unfold resume.
  destruct (tasks st !! req) as [[]|]; try apply keeps_store_refl.
  - destruct (Nat.eqb idx 0); [|apply keeps_store_refl].
    eapply keeps_store_trans; [|apply view_settled_keeps]. keeps_tac.
  - destruct (Nat.eqb idx idx0); [|apply keeps_store_refl].
    eapply keeps_store_trans; [|apply zip_settled_keeps]. keeps_tac.
Qed.

Lemma drain_from_keeps q :
  forall st, keeps_store st (fold_left (fun s m => resume m s) q st).
Proof.
  induction q as [|m q IH]; intros st; cbn [fold_left].
  - apply keeps_store_refl.
  - eapply keeps_store_trans; [apply resume_keeps|apply IH].
Qed.

Lemma drain_keeps st : keeps_store st (drain st).
Proof.
  unfold drain. eapply keeps_store_trans; [|apply drain_from_keeps].
  now repeat split.
Qed.

Lemma handler_keeps w fd st : keeps_store st (handler w fd st).
Proof. unfold handler. destruct (Matching.handler_matches _ _); keeps_tac. Qed.

Lemma emit_from_keeps fd ws :
  forall st, keeps_store st (fold_left (fun s w => handler w fd s) ws st).
Proof.
  induction ws as [|w ws IH]; intros st; cbn [fold_left].
  - apply keeps_store_refl.
  - eapply keeps_store_trans; [apply handler_keeps|apply IH].
Qed.

Lemma emit_keeps fd st : keeps_store st (fileEvents_emit fd st).
Proof. apply emit_from_keeps. Qed.

Lemma files_finish_keeps req dir st : keeps_store st (files_finish req dir st).
Proof.
  unfold files_finish. destruct (no_listing st dir); [keeps_tac|].
  destruct (tempDirFiles st !! dir); keeps_tac.
Qed.

Lemma files_poll_keeps req dir timeout st :
  keeps_store st (files_poll req dir timeout st).
Proof.
  unfold files_poll. destruct (_ && _); [keeps_tac|apply files_finish_keeps].
Qed.

Lemma get_files_keeps req dir st : keeps_store st (get_files req dir st).
Proof.
  unfold get_files. destruct (negb (socket_open st)); [keeps_tac|].
  destruct (no_listing st dir); [|apply files_finish_keeps].
  unfold agentSocket_send. destruct (agentSocket st) as [[]|]; try keeps_tac.
  - eapply keeps_store_trans; [|apply files_poll_keeps]. keeps_tac.
  - eapply keeps_store_trans; [|apply files_poll_keeps]. keeps_tac.
  - eapply keeps_store_trans; [|apply files_poll_keeps]. keeps_tac.
Qed.

Lemma get_file_view_keeps req dir filename st :
  keeps_store st (get_file_view req dir filename st).
Proof.
  unfold get_file_view. destruct (negb (socket_open st)); [keeps_tac|].
  pose proof (fetch_keeps (req, 0) dir (JStr filename) st) as Hf.
  destruct (fetchFileFromAgent _ _ _ _) as [[] st1|e st1]; simpl in Hf;
    (eapply keeps_store_trans; [exact Hf|]); keeps_tac.
Qed.

Lemma get_download_all_keeps req dir st :
  keeps_store st (get_download_all req dir st).
Proof.
  unfold get_download_all. destruct (negb (socket_open st)); [keeps_tac|].
  destruct (no_listing st dir); [keeps_tac|].
  destruct (tempDirFiles st !! dir) as [files|]; [|keeps_tac].
  destruct (render _); [|keeps_tac].
  destruct (iterate files); [|keeps_tac].
  eapply keeps_store_trans; [|apply zip_loop_keeps]. keeps_tac.
Qed.

End FrameFacts.

(** ** The file store and the listing cache over a run *)

Module StoreFacts.
Import JsString JsStringFacts Js Server StateFacts Invariants StructureFacts
  Frames FrameFacts Staging.

Lemma replace_separators_no_sep (p : string) :
  Forall (fun c => is_sep c = false) (chars (replace_separators p)).
Proof.
  unfold replace_separators. rewrite chars_str. apply Forall_forall.
  intros c Hc. apply list_elem_of_fmap in Hc as (x & -> & _).
  destruct (is_sep x) eqn:Hx; [reflexivity|exact Hx].
Qed.

(** A write of the message handler that succeeds lands directly inside
    the upload directory. *)
Lemma write_lands_inside (p : string) (buffer : payload) (st st1 : state) :
  writeFileSync (path_join_UPLOAD_DIR (replace_separators p)) buffer st =
    Ok tt st1 ->
  inside_UPLOAD_DIR (path_join_UPLOAD_DIR (replace_separators p)).
Proof.
  unfold path_join_UPLOAD_DIR.
  destruct (String.eqb (replace_separators p) "") eqn:H1;
    [unfold writeFileSync; now rewrite String.eqb_refl|].
  destruct (String.eqb (replace_separators p) ".") eqn:H2;
    [unfold writeFileSync; now rewrite String.eqb_refl|].
  cbn [orb].
  destruct (String.eqb (replace_separators p) "..") eqn:H3;
    [unfold writeFileSync; now rewrite String.eqb_refl, orb_true_r|].
  intros _. exists (replace_separators p). split; [reflexivity|].
  apply String.eqb_neq in H1, H2, H3.
  repeat split; try assumption. apply replace_separators_no_sep.
Qed.

(** How one turn of the event loop changes the file store and the
    cache. *)
Lemma step_store (st st' : state) (i : input) :
  step st i = Some st' ->
  match i with
  | AgentMessage _ =>
      uploads st' = uploads st \/
      exists p buffer,
        inside_UPLOAD_DIR (staged p) /\
        uploads st' = <[staged p := buffer]> (uploads st)
  | SendFileDone req err =>
      tempDirFiles st' = tempDirFiles st /\
      (uploads st' = uploads st \/
       exists savePath,
         tasks st !! req = Some (ViewSending savePath) /\ err = false /\
         uploads st' = delete savePath (uploads st))
  | _ => tempDirFiles st' = tempDirFiles st /\ uploads st' = uploads st
  end.
Proof.
  intros Hstep. unfold step in Hstep.
  destruct (negb (alive st)); [discriminate|].
  destruct i.
  - destruct (0 <=? dt)%Z; [|discriminate]. now injection Hstep as <-.
  - now injection Hstep as <-.
  - destruct (agentSocket st); [|discriminate]. now injection Hstep as <-.
  - now injection Hstep as <-.
  - pose proof (ws_on_message_cases message st) as Hc.
    destruct (ws_on_message message st) as [[] st1|e st1];
      injection Hstep as <-.
    + destruct (drain_keeps st1) as (-> & _).
      destruct Hc as [(data & p & b & _ & _ & _ & Hw & ->)|
                      [(data & key & listing & count & _ & _ & _ & ->)| ->]].
      * right. exists p, b. split; [now apply write_lands_inside in Hw|].
        now destruct (emit_keeps
                        (FileData p (path_join_UPLOAD_DIR (replace_separators p)))
                        (console (LogReceivedFile (replace_separators p) p)
                           (set_uploads
                              (fun m => <[path_join_UPLOAD_DIR
                                            (replace_separators p) := b]> m) st)))
          as (-> & _).
      * now left.
      * now left.
    + left. now destruct Hc as [->|[f ->]].
  - destruct (find_waiter f st) as [w|]; [|discriminate].
    destruct (w_due w <=? now st)%Z; [|discriminate]. injection Hstep as <-.
    now destruct (drain_keeps (on_timeout f st)) as (-> & -> & _).
  - destruct (tasks st !! req) as [[]|]; try discriminate.
    destruct (wake <=? now st)%Z; [|discriminate]. injection Hstep as <-.
    now destruct (files_poll_keeps req dir timeout (del_task req st))
      as (-> & -> & _).
  - injection Hstep as <-.
    now destruct (get_files_keeps (next_req st) dir (new_request st))
      as (-> & -> & _).
  - injection Hstep as <-.
    now destruct (get_file_view_keeps (next_req st) dir filename (new_request st))
      as (-> & -> & _).
  - injection Hstep as <-.
    now destruct (get_download_all_keeps (next_req st) dir (new_request st))
      as (-> & -> & _).
  - destruct (tasks st !! req) as [[]|] eqn:Ht; try discriminate.
    injection Hstep as <-. unfold sendFile_callback.
    destruct err; cbn [negb]; [now split; [|left]|].
    unfold unlinkSync. st_simpl.
    destruct (uploads st !! savePath); [|now split; [|left]].
    split; [reflexivity|]. right. now exists savePath.
  - destruct (tasks st !! req) as [[]|]; try discriminate.
    now injection Hstep as <-.
Qed.

(** X3: every staged file lies directly inside the upload directory: the
    name under which an arrival is written is one path segment, whatever
    path the agent sends. *)
Theorem staged_files_stay_inside_UPLOAD_DIR (st : state) (savePath : string) :
  reachable st -> is_Some (uploads st !! savePath) ->
  inside_UPLOAD_DIR savePath.
Proof.
  intros [inputs Hrun]. revert savePath.
  assert (H0 : forall k, is_Some (uploads init !! k) -> inside_UPLOAD_DIR k).
  { intros k [v Hv]. change (uploads init) with (∅ : gmap string payload) in Hv.
    now rewrite lookup_empty in Hv. }
  revert Hrun H0. generalize init as s.
  induction inputs as [|i rest IH]; intros s Hrun H0; simpl in Hrun.
  - now injection Hrun as <-.
  - destruct (step s i) as [s1|] eqn:Hs; [|discriminate].
    apply (IH s1 Hrun). intros k Hk.
    pose proof (step_store s s1 i Hs) as Hst.
    assert (Hcases : uploads s1 = uploads s \/
              (exists p b, inside_UPLOAD_DIR (staged p) /\
                           uploads s1 = <[staged p := b]> (uploads s)) \/
              exists q, uploads s1 = delete q (uploads s)).
    { destruct i; try (left; apply Hst).
      - destruct Hst as [?|?]; [now left|now right; left].
      - destruct Hst as [_ [?|(q & _ & _ & ?)]]; [now left|right; right; eauto]. }
    destruct Hcases as [Heq|[(p & b & Hin & Heq)|(q & Heq)]]; rewrite Heq in Hk.
    + now apply H0.
    + destruct (decide (staged p = k)) as [<-|Hne]; [exact Hin|].
      rewrite lookup_insert_ne in Hk by exact Hne. now apply H0.
    + destruct (decide (q = k)) as [<-|Hne].
      * rewrite lookup_delete_eq in Hk. now destruct Hk.
      * rewrite lookup_delete_ne in Hk by exact Hne. now apply H0.
Qed.

(** X4: the cache is changed by agent messages only: no request, timer or
    change of the connection drops or alters a cached listing. *)
Theorem cache_is_changed_by_messages_only (st st' : state)
    (inputs : list input) :
  run st inputs = Some st' ->
  Forall (fun i => forall m, i <> AgentMessage m) inputs ->
  tempDirFiles st' = tempDirFiles st.
Proof.
  revert st. induction inputs as [|i rest IH]; intros st Hrun Hall;
    simpl in Hrun.
  - now injection Hrun as <-.
  - destruct (step st i) as [s1|] eqn:Hs; [|discriminate].
    apply Forall_cons in Hall as [Hi Hall].
    rewrite (IH s1 Hrun Hall).
    pose proof (step_store st s1 i Hs) as Hst.
    destruct i; try apply Hst. now destruct (Hi message).
Qed.

(** X5: a staged file goes away in one way only: as the deletion that
    follows the successful send of a file view of that very file.  The
    archive route never deletes what it has staged. *)
Theorem staged_file_goes_only_after_its_view (st st' : state) (i : input)
    (savePath : string) :
  step st i = Some st' ->
  is_Some (uploads st !! savePath) -> uploads st' !! savePath = None ->
  exists req, i = SendFileDone req false /\
              tasks st !! req = Some (ViewSending savePath).
Proof.
  intros Hstep [v Hv] Hgone.
  pose proof (step_store st st' i Hstep) as Hst.
  assert (Hsame : uploads st' = uploads st -> False).
  { intros Heq. rewrite Heq, Hv in Hgone. discriminate. }
  destruct i; try (now destruct Hst as [_ Heq]; destruct (Hsame Heq)).
  - destruct Hst as [Heq|(p & b & _ & Heq)]; [now destruct (Hsame Heq)|].
    rewrite Heq in Hgone.
    destruct (decide (staged p = savePath)) as [<-|Hne].
    + now rewrite lookup_insert_eq in Hgone.
    + rewrite lookup_insert_ne, Hv in Hgone by exact Hne. discriminate.
  - destruct Hst as [_ [Heq|(q & Ht & -> & Heq)]]; [now destruct (Hsame Heq)|].
    exists req. split; [reflexivity|].
    destruct (decide (q = savePath)) as [<-|Hne]; [exact Ht|].
    rewrite Heq, lookup_delete_ne, Hv in Hgone by exact Hne. discriminate.
Qed.

End StoreFacts.

(** ** The listing route, from push to answer *)

Module ListingRouteFacts.
Import JsString Js Server StateFacts Invariants StructureFacts TraceFacts
  ListingFacts ArchiveFacts RouteFacts Pushes.

Lemma ws_on_message_listing (dir : string) (items : list json) (st : state) :
  ws_on_message (Some (listing_message dir items)) st =
  Ok tt (console (LogReceivedFiles dir (pretty (length items)))
           (set_tempDirFiles (fun m => <[dir := JArr items]> m) st)).
Proof.
  unfold ws_on_message, listing_message, bind, or_throw, ret.
  cbn [get own_property String.eqb Ascii.eqb Bool.eqb is_literal].
  unfold on_dir_list_message, bind, or_throw, ret, effect.
  cbn [get own_property String.eqb Ascii.eqb Bool.eqb render to_string
       length_of].
  reflexivity.
Qed.

(** The state after the push of a listing, in a state between two
    turns. *)
Lemma push_turn (dir : string) (items : list json) (st : state) :
  Good st -> alive st = true ->
  step st (AgentMessage (Some (listing_message dir items))) =
  Some (set_microtasks (fun _ => [])
          (console (LogReceivedFiles dir (pretty (length items)))
             (set_tempDirFiles (fun m => <[dir := JArr items]> m) st))).
Proof.
  intros [_ Hq] Halive. unfold step. rewrite Halive. cbn [negb].
  rewrite ws_on_message_listing. f_equal. now apply drain_nothing.
Qed.

Lemma no_events_channel (st st' : state) :
  events st' = events st -> channel st' = channel st.
Proof. unfold channel. now intros ->. Qed.

Lemma one_event_channel (st st' : state) (e : event) :
  events st' = events st ++ [e] ->
  match e with SentDir _ _ | SentFile _ _ => False | _ => True end ->
  channel st' = channel st.
Proof.
  intros He Hq. eapply channel_app; [exact He|]. now repeat constructor.
Qed.

(** X6: a pushed listing is what [/files/:dir] returns next: the array as
    it came, whatever its items are and whatever was cached before, and
    without a word to the agent. *)
Theorem pushed_listing_is_returned_as_it_came (st : state) (dir : string)
    (items : list json) :
  reachable st -> alive st = true -> socket_open st = true -> items <> [] ->
  exists st1 st2,
    step st (AgentMessage (Some (listing_message dir items))) = Some st1 /\
    tempDirFiles st1 = <[dir := JArr items]> (tempDirFiles st) /\
    step st1 (HttpFiles dir) = Some st2 /\
    new_events st1 st2 = [Responded (next_req st) (Json (JArr items))] /\
    channel st2 = channel st.
Proof.
  intros Hreach Halive Hopen Hne.
  pose proof (push_turn dir items st (reachable_Good st Hreach) Halive) as H1.
  set (st1 := set_microtasks _ _) in H1.
  exists st1, (get_files (next_req st1) dir (new_request st1)).
  split; [exact H1|]. split; [reflexivity|].
  assert (Hcache : tempDirFiles st1 !! dir = Some (JArr items)).
  { unfold st1. st_simpl. apply lookup_insert_eq. }
  unfold step. change (alive st1) with (alive st). rewrite Halive. cbn [negb].
  split; [reflexivity|].
  unfold get_files, files_finish.
  change (socket_open (new_request st1)) with (socket_open st).
  change (no_listing (new_request st1) dir) with (no_listing st1 dir).
  change (tempDirFiles (new_request st1)) with (tempDirFiles st1).
  rewrite Hopen, (no_listing_array st1 dir items Hcache Hne), Hcache.
  cbn [negb]. split.
  - apply new_events_app. unfold events. st_simpl. now rewrite map_app.
  - transitivity (channel st1).
    + eapply one_event_channel;
        [unfold events; st_simpl; now rewrite map_app|exact I].
    + eapply one_event_channel;
        [unfold st1, events; st_simpl; now rewrite map_app|exact I].
Qed.

(** X7: a listing that arrives while a request waits for it is returned at
    the next wake-up of that request, however late that is: the deadline
    only ends the wait while there is still no listing. *)
Theorem awaited_listing_is_returned_at_next_wake (st : state) (req : nat)
    (dir : string) (timeout wake : Z) (items : list json) (dt : Z) :
  reachable st -> alive st = true ->
  tasks st !! req = Some (FilesPolling dir timeout wake) ->
  items <> [] -> (0 <= dt)%Z -> (wake <= now st + dt)%Z ->
  exists st1 st2,
    run st [AgentMessage (Some (listing_message dir items)); Tick dt] =
      Some st1 /\
    step st1 (PollWake req) = Some st2 /\
    new_events st1 st2 = [Responded req (Json (JArr items))] /\
    tasks st2 !! req = None /\
    channel st2 = channel st.
Proof.
  intros Hreach Halive Htask Hne Hdt Hwake.
  pose proof (push_turn dir items st (reachable_Good st Hreach) Halive) as H1.
  set (st0 := set_microtasks _ _) in H1.
  set (st1 := set_now (fun t => (t + dt)%Z) st0).
  exists st1, (files_poll req dir timeout (del_task req st1)).
  split.
  { cbn [run]. rewrite H1. unfold step.
    change (alive st0) with (alive st). rewrite Halive. cbn [negb].
    apply Z.leb_le in Hdt. now rewrite Hdt. }
  assert (Hcache : tempDirFiles (del_task req st1) !! dir = Some (JArr items)).
  { unfold st1, st0. st_simpl. apply lookup_insert_eq. }
  unfold step. change (alive st1) with (alive st). rewrite Halive. cbn [negb].
  change (tasks st1) with (tasks st). rewrite Htask.
  change (now st1) with (now st + dt)%Z.
  apply Z.leb_le in Hwake. rewrite Hwake.
  split; [reflexivity|].
  unfold files_poll, files_finish.
  rewrite (no_listing_array _ dir items Hcache Hne), Hcache. cbn [andb].
  split; [|split].
  - apply new_events_app. unfold events. st_simpl. now rewrite map_app.
  - st_simpl. apply lookup_delete_eq.
  - transitivity (channel st1).
    + eapply one_event_channel;
        [unfold events; st_simpl; now rewrite map_app|exact I].
    + eapply one_event_channel;
        [unfold st1, st0, events; st_simpl; now rewrite map_app|exact I].
Qed.

(** X8: a request that cannot be served is refused at once and leaves no
    trace but its answer: 503 on each of the three routes when no agent
    connection is open, and 400 on [/download-all/:dir] when the cache
    holds an empty listing for the directory, or holds none and the
    lookup finds nothing inherited in its place; the route never asks
    the agent for a listing. *)
Theorem refused_requests_change_nothing (st : state) (dir filename : string) :
  alive st = true ->
  (socket_open st = false ->
   forall i, i ∈ agent_routes dir filename ->
     exists st',
       step st i = Some st' /\
       new_events st st' = [Responded (next_req st) not_connected] /\
       listeners st' = listeners st /\ tasks st' = tasks st /\
       channel st' = channel st) /\
  (socket_open st = true ->
   (tempDirFiles st !! dir = None /\ own_lookup st dir) \/
   tempDirFiles st !! dir = Some (JArr []) ->
   exists st',
     step st (HttpDownloadAll dir) = Some st' /\
     new_events st st' = [Responded (next_req st) not_loaded] /\
     listeners st' = listeners st /\ tasks st' = tasks st /\
     channel st' = channel st).
Proof.
  intros Halive. split.
  - intros Hopen i Hi. unfold step. rewrite Halive. cbn [negb].
    assert (Hev : events (respond (next_req st) not_connected (new_request st)) =
                  events st ++ [Responded (next_req st) not_connected]).
    { unfold events. st_simpl. now rewrite map_app. }
    exists (respond (next_req st) not_connected (new_request st)).
    split; [|split; [now apply new_events_app|
             split; [reflexivity|split; [reflexivity|]]]].
    + unfold agent_routes in Hi.
      repeat (apply elem_of_cons in Hi as [->|Hi]);
        [| | |now apply elem_of_nil in Hi].
      * unfold get_files.
        change (socket_open (new_request st)) with (socket_open st).
        now rewrite Hopen.
      * unfold get_file_view.
        change (socket_open (new_request st)) with (socket_open st).
        now rewrite Hopen.
      * unfold get_download_all.
        change (socket_open (new_request st)) with (socket_open st).
        now rewrite Hopen.
    + eapply one_event_channel; [exact Hev|exact I].
  - intros Hopen Hcache. unfold step. rewrite Halive. cbn [negb].
    assert (Hno : no_listing st dir = true).
    { unfold no_listing. now destruct Hcache as [[-> _] | ->]. }
    assert (Hev : events (respond (next_req st) not_loaded (new_request st)) =
                  events st ++ [Responded (next_req st) not_loaded]).
    { unfold events. st_simpl. now rewrite map_app. }
    exists (respond (next_req st) not_loaded (new_request st)).
    split; [|split; [now apply new_events_app|
             split; [reflexivity|split; [reflexivity|]]]].
    + unfold get_download_all.
      change (socket_open (new_request st)) with (socket_open st).
      change (no_listing (new_request st) dir) with (no_listing st dir).
      now rewrite Hopen, Hno.
    + eapply one_event_channel; [exact Hev|exact I].
Qed.

End ListingRouteFacts.

(** ** An archive run that loses its agent *)

Module OfflineFacts.
Import JsString Js Server StateFacts Invariants StructureFacts TraceFacts
  TimeoutFacts Offline.

Lemma fetch_offline (f : fetch_id) (dir name : string) (st : state) :
  agentSocket st = None ->
  fetchFileFromAgent f dir (JStr name) st =
  Throw TypeError (console (LogRequestingFile (RequestPath.filePath dir name)) st).
Proof.
  intros Hs. unfold fetchFileFromAgent, bind, effect, agentSocket_send.
  st_simpl. now rewrite Hs.
Qed.

Lemma zip_loop_offline req dir (names : list string) :
  forall idx st,
    agentSocket st = None ->
    events (zip_loop req dir idx (JStr <$> names) st) =
      events st ++ failed_entries req dir idx names ++ [ArchiveFinalize req] /\
    tasks (zip_loop req dir idx (JStr <$> names) st) =
      <[req := ZipFinalizing]> (tasks st) /\
    listeners (zip_loop req dir idx (JStr <$> names) st) = listeners st /\
    alive (zip_loop req dir idx (JStr <$> names) st) = alive st.
Proof.
  induction names as [|name rest IH]; intros idx st Hs.
  - cbn [fmap list_fmap zip_loop failed_entries app].
    split; [|now repeat split]. unfold events. st_simpl. now rewrite map_app.
  - cbn [fmap list_fmap zip_loop to_string].
    rewrite fetch_offline by exact Hs.
    destruct (IH (S idx)
                (console (LogFailedToFetch name TypeError)
                   (add_event (Rejected (req, idx) TypeError)
                      (console (LogRequestingFile (RequestPath.filePath dir name))
                         (console (LogFetchingForZip name) st)))) Hs)
      as (He & Ht & Hl & Ha).
    split; [|split; [exact Ht|split; [exact Hl|exact Ha]]].
    change (list_fmap string json JStr rest) with (JStr <$> rest).
    rewrite He. cbn [failed_entries]. unfold failed_entry, events. st_simpl.
    rewrite !map_app. cbn [map snd]. rewrite <- !app_assoc. reflexivity.
Qed.

(** X9: when the agent has gone and the fetch an archive run waits for
    times out, the run does not wait any more: within that turn every
    entry that is left fails on the missing socket, is logged and
    skipped, and the archive is closed with what it has. *)
Theorem archive_run_without_agent_ends_at_once (st st' : state) (req : nat)
    (dir : string) (idx : nat) (file : json) (names : list string) :
  reachable st -> agentSocket st = None ->
  tasks st !! req = Some (ZipAwaiting dir idx file (JStr <$> names)) ->
  step st (FetchTimeout (req, idx)) = Some st' ->
  new_events st st' =
    Settled (req, idx) None :: failed_entries req dir (S idx) names ++
    [ArchiveFinalize req] /\
  tasks st' !! req = Some ZipFinalizing /\
  (forall w, w ∈ listeners st' -> w ∈ listeners st) /\
  channel st' = channel st /\
  alive st' = true.
Proof.
  intros Hreach Hs Htask Hstep.
  pose proof (reachable_Good st Hreach) as HG.
  assert (Halive : alive st = true).
  { unfold step in Hstep. now destruct (alive st). }
  assert (Hw : exists w, w ∈ listeners st /\ w_id w = (req, idx)).
  { unfold step in Hstep. rewrite Halive in Hstep. cbn [negb] in Hstep.
    destruct (find_waiter (req, idx) st) as [w|] eqn:Hf; [|discriminate].
    exists w. now apply find_waiter_Some. }
  destruct Hw as (w & Hw & Hid). rewrite <- Hid in Hstep.
  destruct (timeout_turn st st' w HG Hw Hstep) as [_ ->]. rewrite Hid.
  set (s0 := set_microtasks (fun _ => []) (on_timeout (req, idx) st)).
  unfold resume. change (tasks s0) with (tasks st). rewrite Htask, Nat.eqb_refl.
  unfold zip_settled.
  destruct (zip_loop_offline req dir names (S idx) (del_task req s0) Hs)
    as (He & Ht & Hl & Ha).
  assert (Hnew : events (zip_loop req dir (S idx) (JStr <$> names)
                           (del_task req s0)) =
                 events st ++ Settled (req, idx) None ::
                   failed_entries req dir (S idx) names ++ [ArchiveFinalize req]).
  { rewrite He. unfold s0, events. st_simpl.
    rewrite map_app, <- app_assoc. reflexivity. }
  split; [now apply new_events_app|].
  split; [rewrite Ht; apply lookup_insert_eq|].
  split; [|split; [|now rewrite Ha]].
  - intros x. rewrite Hl. unfold s0. st_simpl.
    intros Hx. now apply list_elem_of_filter in Hx as [_ Hx].
  - unfold channel. rewrite Hnew, omap_app.
    rewrite <- (app_nil_r (omap _ (events st))) at 2. f_equal.
    cbn [omap list_omap]. rewrite omap_app. cbn [omap list_omap].
    rewrite app_nil_r. clear. generalize (S idx) as i.
    induction names as [|name rest IH]; intros i; [reflexivity|].
    cbn [failed_entries failed_entry app omap list_omap]. apply IH.
Qed.

End OfflineFacts.

(** ** What [res.sendFile] does not send *)

Module SendFacts.
Import JsString JsStringFacts Js Server StateFacts.

Lemma segments_plain (l : list ascii) :
  Forall (fun c => is_slash c = false) l -> segments l = [l].
Proof.
  induction 1 as [|c l Hc _ IH]; [reflexivity|].
  cbn [segments]. now rewrite Hc, IH.
Qed.

Lemma segments_app (l k : list ascii) :
  Forall (fun c => is_slash c = false) l ->
  segments (l ++ slash :: k) = l :: segments k.
Proof.
  induction 1 as [|c l Hc _ IH]; [reflexivity|].
  cbn [segments app]. now rewrite Hc, IH.
Qed.

Lemma replace_separators_no_slash (p : string) :
  Forall (fun c => is_slash c = false) (chars (replace_separators p)).
Proof.
  unfold replace_separators. rewrite chars_str. apply Forall_forall.
  intros c Hc. apply list_elem_of_fmap in Hc as (x & -> & _).
  destruct (is_sep x) eqn:Hx; [reflexivity|].
  unfold is_sep in Hx. now apply orb_false_iff in Hx as [Hx _].
Qed.

(** A path that can be staged is staged under its own name. *)
Lemma staged_joined (path : string) :
  stageable path = true ->
  staged path = UPLOAD_DIR +:+ "/" +:+ replace_separators path /\
  replace_separators path <> "" /\ replace_separators path <> ".".
Proof.
  unfold stageable, staged, path_join_UPLOAD_DIR.
  destruct (String.eqb (replace_separators path) "") eqn:E1;
    [intros H; vm_compute in H; discriminate H|].
  destruct (String.eqb (replace_separators path) ".") eqn:E2;
    [intros H; vm_compute in H; discriminate H|].
  cbn [orb].
  destruct (String.eqb (replace_separators path) "..") eqn:E3;
    [intros H; vm_compute in H; discriminate H|].
  intros _. apply String.eqb_neq in E1, E2. now repeat split.
Qed.

Lemma replace_separators_head (c : ascii) (r : string) :
  replace_separators (String c r) =
  String (if is_sep c then underscore else c) (replace_separators r).
Proof. reflexivity. Qed.

Lemma is_dotfile_name (n : string) :
  n <> "" -> n <> "." -> is_dotfile (chars n) = startsWith n ".".
Proof.
  intros H1 H2. unfold startsWith.
  destruct n as [|c [|d k]]; [now destruct H1| |];
    cbn [chars String.list_ascii_of_string is_dotfile String.prefix].
  - destruct (ascii_dec "." c) as [<-|Hc]; [now destruct H2|reflexivity].
  - destruct (ascii_dec "." c) as [<-|Hc]; [reflexivity|].
    apply Ascii.eqb_neq. congruence.
Qed.

Lemma startsWith_dot_staged (path : string) :
  startsWith (replace_separators path) "." = startsWith path ".".
Proof.
  destruct path as [|c r]; [reflexivity|].
  rewrite replace_separators_head. unfold startsWith. cbn [String.prefix].
  destruct (is_sep c) eqn:Hs.
  - destruct (ascii_dec "." c) as [<-|Hc]; [discriminate Hs|].
    now destruct (ascii_dec "." underscore).
  - destruct (ascii_dec "." c); [|reflexivity].
    generalize (replace_separators r). intros n. now destruct r, n.
Qed.

(** The staged file of an arrival is a dotfile exactly when the arrived
    path begins with a dot. *)
Lemma send_refused_staged (path : string) :
  stageable path = true ->
  send_refused (staged path) = startsWith path ".".
Proof.
  intros Hs. destruct (staged_joined path Hs) as (-> & Hne & Hnd).
  rewrite <- startsWith_dot_staged, <- (is_dotfile_name _ Hne Hnd).
  generalize (replace_separators_no_slash path).
  generalize (replace_separators path). intros n Hn.
  unfold send_refused, UPLOAD_DIR. rewrite !chars_app.
  change (chars "/" ++ chars n) with (slash :: chars n).
  rewrite segments_app by (repeat constructor).
  rewrite (segments_plain _ Hn).
  change (existsb is_dotfile [chars "uploads"; chars n])
    with (is_dotfile (chars "uploads") || (is_dotfile (chars n) || false)).
  now rewrite orb_false_r.
Qed.

End SendFacts.

(** ** From an arrival to the requests it answers *)

Module ArrivalFacts.
Import JsString Spec Js Server StateFacts Invariants WaiterFacts
  StructureFacts TraceFacts ListingFacts TimeoutFacts ArchiveFacts
  Frames FrameFacts.









Lemma reachable_step (st st' : state) (i : input) :
  reachable st -> step st i = Some st' -> reachable st'.
Proof.
  intros [inputs Hrun] Hstep. exists (inputs ++ [i]).
  rewrite run_app, Hrun. cbn [run]. now rewrite Hstep.
Qed.

End ArrivalFacts.

(** ** Arrivals that cannot be staged *)

Module UnstageableFacts.
Import JsString JsStringFacts Js Server StateFacts.

Lemma replace_separators_cons (c : ascii) (r : string) :
  replace_separators (String c r) =
  String (if is_sep c then underscore else c) (replace_separators r).
Proof. reflexivity. Qed.

Lemma replace_separators_empty (p : string) :
  replace_separators p = "" <-> p = "".
Proof.
  split; [|now intros ->]. destruct p; [reflexivity|].
  rewrite replace_separators_cons. discriminate.
Qed.

Lemma replace_separators_dot (p : string) :
  replace_separators p = "." <-> p = ".".
Proof.
  split; [|now intros ->]. destruct p as [|c r]; [discriminate|].
  rewrite replace_separators_cons. intros H. injection H as Hc Hr.
  apply (proj1 (replace_separators_empty r)) in Hr as ->.
  destruct (is_sep c); [discriminate|now subst].
Qed.

Lemma replace_separators_dots (p : string) :
  replace_separators p = ".." <-> p = "..".
Proof.
  split; [|now intros ->]. destruct p as [|c r]; [discriminate|].
  rewrite replace_separators_cons. intros H. injection H as Hc Hr.
  apply (proj1 (replace_separators_dot r)) in Hr as ->.
  destruct (is_sep c); [discriminate|now subst].
Qed.

Lemma has_nul_replace_separators (p : string) :
  has_nul (UPLOAD_DIR +:+ "/" +:+ replace_separators p) = has_nul p.
Proof.
  unfold has_nul. rewrite !chars_app, !existsb_app.
  change (existsb _ (chars UPLOAD_DIR)) with false.
  change (existsb _ (chars "/")) with false. cbn [orb].
  unfold replace_separators. rewrite chars_str.
  induction (chars p) as [|c l IH]; [reflexivity|].
  cbn [map existsb]. rewrite IH. f_equal.
  destruct (is_sep c) eqn:Hc; [|reflexivity].
  unfold is_sep, is_slash, is_backslash in Hc.
  apply orb_true_iff in Hc as [Hc|Hc]; apply Ascii.eqb_eq in Hc; now subst.
Qed.

(** The paths under which nothing can be staged. *)
Lemma stageable_false (p : string) :
  stageable p = false <->
  p = "" \/ p = "." \/ p = ".." \/ has_nul p = true.
Proof.
  unfold stageable, path_join_UPLOAD_DIR.
  destruct (String.eqb (replace_separators p) "") eqn:H1.
  { apply String.eqb_eq in H1. apply (proj1 (replace_separators_empty p)) in H1. subst.
    split; [intros _; now left|intros _; reflexivity]. }
  destruct (String.eqb (replace_separators p) ".") eqn:H2.
  { apply String.eqb_eq in H2. apply (proj1 (replace_separators_dot p)) in H2. subst.
    split; [intros _; now right; left|intros _; reflexivity]. }
  destruct (String.eqb (replace_separators p) "..") eqn:H3.
  { apply String.eqb_eq in H3. apply (proj1 (replace_separators_dots p)) in H3. subst.
    split; [intros _; now right; right; left|intros _; reflexivity]. }
  cbn [orb].
  change (String.eqb (UPLOAD_DIR +:+ "/" +:+ replace_separators p) UPLOAD_DIR)
    with false.
  change (String.eqb (UPLOAD_DIR +:+ "/" +:+ replace_separators p) ".")
    with false.
  cbn [orb negb andb]. rewrite has_nul_replace_separators.
  apply String.eqb_neq in H1, H2, H3.
  rewrite replace_separators_empty in H1. rewrite replace_separators_dot in H2.
  rewrite replace_separators_dots in H3.
  rewrite negb_false_iff. tauto.
Qed.

Lemma ws_on_message_unstageable (p content : string) (st : state) :
  stageable p = false ->
  exists e, ws_on_message (Some (file_message p content)) st = Throw e st.
Proof.
  unfold stageable. intros Hs.
  unfold ws_on_message, file_message, bind, or_throw, ret.
  cbn [get own_property String.eqb Ascii.eqb Bool.eqb is_literal].
  unfold on_file_message, bind, or_throw, ret, effect.
  cbn [get own_property String.eqb Ascii.eqb Bool.eqb Buffer_from].
  unfold ret, writeFileSync, effect, throw.
  destruct (_ || _); [eauto|]. cbn [negb andb] in Hs.
  apply negb_false_iff in Hs. rewrite Hs. eauto.
Qed.

(** X12: with a file system in which a write fails only on a directory
    or on a name with a NUL, a [file] message is staged unless its path
    is empty, [.], [..] or holds a NUL; with such a path the write
    throws, the exception ends the process, and neither the store nor
    any waiter has changed. *)
Theorem unstageable_arrival_ends_the_process (st : state)
    (p content : string) :
  (stageable p = false <->
   p = "" \/ p = "." \/ p = ".." \/ has_nul p = true) /\
  (alive st = true -> stageable p = false ->
   exists st' e,
     step st (AgentMessage (Some (file_message p content))) = Some st' /\
     alive st' = false /\ new_events st st' = [Uncaught e] /\
     uploads st' = uploads st /\ listeners st' = listeners st).
Proof.
  split; [apply stageable_false|]. intros Halive Hs.
  destruct (ws_on_message_unstageable p content st Hs) as (e & He).
  exists (crash e st), e. unfold step. rewrite Halive, He. cbn [negb].
  split; [reflexivity|]. split; [reflexivity|].
  split; [|split; reflexivity].
  apply new_events_app. unfold events. st_simpl. now rewrite map_app.
Qed.

End UnstageableFacts.

(** ** What the routes answer *)

Module AnswerFacts.
Import JsString JsStringFacts Js Server StateFacts Invariants StructureFacts
  TraceFacts OrderFacts ListingFacts TimeoutFacts ArchiveRun ArchiveFacts
  Answers.

Lemma take_while_all (p : ascii -> bool) (l : list ascii) (c : ascii) :
  In c (Path.take_while p l) -> p c = true.
Proof.
  induction l as [|x l IH]; simpl; [tauto|].
  destruct (p x) eqn:Hx; simpl; [|tauto].
  intros [<-|H]; auto.
Qed.

Lemma basename_no_slash (s : string) : no_slash (Path.basename s).
Proof.
  unfold no_slash, Path.basename. rewrite chars_str. apply Forall_forall.
  intros c Hc. apply list_elem_of_In, in_rev, take_while_all in Hc.
  intros ->. discriminate.
Qed.

Lemma zip_loop_adds_loop (P : event -> Prop) req dir files :
  (forall e, by_loop e = true -> P e) ->
  forall idx st, adds P st (zip_loop req dir idx files st).
Proof.
  intros HP.
  assert (H1 : forall p, P (Console (LogRequestingFile p))) by (intros; now apply HP).
  assert (H2 : forall f p, P (SentFile f p)) by (intros; now apply HP).
  induction files as [|file rest IH]; intros idx st; simpl.
  - adds_tac; try now apply HP.
  - destruct (to_string file) as [shown|]; [|adds_tac; try now apply HP].
    pose proof (fetch_adds P (req, idx) dir file
                  (console (LogFetchingForZip shown) st) H1 (H2 _)) as Hf.
    assert (H0 : adds P st (console (LogFetchingForZip shown) st)).
    { adds_tac; try now apply HP. }
    destruct (fetchFileFromAgent _ _ _ _) as [[] st1|e st1]; simpl in Hf.
    + adds_tac. eapply adds_trans; eauto.
    + eapply adds_trans; [|apply IH]. adds_tac; try now apply HP.
      eapply adds_trans; eauto.
Qed.

Lemma zip_settled_adds_loop (P : event -> Prop) req dir idx file rest v st :
  (forall e, by_loop e = true -> P e) ->
  (forall r p name, P (ArchiveFile r p (Path.basename name))) ->
  adds P st (zip_settled req dir idx file rest v st).
Proof.
  intros HP HA. unfold zip_settled.
  eapply adds_trans; [|now apply zip_loop_adds_loop].
  destruct v as [p|]; [|apply adds_refl].
  destruct (String.eqb p ""); [apply adds_refl|].
  destruct file; try (destruct (to_string _)); adds_tac;
    try solve [now apply HP|apply HA].
Qed.

Lemma sound_loop (e : event) : by_loop e = true -> sound_event e.
Proof. destruct e; try easy. Qed.

Lemma sound_view_settled (e : event) : by_view_settled e = true -> sound_event e.
Proof.
  destruct e as [| | | | |r x| | | |]; try easy.
  destruct x; try easy. simpl. intros ->. now rewrite !orb_true_r.
Qed.

Lemma sound_message (e : event) : by_message e = true -> sound_event e.
Proof. destruct e as [| |[]|? []| | | | | |]; easy. Qed.

Lemma resume_sound m st : adds sound_event st (resume m st).
Proof.
  destruct m as [[req idx] v]. unfold resume.
  destruct (tasks st !! req) as [[]|]; try apply adds_refl.
  - destruct (Nat.eqb idx 0); [|apply adds_refl].
    eapply adds_trans; [|apply view_settled_adds, sound_view_settled]. adds_tac.
  - destruct (Nat.eqb idx idx0); [|apply adds_refl].
    eapply adds_trans; [|apply zip_settled_adds_loop]; [adds_tac| |].
    + apply sound_loop.
    + intros r p name. exists name. apply SpecFacts.basename_is_last_segment.
Qed.

Lemma drain_sound st : adds sound_event st (drain st).
Proof.
  unfold drain. eapply adds_trans with (st1 := set_microtasks (fun _ => []) st);
    [adds_tac|].
  generalize (set_microtasks (fun _ => []) st) as s.
  induction (microtasks st) as [|m q IH]; intros s; cbn [fold_left].
  - apply adds_refl.
  - eapply adds_trans; [apply resume_sound|apply IH].
Qed.

Lemma files_finish_sound req dir st : adds sound_event st (files_finish req dir st).
Proof.
  unfold files_finish. destruct (no_listing st dir); [adds_tac|].
  destruct (tempDirFiles st !! dir); adds_tac.
Qed.

Lemma files_poll_sound req dir timeout st :
  adds sound_event st (files_poll req dir timeout st).
Proof.
  unfold files_poll. destruct (_ && _); [adds_tac|apply files_finish_sound].
Qed.

Lemma get_files_sound req dir st : adds sound_event st (get_files req dir st).
Proof.
  unfold get_files. destruct (negb (socket_open st)); [adds_tac|].
  destruct (no_listing st dir); [|apply files_finish_sound].
  unfold agentSocket_send. destruct (agentSocket st) as [[]|]; try adds_tac.
  - eapply adds_trans; [|apply files_poll_sound]. adds_tac.
  - eapply adds_trans; [|apply files_poll_sound]. adds_tac.
  - eapply adds_trans; [|apply files_poll_sound]. adds_tac.
Qed.

(** Behind the guard the fetch of a file view cannot throw. *)
Lemma get_file_view_sound req dir filename st :
  adds sound_event st (get_file_view req dir filename st).
Proof.
  unfold get_file_view. destruct (socket_open st) eqn:Ho; cbn [negb];
    [|adds_tac].
  rewrite fetch_open_eq by now apply socket_open_OPEN. adds_tac.
Qed.

Lemma get_download_all_sound req dir st :
  adds sound_event st (get_download_all req dir st).
Proof.
  unfold get_download_all. destruct (negb (socket_open st)); [adds_tac|].
  destruct (no_listing st dir); [adds_tac|].
  destruct (tempDirFiles st !! dir) as [files|]; [|adds_tac].
  destruct (render _); [|adds_tac].
  destruct (iterate files); [|adds_tac].
  eapply adds_trans; [|apply zip_loop_adds_loop, sound_loop]. adds_tac.
Qed.

Lemma sound_adds (st st' : state) :
  Forall sound_event (events st) -> adds sound_event st st' ->
  Forall sound_event (events st').
Proof.
  intros H Ha. apply adds_events in Ha as (new & -> & Hn).
  apply Forall_app. now split.
Qed.

Lemma step_sound (st st' : state) (i : input) :
  Forall sound_event (events st) -> step st i = Some st' ->
  Forall sound_event (events st').
Proof.
  intros H Hstep. unfold step in Hstep.
  destruct (negb (alive st)); [discriminate|].
  destruct i.
  - destruct (0 <=? dt)%Z; [|discriminate]. now injection Hstep as <-.
  - injection Hstep as <-. apply (sound_adds st); [exact H|adds_tac].
  - destruct (agentSocket st); [|discriminate]. now injection Hstep as <-.
  - injection Hstep as <-. apply (sound_adds st); [exact H|adds_tac].
  - pose proof (ws_on_message_adds sound_event message st sound_message) as Ha.
    destruct (ws_on_message message st) as [[] st1|e st1];
      injection Hstep as <-; simpl in Ha; apply (sound_adds st); try exact H.
    + eapply adds_trans; [exact Ha|apply drain_sound].
    + adds_tac.
  - destruct (find_waiter f st) as [w|]; [|discriminate].
    destruct (w_due w <=? now st)%Z; [|discriminate]. injection Hstep as <-.
    apply (sound_adds st); [exact H|].
    eapply adds_trans; [|apply drain_sound]. adds_tac.
  - destruct (tasks st !! req) as [[]|]; try discriminate.
    destruct (wake <=? now st)%Z; [|discriminate]. injection Hstep as <-.
    apply (sound_adds st); [exact H|].
    eapply adds_trans; [|apply files_poll_sound]. adds_tac.
  - injection Hstep as <-. apply (sound_adds st); [exact H|].
    eapply adds_trans; [|apply get_files_sound]. adds_tac.
  - injection Hstep as <-. apply (sound_adds st); [exact H|].
    eapply adds_trans; [|apply get_file_view_sound]. adds_tac.
  - injection Hstep as <-. apply (sound_adds st); [exact H|].
    eapply adds_trans; [|apply get_download_all_sound]. adds_tac.
  - destruct (tasks st !! req) as [[]|]; try discriminate.
    injection Hstep as <-. apply (sound_adds st); [exact H|].
    eapply adds_trans; [|apply sendFile_callback_adds]. adds_tac.
  - destruct (tasks st !! req) as [[]|]; try discriminate.
    injection Hstep as <-. apply (sound_adds st); [exact H|adds_tac].
Qed.

Lemma reachable_sound (st : state) :
  reachable st -> Forall sound_event (events st).
Proof.
  intros [inputs Hrun].
  assert (H0 : Forall sound_event (events init)) by constructor.
  revert Hrun H0. generalize init as s.
  induction inputs as [|i rest IH]; intros s Hrun H0; simpl in Hrun.
  - now injection Hrun as <-.
  - destruct (step s i) as [s1|] eqn:Hs; [|discriminate].
    apply (IH s1 Hrun). now apply (step_sound s s1 i).
Qed.


(** X14: the name under which a file is handed to the archive is the last
    path segment of some string, so it has no forward slash in it.
    Backslashes are not separators for [path.basename] and stay in the
    name. *)
Theorem archive_names_have_no_directory (st : state) (req : nat)
    (savePath name : string) :
  reachable st -> ArchiveFile req savePath name ∈ events st ->
  (exists entry, Spec.last_segment entry name) /\ no_slash name.
Proof.
  intros Hreach Hin.
  pose proof (reachable_sound st Hreach) as Hs.
  rewrite Forall_forall in Hs. specialize (Hs _ Hin).
  cbn [sound_event] in Hs. split; [exact Hs|].
  destruct Hs as (entry & Hfree & _). exact Hfree.
Qed.

End AnswerFacts.

(** ** What an arrival does for the requests that wait *)

Module ViewAnswerFacts.
Import JsString JsStringFacts Spec Js Server StateFacts Invariants WaiterFacts
  StructureFacts TraceFacts OrderFacts ListingFacts TimeoutFacts ArchiveRun
  ArchiveFacts Frames FrameFacts Answers SendFacts ArrivalFacts AnswerFacts.







End ViewAnswerFacts.

(** ** No request is answered twice *)

Module OnceFacts.
Import JsString Js Server StateFacts Invariants WaiterFacts StructureFacts
  TraceFacts OrderFacts ListingFacts TimeoutFacts ArchiveRun ArchiveFacts
  Answers AnswerFacts.

Lemma responses_of_app r (a b : list event) :
  responses_of r (a ++ b) = responses_of r a ++ responses_of r b.
Proof. unfold responses_of. apply omap_app. Qed.

Lemma responses_of_quiet r (new : list event) :
  Forall (fun e => is_response e = false) new -> responses_of r new = [].
Proof.
  induction 1 as [|e l He _ IH]; [reflexivity|].
  unfold responses_of in *. cbn [omap list_omap]. rewrite IH.
  now destruct e.
Qed.

Lemma responses_of_one r r' x (pre post : list event) :
  Forall (fun e => is_response e = false) pre ->
  Forall (fun e => is_response e = false) post ->
  responses_of r' (pre ++ Responded r x :: post) =
  if Nat.eqb r r' then [x] else [].
Proof.
  intros Hpre Hpost. rewrite responses_of_app, (responses_of_quiet _ pre Hpre).
  change (Responded r x :: post) with ([Responded r x] ++ post).
  rewrite responses_of_app, (responses_of_quiet _ post Hpost), app_nil_r.
  unfold responses_of. cbn [omap list_omap app].
  now destruct (Nat.eqb r r').
Qed.

Lemma quiet_adds (st st' : state) :
  adds (fun e => is_response e = false) st st' -> quiet st st'.
Proof. intros H. apply adds_events in H as (new & H1 & H2). now exists new. Qed.

Lemma quiet_same (st st' : state) : events st' = events st -> quiet st st'.
Proof. intros H. exists []. now rewrite app_nil_r. Qed.

Lemma quiet_trans (st st1 st2 : state) :
  quiet st st1 -> quiet st1 st2 -> quiet st st2.
Proof.
  intros (n1 & H1 & F1) (n2 & H2 & F2). exists (n1 ++ n2).
  split; [now rewrite H2, H1, app_assoc|]. apply Forall_app. now split.
Qed.

Lemma no_new_unanswered_same (st st' : state) :
  tasks st' = tasks st -> no_new_unanswered st st'.
Proof. intros H r t. now rewrite H. Qed.

Lemma no_new_unanswered_trans (st st1 st2 : state) :
  no_new_unanswered st st1 -> no_new_unanswered st1 st2 ->
  no_new_unanswered st st2.
Proof. intros H1 H2 r t Ht Hu. apply H1; [|exact Hu]. now apply H2. Qed.

Lemma no_new_unanswered_del (st : state) (r : nat) :
  no_new_unanswered st (del_task r st).
Proof.
  intros r' t. st_simpl. intros H _.
  now apply lookup_delete_Some in H as [_ H].
Qed.

Lemma no_new_unanswered_set (st : state) (r : nat) (t : task) :
  unanswered t = false -> no_new_unanswered st (set_task r t st).
Proof.
  intros Ht r' t'. st_simpl. intros H Hu.
  destruct (decide (r = r')) as [<-|Hne].
  - rewrite lookup_insert_eq in H. injection H as <-. congruence.
  - now rewrite lookup_insert_ne in H.
Qed.

(** A turn that answers nothing keeps the invariant. *)
Lemma once_quiet (st st' : state) :
  answered_once st -> quiet st st' -> next_req st' = next_req st ->
  no_new_unanswered st st' -> answered_once st'.
Proof.
  intros [H1 H2 H3] (new & He & Hq) Hn Ht.
  assert (Hsame : forall r, responses_of r (events st') =
                            responses_of r (events st)).
  { intros r. now rewrite He, responses_of_app, (responses_of_quiet r new Hq),
      app_nil_r. }
  split.
  - intros r. rewrite Hsame. apply H1.
  - intros r t Htask Hu. rewrite Hsame. apply (H2 r t); [|exact Hu].
    now apply Ht.
  - intros r. rewrite Hsame, Hn. apply H3.
Qed.

(** A turn of a request that has no answer yet keeps it too. *)
Lemma once_answers (r : nat) (st st' : state) :
  answered_once st -> local_to r st st' ->
  responses_of r (events st) = [] -> r < next_req st ->
  answers r st st' -> answered_once st'.
Proof.
  intros [H1 H2 H3] Hloc Hr Hlt [(new & He & Hq)|(pre & x & post & He & Hpre & Hpost & Ht)].
  - assert (Hsame : forall r', responses_of r' (events st') =
                               responses_of r' (events st)).
    { intros r'. now rewrite He, responses_of_app,
        (responses_of_quiet r' new Hq), app_nil_r. }
    split.
    + intros r'. rewrite Hsame. apply H1.
    + intros r' t Htask Hu. rewrite Hsame.
      destruct (decide (r' = r)) as [->|Hne]; [exact Hr|].
      apply (H2 r' t); [|exact Hu].
      now rewrite <- (local_tasks _ _ _ Hloc r' Hne).
    + intros r'. rewrite Hsame, (local_next _ _ _ Hloc). apply H3.
  - assert (Hnew : forall r', responses_of r' (events st') =
                              responses_of r' (events st) ++
                              if Nat.eqb r r' then [x] else []).
    { intros r'. now rewrite He, responses_of_app, responses_of_one. }
    split.
    + intros r'. rewrite Hnew. destruct (Nat.eqb_spec r r') as [<-|Hne].
      * rewrite Hr. simpl. lia.
      * rewrite app_nil_r. apply H1.
    + intros r' t Htask Hu. rewrite Hnew.
      destruct (Nat.eqb_spec r r') as [<-|Hne].
      * rewrite (Ht t Htask) in Hu. discriminate.
      * rewrite app_nil_r. apply (H2 r' t); [|exact Hu].
        rewrite <- (local_tasks _ _ _ Hloc r'); [exact Htask|congruence].
    + intros r' Hr'. rewrite Hnew, (local_next _ _ _ Hloc) in *.
      destruct (Nat.eqb_spec r r') as [<-|Hne]; [lia|].
      rewrite app_nil_r. now apply H3.
Qed.

Lemma answers_one (r : nat) (x : response) (st st' : state) :
  events st' = events st ++ [Responded r x] ->
  (forall t, tasks st' !! r = Some t -> unanswered t = false) ->
  answers r st st'.
Proof.
  intros He Ht. right. exists [], x, []. now repeat split.
Qed.

Lemma answers_after (r : nat) (st st1 st2 : state) :
  quiet st st1 -> answers r st1 st2 -> answers r st st2.
Proof.
  intros Hq [H|(pre & x & post & He & Hpre & Hpost & Ht)].
  - left. now apply (quiet_trans st st1).
  - destruct Hq as (n1 & H1 & F1). right. exists (n1 ++ pre), x, post.
    split; [now rewrite He, H1, <- !app_assoc|].
    split; [apply Forall_app; now split|]. now split.
Qed.

Lemma not_response_loop (e : event) : by_loop e = true -> is_response e = false.
Proof. now destruct e. Qed.

Lemma zip_loop_quiet req dir idx files st : quiet st (zip_loop req dir idx files st).
Proof. apply quiet_adds, zip_loop_adds_loop, not_response_loop. Qed.

Lemma fetch_quiet f dir file st :
  quiet st (outcome_state (fetchFileFromAgent f dir file st)).
Proof. apply quiet_adds, fetch_adds; reflexivity. Qed.

Lemma zip_loop_no_new_unanswered req dir files :
  forall idx st, no_new_unanswered st (zip_loop req dir idx files st).
Proof.
  induction files as [|file rest IH]; intros idx st; simpl.
  - eapply no_new_unanswered_trans; [|now apply no_new_unanswered_set].
    now apply no_new_unanswered_same.
  - destruct (to_string file) as [shown|]; [|now apply no_new_unanswered_same].
    pose proof (fetch_tasks (req, idx) dir file
                  (console (LogFetchingForZip shown) st)) as Hf.
    destruct (fetchFileFromAgent _ _ _ _) as [[] st1|e st1]; simpl in Hf.
    + eapply no_new_unanswered_trans; [|now apply no_new_unanswered_set].
      now apply no_new_unanswered_same.
    + eapply no_new_unanswered_trans; [|apply IH].
      now apply no_new_unanswered_same.
Qed.

Lemma files_finish_answers r dir st :
  tasks st !! r = None -> answers r st (files_finish r dir st).
Proof.
  intros Hnone. unfold files_finish.
  assert (Ht : forall t, tasks st !! r = Some t -> unanswered t = false).
  { intros t. now rewrite Hnone. }
  destruct (no_listing st dir).
  - apply (answers_one r (StatusJson 504 "No files received"));
      [apply events_add_event|exact Ht].
  - destruct (tempDirFiles st !! dir) as [listing|].
    + apply (answers_one r (Json listing)); [apply events_add_event|exact Ht].
    + left. now apply quiet_same.
Qed.

Lemma files_poll_answers r dir timeout st :
  tasks st !! r = None -> answers r st (files_poll r dir timeout st).
Proof.
  intros Hnone. unfold files_poll. destruct (_ && _).
  - left. now apply quiet_same.
  - now apply files_finish_answers.
Qed.

Lemma get_files_answers r dir st :
  tasks st !! r = None -> answers r st (get_files r dir st).
Proof.
  intros Hnone. unfold get_files.
  assert (Ht : forall t, tasks st !! r = Some t -> unanswered t = false).
  { intros t. now rewrite Hnone. }
  destruct (negb (socket_open st)).
  { apply (answers_one r (StatusJson 503 "Agent not connected"));
      [apply events_add_event|exact Ht]. }
  destruct (no_listing st dir); [|now apply files_finish_answers].
  unfold agentSocket_send. destruct (agentSocket st) as [[]|].
  - left. apply quiet_adds. adds_tac.
  - eapply answers_after; [|apply files_poll_answers; exact Hnone].
    apply quiet_adds. adds_tac.
  - eapply answers_after; [|apply files_poll_answers; exact Hnone].
    apply quiet_adds. adds_tac.
  - eapply answers_after; [|apply files_poll_answers; exact Hnone].
    apply quiet_adds. adds_tac.
  - left. apply quiet_adds. adds_tac.
Qed.

Lemma get_file_view_answers r dir filename st :
  tasks st !! r = None -> answers r st (get_file_view r dir filename st).
Proof.
  intros Hnone. unfold get_file_view.
  assert (Ht : forall t, tasks st !! r = Some t -> unanswered t = false).
  { intros t. now rewrite Hnone. }
  destruct (negb (socket_open st)).
  { apply (answers_one r (StatusJson 503 "Agent not connected"));
      [apply events_add_event|exact Ht]. }
  pose proof (fetch_quiet (r, 0) dir (JStr filename) st) as Hq.
  pose proof (fetch_tasks (r, 0) dir (JStr filename) st) as Hf.
  destruct (fetchFileFromAgent _ _ _ _) as [[] st1|e st1]; simpl in Hq, Hf.
  - left. eapply quiet_trans; [exact Hq|]. now apply quiet_same.
  - eapply answers_after with
      (st1 := console (LogErrorInFileView e) (add_event (Rejected (r, 0) e) st1)).
    + eapply quiet_trans; [exact Hq|]. apply quiet_adds. adds_tac.
    + apply (answers_one r (StatusJson 500 (exn_message e)));
        [apply events_add_event|].
      intros t. st_simpl. rewrite Hf. apply Ht.
Qed.

Lemma get_download_all_answers r dir st :
  tasks st !! r = None -> answers r st (get_download_all r dir st).
Proof.
  intros Hnone. unfold get_download_all.
  assert (Ht : forall t, tasks st !! r = Some t -> unanswered t = false).
  { intros t. now rewrite Hnone. }
  destruct (negb (socket_open st)).
  { apply (answers_one r (StatusJson 503 "Agent not connected"));
      [apply events_add_event|exact Ht]. }
  destruct (no_listing st dir).
  { eapply answers_one; [apply events_add_event|exact Ht]. }
  destruct (tempDirFiles st !! dir) as [files|]; [|left; now apply quiet_same].
  destruct (render _) as [count|]; [|left; apply quiet_adds; adds_tac].
  set (st2 := respond r (Attachment (dir +:+ ".zip"))
                (console (LogStartingZip count dir) st)).
  assert (He2 : events st2 =
                events st ++ [Console (LogStartingZip count dir)] ++
                [Responded r (Attachment (dir +:+ ".zip"))]).
  { unfold st2, events. st_simpl. now rewrite !map_app, <- app_assoc. }
  destruct (iterate files) as [entries|].
  - destruct (zip_loop_quiet r dir 0 entries st2) as (post & Hp & Fp).
    right. exists [Console (LogStartingZip count dir)],
             (Attachment (dir +:+ ".zip")), post.
    split; [now rewrite Hp, He2, <- !app_assoc|].
    split; [now repeat constructor|]. split; [exact Fp|].
    intros t Htask. destruct (unanswered t) eqn:Hu; [|reflexivity].
    pose proof (zip_loop_no_new_unanswered r dir entries 0 st2 r t Htask Hu) as H.
    change (tasks st2) with (tasks st) in H. congruence.
  - right. exists [Console (LogStartingZip count dir)],
             (Attachment (dir +:+ ".zip")), [Unhandled r TypeError].
    split.
    { unfold unhandled. rewrite events_add_event, He2.
      now rewrite <- !app_assoc. }
    split; [now repeat constructor|]. split; [now repeat constructor|].
    intros t. st_simpl. apply Ht.
Qed.

Lemma view_settled_answers r v st :
  tasks st !! r = None -> answers r st (view_settled r v st).
Proof.
  intros Hnone. unfold view_settled.
  assert (Ht : forall t, tasks st !! r = Some t -> unanswered t = false).
  { intros t. now rewrite Hnone. }
  destruct v as [p|];
    [destruct (String.eqb p ""); [|destruct (send_refused p)]|].
  - eapply answers_one; [apply events_add_event|exact Ht].
  - cbn [sendFile_callback negb]. left. now apply quiet_same.
  - apply (answers_one r (File p)).
    + unfold events. st_simpl. now rewrite map_app.
    + intros t. st_simpl. rewrite lookup_insert_eq. now intros [= <-].
  - eapply answers_one; [apply events_add_event|exact Ht].
Qed.

Lemma zip_settled_quiet req dir idx file rest v st :
  quiet st (zip_settled req dir idx file rest v st).
Proof.
  apply quiet_adds, zip_settled_adds_loop; [apply not_response_loop|reflexivity].
Qed.

Lemma zip_settled_no_new_unanswered req dir idx file rest v st :
  no_new_unanswered st (zip_settled req dir idx file rest v st).
Proof.
  unfold zip_settled.
  eapply no_new_unanswered_trans; [|apply zip_loop_no_new_unanswered].
  apply no_new_unanswered_same.
  destruct v as [p|]; [|reflexivity].
  destruct (String.eqb p ""); [reflexivity|].
  now destruct file; try (destruct (to_string _)).
Qed.

Lemma resume_once f v q st :
  Inv st -> Queued st ((f, v) :: q) -> answered_once st ->
  answered_once (resume (f, v) st).
Proof.
  intros HI HQ Ho.
  assert (Haw : awaiting st f) by (apply (queued_owner _ _ HQ); now left).
  assert (Hlt : f.1 < next_req st).
  { apply (inv_tasks st HI). now apply awaiting_is_Some. }
  pose proof (resume_local f v st) as Hloc.
  destruct f as [r i]. unfold awaiting in Haw. cbn [fst snd] in *.
  destruct (tasks st !! r) as [[]|] eqn:Htask; try contradiction.
  - subst i. apply (once_answers r st); try assumption.
    + now apply (once_pending st Ho r ViewAwaiting Htask).
    + unfold resume. rewrite Htask. cbn [Nat.eqb].
      change (answers r (del_task r st) (view_settled r v (del_task r st))).
      apply view_settled_answers. st_simpl. apply lookup_delete_eq.
  - subst i. apply (once_quiet st); try assumption.
    + unfold resume. rewrite Htask, Nat.eqb_refl.
      change (quiet (del_task r st)
                (zip_settled r dir idx file rest v (del_task r st))).
      apply zip_settled_quiet.
    + apply (local_next _ _ _ Hloc).
    + unfold resume. rewrite Htask, Nat.eqb_refl.
      eapply no_new_unanswered_trans; [apply (no_new_unanswered_del st r)|].
      apply zip_settled_no_new_unanswered.
Qed.

Lemma drain_from_once q :
  forall st, Inv st -> Queued st q -> answered_once st ->
             answered_once (fold_left (fun s m => resume m s) q st).
Proof.
  induction q as [|[f v] q IH]; intros st HI HQ Ho; cbn [fold_left]; [exact Ho|].
  destruct (resume_Inv f v q st HI HQ) as (HI' & HQ' & _).
  apply IH; try assumption. now apply (resume_once f v q).
Qed.

Lemma once_ext (st st' : state) :
  events st' = events st -> tasks st' = tasks st -> next_req st' = next_req st ->
  answered_once st -> answered_once st'.
Proof.
  intros He Ht Hn Ho. apply (once_quiet st); try assumption.
  - now apply quiet_same.
  - now apply no_new_unanswered_same.
Qed.

Lemma drain_once (st : state) :
  Inv st -> Queued st (microtasks st) -> answered_once st ->
  answered_once (drain st).
Proof.
  intros HI HQ Ho. unfold drain. apply drain_from_once.
  - eapply Inv_ext; [| | |exact HI]; reflexivity.
  - eapply Queued_ext; [| |exact HQ]; reflexivity.
  - now apply (once_ext st).
Qed.

Lemma not_response_emit (e : event) : by_emit e = true -> is_response e = false.
Proof. now destruct e. Qed.

Lemma fresh_is_free (st : state) :
  Inv st -> tasks (new_request st) !! next_req st = None.
Proof.
  intros HI. change (tasks (new_request st)) with (tasks st).
  destruct (tasks st !! next_req st) eqn:Ht; [|reflexivity].
  assert (next_req st < next_req st); [|lia].
  apply (inv_tasks st HI). rewrite Ht. eauto.
Qed.

Lemma once_new_request (st : state) :
  answered_once st ->
  answered_once (new_request st) /\
  responses_of (next_req st) (events (new_request st)) = [].
Proof.
  intros [H1 H2 H3]. split; [split|].
  - exact H1.
  - exact H2.
  - intros r Hr. apply H3. st_simpl. lia.
  - now apply H3.
Qed.

Lemma step_once (st st' : state) (i : input) :
  Good st -> answered_once st -> step st i = Some st' -> answered_once st'.
Proof.
  intros [HI Hq] Ho Hstep. unfold step in Hstep.
  destruct (negb (alive st)); [discriminate|].
  destruct i.
  - destruct (0 <=? dt)%Z; [|discriminate]. injection Hstep as <-.
    now apply (once_ext st).
  - injection Hstep as <-. apply (once_quiet st); try easy.
    apply quiet_adds. adds_tac.
  - destruct (agentSocket st); [|discriminate]. injection Hstep as <-.
    now apply (once_ext st).
  - injection Hstep as <-. apply (once_quiet st); try easy.
    apply quiet_adds. adds_tac.
  - pose proof (ws_on_message_cases message st) as Hc.
    destruct (ws_on_message message st) as [[] st1|e st1];
      injection Hstep as <-.
    + destruct Hc as [(data & p & b & _ & _ & _ & _ & ->)|
                      [(data & key & listing & count & _ & _ & _ & ->)| ->]].
      * set (fd := FileData p _). set (st0 := console _ _).
        assert (HI0 : Inv st0) by (eapply Inv_ext; [| | |exact HI]; reflexivity).
        destruct (emit_Inv fd st0 HI0 Hq) as [HI1 HQ1].
        apply drain_once; try assumption.
        apply (once_quiet st); try assumption.
        -- apply quiet_adds. eapply adds_trans;
             [|apply emit_adds, not_response_emit]. unfold st0. adds_tac.
        -- unfold fileEvents_emit.
           now destruct (emit_from_tasks fd (listeners st0) st0) as [_ ->].
        -- apply no_new_unanswered_same. now rewrite emit_tasks.
      * apply drain_once.
        -- eapply Inv_ext; [| | |exact HI]; reflexivity.
        -- st_simpl. rewrite Hq. apply Queued_nil.
        -- apply (once_quiet st); try easy. apply quiet_adds. adds_tac.
      * apply drain_once; try assumption. rewrite Hq. apply Queued_nil.
    + apply (once_quiet st); try assumption.
      * apply quiet_adds. destruct Hc as [->|[f ->]]; adds_tac.
      * now destruct Hc as [->|[f ->]].
      * apply no_new_unanswered_same. now destruct Hc as [->|[f ->]].
  - destruct (find_waiter f st) as [w|] eqn:Hw; [|discriminate].
    destruct (w_due w <=? now st)%Z; [|discriminate]. injection Hstep as <-.
    apply find_waiter_Some in Hw as [Hw <-].
    destruct (on_timeout_Inv (w_id w) st HI Hq) as [HI1 HQ1];
      [now apply list_elem_of_fmap_2|].
    apply drain_once; try assumption.
    apply (once_quiet st); try easy. apply quiet_adds. adds_tac.
  - destruct (tasks st !! req) as [[]|] eqn:Ht; try discriminate.
    destruct (wake <=? now st)%Z; [|discriminate]. injection Hstep as <-.
    apply (once_answers req st); try assumption.
    + apply del_task_then_local, files_poll_local.
    + now apply (once_pending st Ho req _ Ht).
    + apply (inv_tasks st HI). rewrite Ht. eauto.
    + change (answers req (del_task req st)
                (files_poll req dir timeout (del_task req st))).
      apply files_poll_answers. st_simpl. apply lookup_delete_eq.
  - injection Hstep as <-.
    destruct (once_new_request st Ho) as [Ho' Hr].
    apply (once_answers (next_req st) (new_request st)); try assumption.
    + apply get_files_local.
    + st_simpl. lia.
    + apply get_files_answers. now apply fresh_is_free.
  - injection Hstep as <-.
    destruct (once_new_request st Ho) as [Ho' Hr].
    apply (once_answers (next_req st) (new_request st)); try assumption.
    + apply get_file_view_local.
    + st_simpl. lia.
    + apply get_file_view_answers. now apply fresh_is_free.
  - injection Hstep as <-.
    destruct (once_new_request st Ho) as [Ho' Hr].
    apply (once_answers (next_req st) (new_request st)); try assumption.
    + apply get_download_all_local.
    + st_simpl. lia.
    + apply get_download_all_answers. now apply fresh_is_free.
  - destruct (tasks st !! req) as [[]|] eqn:Ht; try discriminate.
    injection Hstep as <-.
    destruct (control_eq _ _ (sendFile_callback_control savePath err
                                (del_task req st))) as (_ & Htk & _ & Hn).
    apply (once_quiet st); try assumption.
    + apply quiet_adds. eapply adds_trans; [|apply sendFile_callback_adds].
      adds_tac.
    + eapply no_new_unanswered_trans; [apply (no_new_unanswered_del st req)|].
      now apply no_new_unanswered_same.
  - destruct (tasks st !! req) as [[]|] eqn:Ht; try discriminate.
    injection Hstep as <-.
    apply (once_quiet st); try easy.
    + apply quiet_adds. adds_tac.
    + eapply no_new_unanswered_trans; [apply (no_new_unanswered_del st req)|].
      now apply no_new_unanswered_same.
Qed.

Lemma init_once : answered_once init.
Proof.
  split.
  - intros r. cbn. lia.
  - intros r t H. change (tasks init) with (∅ : gmap nat task) in H.
    now rewrite lookup_empty in H.
  - reflexivity.
Qed.

Lemma reachable_once (st : state) : reachable st -> answered_once st.
Proof.
  intros [inputs Hrun].
  pose proof init_Good as HG. pose proof init_once as Ho.
  revert Hrun HG Ho. generalize init as s.
  induction inputs as [|i rest IH]; intros s Hrun HG Ho; simpl in Hrun.
  - now injection Hrun as <-.
  - destruct (step s i) as [s1|] eqn:Hs; [|discriminate].
    apply (IH s1 Hrun).
    + now apply (step_Good s s1 i).
    + now apply (step_once s s1 i).
Qed.

(** X15: no request is ever answered twice, and a request that still waits
    for its listing or for its file has not been answered. *)
Theorem every_request_is_answered_at_most_once (st : state) (req : nat) :
  reachable st ->
  length (responses req st) <= 1 /\
  (forall t, tasks st !! req = Some t -> unanswered t = true ->
             responses req st = []) /\
  (next_req st <= req -> responses req st = []).
Proof.
  intros Hreach. destruct (reachable_once st Hreach) as [H1 H2 H3].
  split; [apply H1|]. split; [apply H2|apply H3].
Qed.

End OnceFacts.

(** ** The upload of a file list over HTTP *)

Module UploadFilesFacts.
Import Js Server UploadFiles.

(** X16: [/upload-files] takes exactly the bodies whose [files] is an array,
    the empty one included, and answers with the number of its items;
    for anything else it answers 400 and leaves [agentFiles] as it was.
    The test [!files] adds nothing to [!Array.isArray(files)]. *)
Theorem upload_files_takes_arrays_only (body agentFiles : json) (files : value) :
  get body "files" = Some files ->
  invalid_file_list files = negb (isArray files) /\
  (isArray files = false ->
   post_upload_files body agentFiles =
     Some (Upload (StatusJson 400 "Invalid file list") agentFiles None)) /\
  (forall items, files = Some (JArr items) ->
     exists line,
       post_upload_files body agentFiles =
         Some (Upload
                 (Json (JObj [("status", JStr "ok");
                              ("count", JNum (pretty (length items)))]))
                 (JArr items) (Some line))).
Proof.
  intros Hget.
  assert (Hguard : invalid_file_list files = negb (isArray files)).
  { unfold invalid_file_list.
    destruct files as [[]|]; cbn [isArray truthy negb orb];
      rewrite ?orb_true_r; reflexivity. }
  split; [exact Hguard|]. split.
  - intros Hno. unfold post_upload_files. now rewrite Hget, Hguard, Hno.
  - intros items ->. unfold post_upload_files. rewrite Hget, Hguard.
    cbn [isArray negb length_of render to_string]. eauto.
Qed.

End UploadFilesFacts.

(** ** The earlier revision *)

Module LegacyFacts.
Import JsString JsStringFacts RequestPath Spec Js Server StateFacts
  RequestPathFacts MatchingLaws Staging StoreFacts UnstageableFacts.

Lemma strip_snoc (d : string) (c : ascii) :
  is_separator c -> strip_trailing_separator (d +:+ String c EmptyString) = d.
Proof.
  intros Hc. apply is_sep_spec in Hc. unfold strip_trailing_separator.
  rewrite chars_app, rev_app_distr. cbn [chars String.list_ascii_of_string rev app].
  now rewrite Hc, rev_involutive, str_chars.
Qed.

Lemma snoc_longer (d : string) (c : ascii) : d <> d +:+ String c EmptyString.
Proof.
  intros H. apply (f_equal (fun s => length (chars s))) in H.
  rewrite chars_app, length_app in H. simpl in H. lia.
Qed.

Lemma append_cancel_r (a b s : string) : a +:+ s = b +:+ s -> a = b.
Proof.
  intros H. apply chars_inj. apply (f_equal chars) in H.
  rewrite !chars_app in H. now apply app_inv_tail in H.
Qed.

(** X17: the two revisions ask the agent for the same path, except for a
    file name that does not look absolute in a directory written with a
    trailing separator: there the earlier one sends the doubled
    separator that the later one avoids. *)
Theorem revisions_request_the_same_path (dir filename : string) :
  RequestPath.filePath dir filename = LegacyServer.filePath dir filename <->
  looks_absolute filename = true \/
  ~ (exists d c, is_separator c /\ dir = d +:+ String c EmptyString).
Proof.
  unfold RequestPath.filePath, LegacyServer.filePath.
  destruct (looks_absolute filename); [tauto|]. split.
  - intros H. right. intros (d & c & Hc & ->).
    apply append_cancel_r in H. rewrite (strip_snoc d c Hc) in H.
    now apply (snoc_longer d c).
  - intros [H|H]; [discriminate|].
    assert (Hid : strip_trailing_separator dir = dir).
    { pose proof (strip_trailing_separator_spec dir) as Hs.
      remember (strip_trailing_separator dir) as s eqn:Es. clear Es.
      destruct Hs as [d c Hc|d Hno]; [|reflexivity].
      destruct H. now exists d, c. }
    now rewrite Hid.
Qed.

Lemma replace_separators_app (a b : string) :
  replace_separators (a +:+ b) = replace_separators a +:+ replace_separators b.
Proof.
  unfold replace_separators. now rewrite chars_app, map_app, str_app.
Qed.

Lemma path_join_plain (name : string) :
  plain_name name -> path_join_UPLOAD_DIR name = UPLOAD_DIR +:+ "/" +:+ name.
Proof.
  intros (H1 & H2 & H3 & _). unfold path_join_UPLOAD_DIR.
  apply String.eqb_neq in H1, H2, H3. now rewrite H1, H2, H3.
Qed.

Lemma joined_has_slash (dir filename s : string) :
  dir +:+ "/" +:+ filename = s -> In slash (chars s).
Proof.
  intros <-. rewrite !chars_app. apply in_or_app. right. now left.
Qed.

Lemma legacy_filePath_not_special (dir filename : string) :
  LegacyServer.filePath dir filename <> "" /\
  LegacyServer.filePath dir filename <> "." /\
  LegacyServer.filePath dir filename <> "..".
Proof.
  unfold LegacyServer.filePath.
  destruct (looks_absolute filename) eqn:Ha.
  - repeat split; intros ->; discriminate.
  - repeat split; intros H; apply joined_has_slash in H; simpl in H;
      intuition discriminate.
Qed.

Lemma legacy_savePath_inside (dir filename : string) :
  inside_UPLOAD_DIR
    (LegacyServer.savePath_of (LegacyServer.filePath dir filename)).
Proof.
  destruct (legacy_filePath_not_special dir filename) as (H1 & H2 & H3).
  assert (Hp : plain_name
                 (replace_separators (LegacyServer.filePath dir filename))).
  { repeat split.
    - now rewrite replace_separators_empty.
    - now rewrite replace_separators_dot.
    - now rewrite replace_separators_dots.
    - apply replace_separators_no_sep. }
  exists (replace_separators (LegacyServer.filePath dir filename)).
  split; [|exact Hp]. unfold LegacyServer.savePath_of.
  now apply path_join_plain.
Qed.

Lemma socket_open_OPEN_legacy (st : state) :
  socket_open st = true -> agentSocket st = Some OPEN.
Proof. unfold socket_open. now destruct (agentSocket st) as [[]|]. Qed.

Lemma inside_not_directory (s : string) :
  inside_UPLOAD_DIR s -> LegacyServer.is_directory s = false.
Proof. now intros (name & -> & _). Qed.

Lemma exists_file (savePath : string) (st : state) :
  LegacyServer.is_directory savePath = false ->
  LegacyServer.existsSync savePath st =
  bool_decide (is_Some (uploads st !! savePath)).
Proof. unfold LegacyServer.existsSync. now intros ->. Qed.

(** Whether or not a file was left there, the place is empty after the
    clearing, and nothing else has changed. *)
Lemma remove_stale_clears (savePath : string) (st : state) :
  LegacyServer.is_directory savePath = false ->
  LegacyServer.remove_stale savePath st =
  Ok tt (set_uploads (fun m => delete savePath m) st).
Proof.
  intros Hd. unfold LegacyServer.remove_stale.
  rewrite (exists_file savePath st Hd).
  unfold LegacyServer.unlinkSync, Server.unlinkSync. rewrite Hd.
  destruct (uploads st !! savePath) as [x|] eqn:Hu.
  - now rewrite bool_decide_eq_true_2 by eauto.
  - rewrite bool_decide_eq_false_2 by (intros [? ?]; discriminate).
    f_equal. destruct st. unfold set_uploads. cbn in *.
    now rewrite (delete_id _ _ Hu).
Qed.

(** X18: the place where the earlier file view looks for its file, and
    which it clears first, lies directly inside the upload directory,
    whatever the two route parameters are; so the clearing removes a
    staged file or nothing. *)
Theorem legacy_view_stays_inside_UPLOAD_DIR (dir filename : string)
    (st : state) :
  inside_UPLOAD_DIR
    (LegacyServer.savePath_of (LegacyServer.filePath dir filename)) /\
  LegacyServer.remove_stale
    (LegacyServer.savePath_of (LegacyServer.filePath dir filename)) st =
  Ok tt (set_uploads
           (fun m => delete (LegacyServer.savePath_of
                               (LegacyServer.filePath dir filename)) m) st).
Proof.
  split; [apply legacy_savePath_inside|].
  apply remove_stale_clears, inside_not_directory, legacy_savePath_inside.
Qed.

Lemma legacy_ws_on_message_file (path content : string) (st : state) :
  stageable path = true ->
  Legacy.ws_on_message (Some (file_message path content)) st =
  Ok tt (console (LogReceivedFile (replace_separators path) path)
           (set_uploads (fun m => <[staged path := FromBase64 content]> m)
              (console (LogReceivedMessage (file_message path content)) st))).
Proof.
  unfold stageable, staged. intros Hs.
  apply andb_true_iff in Hs as [H1 H2].
  apply negb_true_iff in H1. apply negb_true_iff in H2.
  unfold Legacy.ws_on_message, file_message, bind, or_throw, ret, effect.
  cbn [get own_property String.eqb Ascii.eqb Bool.eqb is_literal].
  unfold Legacy.on_file_message, bind, or_throw, ret, effect.
  cbn [get own_property String.eqb Ascii.eqb Bool.eqb Buffer_from].
  unfold ret, writeFileSync, effect. now rewrite H1, H2.
Qed.

(** The state in which the earlier file view waits for its file. *)
Lemma legacy_view_turn (p : LegacyServer.process) (dir filename : string) :
  alive (LegacyServer.base p) = true ->
  socket_open (LegacyServer.base p) = true ->
  let st := LegacyServer.base p in
  let fp := LegacyServer.filePath dir filename in
  let savePath := LegacyServer.savePath_of fp in
  LegacyServer.step p (LegacyServer.HttpFileView dir filename) =
  Some (LegacyServer.Process
          (add_event (SentFile (next_req st, 0) fp)
             (set_uploads (fun m => delete savePath m) (new_request st)))
          (<[next_req st :=
               LegacyServer.ViewPolling savePath (now st + 15000) (now st + 100)]>
             (LegacyServer.views p))).
Proof.
  intros Halive Hopen st fp savePath.
  pose proof (inside_not_directory _
                (legacy_savePath_inside dir filename)) as Hd.
  fold fp in Hd. fold savePath in Hd.
  unfold LegacyServer.step. rewrite Halive. cbn [negb]. f_equal.
  unfold LegacyServer.get_file_view.
  cbn [LegacyServer.base LegacyServer.on_base LegacyServer.views].
  change (socket_open (new_request (LegacyServer.base p)))
    with (socket_open (LegacyServer.base p)).
  rewrite Hopen. cbn [negb]. fold fp. fold savePath. unfold bind.
  rewrite (remove_stale_clears savePath _ Hd).
  unfold agentSocket_send.
  change (agentSocket (set_uploads _ (new_request (LegacyServer.base p))))
    with (agentSocket (LegacyServer.base p)).
  rewrite (socket_open_OPEN_legacy _ Hopen).
  unfold LegacyServer.view_poll. cbn [LegacyServer.base].
  rewrite (exists_file savePath _ Hd). st_simpl.
  rewrite lookup_delete_eq.
  rewrite bool_decide_eq_false_2 by (intros [? ?]; discriminate).
  cbn [negb andb].
  assert (Hlt : (now (LegacyServer.base p) <? now (LegacyServer.base p) + 15000)%Z
                = true) by (apply Z.ltb_lt; lia).
  rewrite Hlt. reflexivity.
Qed.

(** X19: the earlier file view from the request to the deletion.  Whatever
    was left under the staging name is removed first, so only a file
    that arrives after the request is served; an arrival staged under
    that name is found at the next look and, its path not beginning
    with a dot, sent as the answer, and deleted when the send has
    succeeded. *)
Theorem legacy_file_view_round_trip (p : LegacyServer.process)
    (dir filename path content : string) (dt : Z) :
  alive (LegacyServer.base p) = true ->
  socket_open (LegacyServer.base p) = true ->
  stageable path = true -> startsWith path "." = false ->
  replace_separators path =
    replace_separators (LegacyServer.filePath dir filename) ->
  (100 <= dt)%Z ->
  let req := next_req (LegacyServer.base p) in
  let savePath :=
    LegacyServer.savePath_of (LegacyServer.filePath dir filename) in
  exists p1 p2 p3 p4,
    LegacyServer.step p (LegacyServer.HttpFileView dir filename) = Some p1 /\
    uploads (LegacyServer.base p1) !! savePath = None /\
    new_events (LegacyServer.base p) (LegacyServer.base p1) =
      [SentFile (req, 0) (LegacyServer.filePath dir filename)] /\
    LegacyServer.run p1
      [LegacyServer.AgentMessage (Some (file_message path content));
       LegacyServer.Tick dt] = Some p2 /\
    LegacyServer.step p2 (LegacyServer.ViewWake req) = Some p3 /\
    new_events (LegacyServer.base p2) (LegacyServer.base p3) =
      [Responded req (File savePath)] /\
    LegacyServer.step p3 (LegacyServer.SendFileDone req false) = Some p4 /\
    alive (LegacyServer.base p4) = true /\
    uploads (LegacyServer.base p4) !! savePath = None.
Proof.
  intros Halive Hopen Hst Hdot Hsame Hdt req savePath.
  set (st := LegacyServer.base p).
  set (fp := LegacyServer.filePath dir filename).
  assert (Hstaged : staged path = savePath).
  { unfold staged, savePath, LegacyServer.savePath_of. now rewrite Hsame. }
  assert (Hsend : send_refused savePath = false).
  { rewrite <- Hstaged, SendFacts.send_refused_staged by exact Hst. exact Hdot. }
  pose proof (inside_not_directory _
                (legacy_savePath_inside dir filename)) as Hd.
  fold savePath in Hd.
  set (st1 := add_event (SentFile (req, 0) fp)
                (set_uploads (fun m => delete savePath m) (new_request st))).
  set (p1 := LegacyServer.Process st1
               (<[req := LegacyServer.ViewPolling savePath
                           (now st + 15000) (now st + 100)]>
                  (LegacyServer.views p))).
  set (st2 := set_now (fun t => (t + dt)%Z)
                (console (LogReceivedFile (replace_separators path) path)
                   (set_uploads
                      (fun m => <[staged path := FromBase64 content]> m)
                      (console (LogReceivedMessage (file_message path content))
                         st1)))).
  set (p2 := LegacyServer.Process st2 (LegacyServer.views p1)).
  set (p3 := LegacyServer.set_view req (LegacyServer.ViewSending savePath)
               (LegacyServer.on_base (respond req (File savePath))
                  (LegacyServer.del_view req p2))).
  set (p4 := LegacyServer.Process
               (set_uploads (fun m => delete savePath m) (LegacyServer.base p3))
               (delete req (LegacyServer.views p3))).
  assert (Hfile : uploads st2 !! savePath = Some (FromBase64 content)).
  { unfold st2. st_simpl. rewrite Hstaged. apply lookup_insert_eq. }
  exists p1, p2, p3, p4.
  split; [exact (legacy_view_turn p dir filename Halive Hopen)|].
  split; [unfold p1, st1; cbn [LegacyServer.base]; st_simpl;
          apply lookup_delete_eq|].
  split.
  { apply new_events_app. unfold p1, st1, events. cbn [LegacyServer.base].
    st_simpl. now rewrite map_app. }
  split.
  { cbn [LegacyServer.run]. unfold LegacyServer.step at 1.
    change (alive (LegacyServer.base p1)) with (alive st).
    unfold st. rewrite Halive. cbn [negb]. cbn [LegacyServer.base p1].
    rewrite (legacy_ws_on_message_file path content st1 Hst).
    unfold LegacyServer.step. cbn [LegacyServer.base].
    change (alive (console _ _)) with (alive (LegacyServer.base p)).
    rewrite Halive. cbn [negb].
    assert (H0 : (0 <=? dt)%Z = true) by (apply Z.leb_le; lia).
    now rewrite H0. }
  split.
  { unfold LegacyServer.step.
    change (alive (LegacyServer.base p2)) with (alive (LegacyServer.base p)).
    rewrite Halive. cbn [negb].
    assert (Hv : LegacyServer.views p2 !! req =
                 Some (LegacyServer.ViewPolling savePath
                         (now st + 15000) (now st + 100))).
    { unfold p2, p1. cbn [LegacyServer.views]. apply lookup_insert_eq. }
    rewrite Hv.
    change (now (LegacyServer.base p2)) with (now st + dt)%Z.
    assert (Hw : (now st + 100 <=? now st + dt)%Z = true)
      by (apply Z.leb_le; lia).
    rewrite Hw. f_equal.
    unfold LegacyServer.view_poll, LegacyServer.view_finish.
    cbn [LegacyServer.base LegacyServer.del_view p2].
    rewrite (exists_file savePath st2 Hd), Hfile.
    rewrite bool_decide_eq_true_2 by eauto. cbn [negb andb].
    now rewrite Hsend. }
  split.
  { apply new_events_app. unfold p3, events.
    cbn [LegacyServer.base LegacyServer.set_view LegacyServer.on_base
         LegacyServer.del_view p2].
    st_simpl. now rewrite map_app. }
  assert (Hfile3 : uploads (LegacyServer.base p3) !! savePath =
                   Some (FromBase64 content)) by exact Hfile.
  split.
  { unfold LegacyServer.step.
    change (alive (LegacyServer.base p3)) with (alive (LegacyServer.base p)).
    rewrite Halive. cbn [negb].
    assert (Hv : LegacyServer.views p3 !! req =
                 Some (LegacyServer.ViewSending savePath)).
    { unfold p3. cbn [LegacyServer.views LegacyServer.set_view].
      apply lookup_insert_eq. }
    rewrite Hv. unfold Legacy.sendFile_callback, Server.unlinkSync.
    cbn [negb]. now rewrite Hfile3. }
  split; [exact Halive|].
  unfold p4. cbn [LegacyServer.base]. st_simpl. apply lookup_delete_eq.
Qed.

(** X20: in the earlier revision the deletion after a send is not guarded:
    when two file views were answered from the same staged file, the
    first deletion succeeds and the second one throws, which ends the
    process. *)
Theorem legacy_second_deletion_ends_the_process (p : LegacyServer.process)
    (r1 r2 : nat) (savePath : string) :
  alive (LegacyServer.base p) = true -> r1 <> r2 ->
  LegacyServer.views p !! r1 = Some (LegacyServer.ViewSending savePath) ->
  LegacyServer.views p !! r2 = Some (LegacyServer.ViewSending savePath) ->
  is_Some (uploads (LegacyServer.base p) !! savePath) ->
  exists p1 p2,
    LegacyServer.step p (LegacyServer.SendFileDone r1 false) = Some p1 /\
    alive (LegacyServer.base p1) = true /\
    LegacyServer.step p1 (LegacyServer.SendFileDone r2 false) = Some p2 /\
    alive (LegacyServer.base p2) = false /\
    new_events (LegacyServer.base p1) (LegacyServer.base p2) =
      [Uncaught (FsError "ENOENT")].
Proof.
  intros Halive Hne H1 H2 [x Hx].
  set (st1 := set_uploads (fun m => delete savePath m) (LegacyServer.base p)).
  exists (LegacyServer.Process st1 (delete r1 (LegacyServer.views p))).
  exists (LegacyServer.Process (crash (FsError "ENOENT") st1)
            (delete r2 (delete r1 (LegacyServer.views p)))).
  split.
  { unfold LegacyServer.step. rewrite Halive, H1. cbn [negb].
    unfold Legacy.sendFile_callback, Server.unlinkSync. cbn [negb].
    now rewrite Hx. }
  split; [exact Halive|]. split.
  { unfold LegacyServer.step. cbn [LegacyServer.base LegacyServer.views].
    change (alive st1) with (alive (LegacyServer.base p)).
    rewrite Halive. cbn [negb].
    rewrite lookup_delete_ne, H2 by exact Hne.
    unfold Legacy.sendFile_callback, Server.unlinkSync. cbn [negb].
    unfold st1 at 1. st_simpl. now rewrite lookup_delete_eq. }
  split; [reflexivity|].
  apply new_events_app. unfold events. cbn [LegacyServer.base]. st_simpl.
  now rewrite map_app.
Qed.

End LegacyFacts.

(** ** The deadline of the earlier file view *)

Module LegacyDeadlineFacts.
Import JsString JsStringFacts Js Server StateFacts Invariants StructureFacts
  TraceFacts LegacyFacts.

Lemma bind_adds {A B} (P : event -> Prop) (m : M A) (k : A -> M B) (st : state) :
  adds P st (outcome_state (m st)) ->
  (forall a s1, m st = Ok a s1 -> adds P s1 (outcome_state (k a s1))) ->
  adds P st (outcome_state (bind m k st)).
Proof.
  intros Hm Hk. unfold bind. destruct (m st) as [a s1|e s1]; simpl in *.
  - eapply adds_trans; [exact Hm|]. now apply Hk.
  - exact Hm.
Qed.

Lemma or_throw_adds {A} (P : event -> Prop) (e : exn) (o : option A) st :
  adds P st (outcome_state (or_throw e o st)).
Proof. destruct o; apply adds_refl. Qed.

Lemma or_throw_state {A} (e : exn) (o : option A) st a s1 :
  or_throw e o st = Ok a s1 -> s1 = st.
Proof. destruct o; simpl; unfold ret, throw; now intros [=]. Qed.

Lemma Buffer_from_state (content : value) st :
  outcome_state (Buffer_from content st) = st.
Proof.
  unfold Buffer_from, ret, throw. destruct content as [[]|]; try reflexivity.
  repeat match goal with
         | |- context [match ?x with _ => _ end] => destruct x
         end; reflexivity.
Qed.

Lemma writeFileSync_adds (P : event -> Prop) sp b st :
  adds P st (outcome_state (writeFileSync sp b st)).
Proof.
  unfold writeFileSync, throw, effect.
  destruct (_ || _); [apply adds_refl|].
  destruct (has_nul _); [apply adds_refl|]. simpl. adds_tac.
Qed.

Lemma effect_adds (P : event -> Prop) (f : state -> state) st :
  adds P st (f st) -> adds P st (outcome_state (effect f st)).
Proof. now unfold effect. Qed.

Lemma legacy_on_file_adds (P : event -> Prop) data st :
  (forall l, P (Console l)) ->
  adds P st (outcome_state (Legacy.on_file_message data st)).
Proof.
  intros HP. unfold Legacy.on_file_message.
  apply bind_adds; [apply or_throw_adds|].
  intros path s1 H1. apply or_throw_state in H1 as ->.
  destruct path as [[]|]; try apply adds_refl.
  apply bind_adds; [apply or_throw_adds|].
  intros content s1 H1. apply or_throw_state in H1 as ->.
  apply bind_adds; [rewrite Buffer_from_state; apply adds_refl|].
  intros buffer s1 H1.
  assert (s1 = st) as ->.
  { pose proof (Buffer_from_state content st) as H. now rewrite H1 in H. }
  apply bind_adds; [apply writeFileSync_adds|].
  intros [] s1 _. apply effect_adds. adds_tac.
Qed.

Lemma on_dir_list_adds (P : event -> Prop) data st :
  (forall l, P (Console l)) ->
  adds P st (outcome_state (on_dir_list_message data st)).
Proof.
  intros HP. unfold on_dir_list_message.
  apply bind_adds; [apply or_throw_adds|].
  intros dir s1 H1. apply or_throw_state in H1 as ->.
  apply bind_adds; [apply or_throw_adds|].
  intros files s1 H1. apply or_throw_state in H1 as ->.
  apply bind_adds; [apply or_throw_adds|].
  intros key s1 H1. apply or_throw_state in H1 as ->.
  apply bind_adds; [apply effect_adds; adds_tac|].
  intros [] s1 _.
  destruct files as [[]|]; try apply adds_refl;
    (apply bind_adds; [apply or_throw_adds|]);
    intros count s2 H2; apply or_throw_state in H2 as ->;
    apply effect_adds; adds_tac.
Qed.

Lemma legacy_ws_on_message_adds (P : event -> Prop) message st :
  (forall l, P (Console l)) ->
  adds P st (outcome_state (Legacy.ws_on_message message st)).
Proof.
  intros HP. unfold Legacy.ws_on_message.
  apply bind_adds; [apply or_throw_adds|].
  intros data s1 H1. apply or_throw_state in H1 as ->.
  apply bind_adds; [apply effect_adds; adds_tac|].
  intros [] s1 _.
  apply bind_adds; [apply or_throw_adds|].
  intros type s2 H2. apply or_throw_state in H2 as ->.
  apply bind_adds.
  - destruct (is_literal type "file"); [now apply legacy_on_file_adds|].
    apply adds_refl.
  - intros [] s2 _.
    destruct (is_literal type "dir_list"); [now apply on_dir_list_adds|].
    apply adds_refl.
Qed.

Lemma view_timely_adds (st st' : state) :
  LegacyServer.view_timely (trace st) ->
  adds (fun e => LegacyServer.is_upload_timeout e = false) st st' ->
  LegacyServer.view_timely (trace st').
Proof.
  intros Ht Ha t r Hin.
  destruct (adds_new _ _ _ _ _ Ha Hin) as [Hold|[_ Hnew]].
  - destruct (Ht t r Hold) as (t0 & fp & H0 & Hle).
    exists t0, fp. split; [|exact Hle]. now apply (adds_trace_mono _ _ _ _ Ha).
  - discriminate.
Qed.

Lemma views_linked_mono (p : LegacyServer.process) (st' : state) :
  LegacyServer.views_linked p ->
  (forall x, x ∈ trace (LegacyServer.base p) -> x ∈ trace st') ->
  LegacyServer.views_linked (LegacyServer.Process st' (LegacyServer.views p)).
Proof.
  intros Hl Hm r sp timeout wake Hv.
  destruct (Hl r sp timeout wake Hv) as (Hd & fp & Hin).
  split; [exact Hd|]. exists fp. now apply Hm.
Qed.

Lemma views_linked_del (p : LegacyServer.process) (req : nat) :
  LegacyServer.views_linked p ->
  LegacyServer.views_linked (LegacyServer.del_view req p).
Proof.
  intros Hl r sp timeout wake Hv. cbn [LegacyServer.del_view LegacyServer.views] in Hv.
  apply lookup_delete_Some in Hv as [_ Hv]. exact (Hl r sp timeout wake Hv).
Qed.

Lemma view_poll_timely (p : LegacyServer.process) (req : nat)
    (savePath : string) (timeout : Z) :
  LegacyServer.view_timely (trace (LegacyServer.base p)) ->
  LegacyServer.views_linked p ->
  LegacyServer.is_directory savePath = false ->
  (exists fp, ((timeout - 15000)%Z, SentFile (req, 0) fp)
                ∈ trace (LegacyServer.base p)) ->
  LegacyServer.view_timely
    (trace (LegacyServer.base (LegacyServer.view_poll req savePath timeout p))) /\
  LegacyServer.views_linked (LegacyServer.view_poll req savePath timeout p).
Proof.
  intros Ht Hl Hd (fp & Hfp).
  unfold LegacyServer.view_poll, LegacyServer.view_finish.
  destruct (LegacyServer.existsSync savePath (LegacyServer.base p)) eqn:Hex;
    cbn [negb andb].
  - destruct (send_refused savePath).
    { cbn [Legacy.sendFile_callback negb]. unfold ret.
      split; [exact Ht|exact Hl]. }
    split.
    + apply (view_timely_adds (LegacyServer.base p)); [exact Ht|].
      cbn [LegacyServer.base LegacyServer.set_view LegacyServer.on_base].
      adds_tac.
    + intros r sp to wk Hv.
      cbn [LegacyServer.views LegacyServer.set_view LegacyServer.on_base
           LegacyServer.base] in *.
      destruct (decide (req = r)) as [<-|Hne].
      * rewrite lookup_insert_eq in Hv. discriminate.
      * rewrite lookup_insert_ne in Hv by exact Hne.
        destruct (Hl r sp to wk Hv) as (Hd' & fp' & Hin).
        split; [exact Hd'|]. exists fp'. st_simpl.
        apply elem_of_app. now left.
  - destruct (now (LegacyServer.base p) <? timeout)%Z eqn:Hlt.
    + split; [exact Ht|].
      intros r sp to wk Hv.
      cbn [LegacyServer.views LegacyServer.set_view LegacyServer.base] in *.
      destruct (decide (req = r)) as [<-|Hne].
      * rewrite lookup_insert_eq in Hv. injection Hv as <- <- <-.
        split; [exact Hd|]. now exists fp.
      * rewrite lookup_insert_ne in Hv by exact Hne.
        exact (Hl r sp to wk Hv).
    + apply Z.ltb_ge in Hlt. split.
      * intros t r Hin.
        cbn [LegacyServer.base LegacyServer.on_base] in Hin. st_simpl.
        apply elem_of_app in Hin as [Hin|Hin].
        -- destruct (Ht t r Hin) as (t0 & fp' & H0 & Hle).
           exists t0, fp'. split; [|exact Hle]. apply elem_of_app. now left.
        -- apply list_elem_of_singleton in Hin. injection Hin as -> ->.
           exists (timeout - 15000)%Z, fp. split; [|lia].
           apply elem_of_app. now left.
      * apply (views_linked_mono p); [exact Hl|].
        intros x Hx. st_simpl. apply elem_of_app. now left.
Qed.

Lemma legacy_get_file_view_timely (p : LegacyServer.process) (req : nat)
    (dir filename : string) :
  LegacyServer.view_timely (trace (LegacyServer.base p)) ->
  LegacyServer.views_linked p ->
  LegacyServer.view_timely
    (trace (LegacyServer.base (LegacyServer.get_file_view req dir filename p))) /\
  LegacyServer.views_linked (LegacyServer.get_file_view req dir filename p).
Proof.
  intros Ht Hl. unfold LegacyServer.get_file_view.
  destruct (socket_open (LegacyServer.base p)) eqn:Hopen; cbn [negb].
  2:{ split.
      - apply (view_timely_adds (LegacyServer.base p)); [exact Ht|].
        cbn [LegacyServer.base LegacyServer.on_base]. adds_tac.
      - apply (views_linked_mono p); [exact Hl|].
        intros x Hx. st_simpl. apply elem_of_app. now left. }
  pose proof (inside_not_directory _
                (legacy_savePath_inside dir filename)) as Hd.
  unfold bind. rewrite (remove_stale_clears _ _ Hd).
  unfold agentSocket_send.
  change (agentSocket (set_uploads _ (LegacyServer.base p)))
    with (agentSocket (LegacyServer.base p)).
  rewrite (socket_open_OPEN_legacy _ Hopen).
  set (st1 := add_event _ _).
  apply view_poll_timely.
  - apply (view_timely_adds (LegacyServer.base p)); [exact Ht|].
    unfold st1. adds_tac.
  - apply (views_linked_mono p); [exact Hl|].
    intros x Hx. unfold st1. st_simpl. apply elem_of_app. now left.
  - exact Hd.
  - exists (LegacyServer.filePath dir filename).
    replace (now st1 + 15000 - 15000)%Z with (now st1) by lia.
    unfold st1. st_simpl. apply elem_of_app. right. now left.
Qed.

Lemma step_view_timely (p p' : LegacyServer.process) (i : LegacyServer.input) :
  LegacyServer.view_timely (trace (LegacyServer.base p)) /\
  LegacyServer.views_linked p ->
  LegacyServer.step p i = Some p' ->
  LegacyServer.view_timely (trace (LegacyServer.base p')) /\
  LegacyServer.views_linked p'.
Proof.
  intros [Ht Hl] Hstep. unfold LegacyServer.step in Hstep.
  destruct (negb (alive (LegacyServer.base p))); [discriminate|].
  destruct i.
  - destruct (0 <=? dt)%Z; [|discriminate]. injection Hstep as <-.
    split; [exact Ht|]. now apply (views_linked_mono p).
  - injection Hstep as <-. split.
    + apply (view_timely_adds (LegacyServer.base p)); [exact Ht|].
      cbn [LegacyServer.base LegacyServer.on_base]. adds_tac.
    + apply (views_linked_mono p); [exact Hl|].
      intros x Hx. st_simpl. apply elem_of_app. now left.
  - destruct (agentSocket (LegacyServer.base p)); [|discriminate].
    injection Hstep as <-. split; [exact Ht|]. now apply (views_linked_mono p).
  - injection Hstep as <-. split.
    + apply (view_timely_adds (LegacyServer.base p)); [exact Ht|].
      cbn [LegacyServer.base LegacyServer.on_base]. adds_tac.
    + apply (views_linked_mono p); [exact Hl|].
      intros x Hx. st_simpl. apply elem_of_app. now left.
  - pose proof (legacy_ws_on_message_adds
                  (fun e => LegacyServer.is_upload_timeout e = false)
                  message (LegacyServer.base p) (fun _ => eq_refl)) as Ha.
    destruct (Legacy.ws_on_message message (LegacyServer.base p))
      as [[] st1|e st1]; injection Hstep as <-; simpl in Ha.
    + split.
      * now apply (view_timely_adds (LegacyServer.base p)).
      * apply (views_linked_mono p); [exact Hl|].
        intros x. now apply (adds_trace_mono _ _ _ _ Ha).
    + split.
      * apply (view_timely_adds (LegacyServer.base p)); [exact Ht|].
        cbn [LegacyServer.base]. adds_tac.
      * apply (views_linked_mono p); [exact Hl|].
        intros x Hx. st_simpl. apply elem_of_app. left.
        now apply (adds_trace_mono _ _ _ _ Ha).
  - injection Hstep as <-. apply legacy_get_file_view_timely.
    + exact Ht.
    + now apply (views_linked_mono p).
  - destruct (LegacyServer.views p !! req) as [[sp to wk|]|] eqn:Hv;
      try discriminate.
    destruct (wk <=? now (LegacyServer.base p))%Z; [|discriminate].
    injection Hstep as <-.
    destruct (Hl req sp to wk Hv) as (Hd & fp & Hfp).
    apply view_poll_timely.
    + exact Ht.
    + now apply views_linked_del.
    + exact Hd.
    + now exists fp.
  - destruct (LegacyServer.views p !! req) as [[|sp]|] eqn:Hv; try discriminate.
    assert (Hl' : LegacyServer.views_linked
                    (LegacyServer.Process (LegacyServer.base p)
                       (delete req (LegacyServer.views p)))).
    { apply (views_linked_del p req Hl). }
    unfold Legacy.sendFile_callback, Server.unlinkSync, ret in Hstep.
    destruct err; cbn [negb] in Hstep.
    + injection Hstep as <-. now split.
    + destruct (uploads (LegacyServer.base p) !! sp);
        injection Hstep as <-.
      * split; [exact Ht|].
        exact (views_linked_mono
                 (LegacyServer.Process (LegacyServer.base p)
                    (delete req (LegacyServer.views p)))
                 (set_uploads (fun m => delete sp m) (LegacyServer.base p))
                 Hl' (fun x Hx => Hx)).
      * split.
        -- apply (view_timely_adds (LegacyServer.base p)); [exact Ht|].
           cbn [LegacyServer.base]. adds_tac.
        -- assert (Hm : forall x, x ∈ trace (LegacyServer.base p) ->
                                  x ∈ trace (crash (FsError "ENOENT")
                                               (LegacyServer.base p))).
           { intros x Hx. st_simpl. apply elem_of_app. now left. }
           exact (views_linked_mono
                    (LegacyServer.Process (LegacyServer.base p)
                       (delete req (LegacyServer.views p)))
                    (crash (FsError "ENOENT") (LegacyServer.base p)) Hl' Hm).
Qed.

Lemma reachable_view_timely (p : LegacyServer.process) :
  LegacyServer.reachable p ->
  LegacyServer.view_timely (trace (LegacyServer.base p)) /\
  LegacyServer.views_linked p.
Proof.
  intros [inputs Hrun].
  assert (H0 : LegacyServer.view_timely (trace (LegacyServer.base LegacyServer.init)) /\
               LegacyServer.views_linked LegacyServer.init).
  { split.
    - intros t r Hin. now apply elem_of_nil in Hin.
    - intros r sp to wk Hv. cbn in Hv. now rewrite lookup_empty in Hv. }
  revert Hrun H0. generalize LegacyServer.init as s.
  induction inputs as [|i rest IH]; intros s Hrun H0; simpl in Hrun.
  - now injection Hrun as <-.
  - destruct (LegacyServer.step s i) as [s1|] eqn:Hs; [|discriminate].
    apply (IH s1 Hrun). now apply (step_view_timely s s1 i).
Qed.

(** X21: the earlier file view gives up only when its 15 s are over: every
    504 "File upload timeout" comes at least 15 s after the request for
    the file was sent; a look that finds no file before the deadline
    sleeps 100 ms more, and one at or after the deadline answers 504. *)
Theorem legacy_view_gives_up_only_after_its_deadline (p : LegacyServer.process) :
  LegacyServer.reachable p ->
  (forall t r,
     (t, Responded r LegacyServer.upload_timeout) ∈ trace (LegacyServer.base p) ->
     exists t0 fp,
       (t0, SentFile (r, 0) fp) ∈ trace (LegacyServer.base p) /\
       (t0 + 15000 <= t)%Z) /\
  (forall r savePath timeout wake p',
     LegacyServer.views p !! r =
       Some (LegacyServer.ViewPolling savePath timeout wake) ->
     uploads (LegacyServer.base p) !! savePath = None ->
     LegacyServer.step p (LegacyServer.ViewWake r) = Some p' ->
     (wake <= now (LegacyServer.base p))%Z /\
     (exists fp, ((timeout - 15000)%Z, SentFile (r, 0) fp)
                   ∈ trace (LegacyServer.base p)) /\
     if (now (LegacyServer.base p) <? timeout)%Z
     then LegacyServer.views p' !! r =
            Some (LegacyServer.ViewPolling savePath timeout
                    (now (LegacyServer.base p) + 100)) /\
          new_events (LegacyServer.base p) (LegacyServer.base p') = []
     else LegacyServer.views p' !! r = None /\
          new_events (LegacyServer.base p) (LegacyServer.base p') =
            [Responded r LegacyServer.upload_timeout]).
Proof.
  intros Hreach. destruct (reachable_view_timely p Hreach) as [Ht Hl].
  split; [exact Ht|].
  intros r sp timeout wake p' Hv Hnone Hstep.
  destruct (Hl r sp timeout wake Hv) as (Hd & fp & Hfp).
  unfold LegacyServer.step in Hstep.
  destruct (negb (alive (LegacyServer.base p))); [discriminate|].
  rewrite Hv in Hstep.
  destruct (wake <=? now (LegacyServer.base p))%Z eqn:Hw; [|discriminate].
  injection Hstep as <-. apply Z.leb_le in Hw.
  split; [exact Hw|]. split; [now exists fp|].
  unfold LegacyServer.view_poll, LegacyServer.view_finish.
  cbn [LegacyServer.base LegacyServer.del_view].
  rewrite (exists_file sp _ Hd), Hnone.
  rewrite bool_decide_eq_false_2 by (intros [? ?]; discriminate).
  cbn [negb andb].
  destruct (now (LegacyServer.base p) <? timeout)%Z.
  - split.
    + cbn [LegacyServer.views LegacyServer.set_view]. apply lookup_insert_eq.
    + apply new_events_app. cbn [LegacyServer.base LegacyServer.set_view].
      now rewrite app_nil_r.
  - split.
    + cbn [LegacyServer.views LegacyServer.on_base]. apply lookup_delete_eq.
    + apply new_events_app. cbn [LegacyServer.base LegacyServer.on_base].
      unfold events. st_simpl. now rewrite map_app.
Qed.

End LegacyDeadlineFacts.

(** ** What is staged, and where *)

Module StagingLaws.
Import JsString JsStringFacts Spec Js Server StateFacts Invariants WaiterFacts
  StructureFacts ListingFacts TimeoutFacts Staging StoreFacts
  UnstageableFacts LegacyFacts.

Lemma replace_separators_idem (p : string) :
  replace_separators (replace_separators p) = replace_separators p.
Proof.
  unfold replace_separators. rewrite chars_str, map_map. f_equal.
  apply map_ext. intros c. destruct (is_sep c) eqn:Hc; [reflexivity|].
  now rewrite Hc.
Qed.

Lemma append_cancel_l (s a b : string) : s +:+ a = s +:+ b -> a = b.
Proof.
  intros H. apply chars_inj. apply (f_equal chars) in H.
  rewrite !chars_app in H. now apply app_inv_head in H.
Qed.

Lemma stageable_plain (p : string) :
  stageable p = true -> plain_name (replace_separators p).
Proof.
  intros Hs.
  assert (Hn : ~ (p = "" \/ p = "." \/ p = ".." \/ has_nul p = true)).
  { intros H. apply stageable_false in H. congruence. }
  repeat split.
  - rewrite replace_separators_empty. tauto.
  - rewrite replace_separators_dot. tauto.
  - rewrite replace_separators_dots. tauto.
  - apply replace_separators_no_sep.
Qed.

Lemma staged_plain (p : string) :
  stageable p = true ->
  staged p = UPLOAD_DIR +:+ "/" +:+ replace_separators p.
Proof. intros Hs. unfold staged. now apply path_join_plain, stageable_plain. Qed.

(** X22: two arrivals are staged at the same place exactly when their paths
    are equal once every separator is replaced by an underscore; so a
    path written with separators shares its place with the same path
    written with underscores, and the later arrival overwrites the
    earlier one. *)
Theorem staging_places_collide_up_to_separators (p q : string) :
  stageable p = true -> stageable q = true ->
  (staged p = staged q <-> replace_separators p = replace_separators q) /\
  staged (replace_separators p) = staged p /\
  forall (st : state) b c,
    uploads (set_uploads (fun m => <[staged q := c]> m)
               (set_uploads (fun m => <[staged p := b]> m) st)) !! staged p =
    if bool_decide (replace_separators p = replace_separators q)
    then Some c else Some b.
Proof.
  intros Hp Hq.
  assert (Hiff : staged p = staged q <->
                 replace_separators p = replace_separators q).
  { rewrite (staged_plain p Hp), (staged_plain q Hq). split.
    - intros H. now apply append_cancel_l, append_cancel_l in H.
    - now intros ->. }
  split; [exact Hiff|]. split.
  - unfold staged. now rewrite replace_separators_idem.
  - intros st b c. st_simpl. case_bool_decide as Hrs.
    + apply Hiff in Hrs. rewrite <- Hrs. apply lookup_insert_eq.
    + rewrite lookup_insert_ne by (intros H; apply Hrs, Hiff; congruence).
      apply lookup_insert_eq.
Qed.

Lemma emit_no_match (fd : fileData) (ws : list waiter) :
  forall st,
    (forall w, w ∈ ws ->
               Matching.handler_matches (w_filePath w) (fd_path fd) = false) ->
    fold_left (fun s w => handler w fd s) ws st = st.
Proof.
  induction ws as [|w ws IH]; intros st Hno; cbn [fold_left]; [reflexivity|].
  unfold handler at 2. rewrite (Hno w) by now left.
  apply IH. intros x Hx. apply Hno. now right.
Qed.

(** X23: the message handler stages every file the agent sends, asked for
    or not: an arrival that satisfies no rule of any waiter is written
    into the upload directory all the same, and wakes nobody. *)
Theorem unsolicited_arrival_is_staged (st : state) (path content : string) :
  reachable st -> alive st = true -> stageable path = true ->
  (forall w, w ∈ listeners st -> ~ some_rule_holds (w_filePath w) path) ->
  exists st',
    step st (AgentMessage (Some (file_message path content))) = Some st' /\
    uploads st' = <[staged path := FromBase64 content]> (uploads st) /\
    new_events st st' =
      [Console (LogReceivedFile (replace_separators path) path)] /\
    listeners st' = listeners st /\ tasks st' = tasks st.
Proof.
  intros Hreach Halive Hst Hno.
  destruct (reachable_Good st Hreach) as [_ Hq].
  set (st0 := console (LogReceivedFile (replace_separators path) path)
                (set_uploads (fun m => <[staged path := FromBase64 content]> m) st)).
  assert (Hemit : fileEvents_emit (FileData path (staged path)) st0 = st0).
  { apply emit_no_match. intros w Hw. cbn [fd_path].
    destruct (Matching.handler_matches (w_filePath w) path) eqn:Hm;
      [|reflexivity].
    destruct (Hno w Hw). now apply handler_matches_spec. }
  exists (set_microtasks (fun _ => []) st0). split.
  { unfold step. rewrite Halive. cbn [negb].
    rewrite (ws_on_message_file path content st Hst). fold st0.
    rewrite Hemit. f_equal. now apply drain_nothing. }
  split; [reflexivity|]. split; [|now split].
  apply new_events_app. unfold st0, events. st_simpl. now rewrite map_app.
Qed.

End StagingLaws.

(** ** The agent goes and comes back *)

Module ConnectionFacts.
Import Js Server StateFacts Invariants StructureFacts TraceFacts ListingFacts.

(** X24: the two connection handlers touch the socket variable only.  When
    the agent goes, the routes refuse new requests, but the cache, the
    staged files, the fetches that wait and the requests that are
    suspended stay as they are; when an agent connects, the routes are
    open again at once, for a state that is otherwise the same. *)
Theorem connection_changes_the_socket_only (st : state) :
  alive st = true ->
  exists st1 st2,
    step st AgentCloses = Some st1 /\
    step st1 AgentConnects = Some st2 /\
    socket_open st1 = false /\ socket_open st2 = true /\
    new_events st st2 =
      [Console LogAgentDisconnected; Console LogAgentConnected] /\
    tempDirFiles st2 = tempDirFiles st /\ uploads st2 = uploads st /\
    listeners st2 = listeners st /\ tasks st2 = tasks st /\
    tempDirFiles st1 = tempDirFiles st /\ uploads st1 = uploads st /\
    listeners st1 = listeners st /\ tasks st1 = tasks st.
Proof.
  intros Halive.
  exists (set_agentSocket None (console LogAgentDisconnected st)).
  exists (set_agentSocket (Some OPEN)
            (console LogAgentConnected
               (set_agentSocket None (console LogAgentDisconnected st)))).
  unfold step. rewrite Halive. cbn [negb].
  split; [reflexivity|].
  change (alive (set_agentSocket None (console LogAgentDisconnected st)))
    with (alive st).
  rewrite Halive. cbn [negb].
  split; [reflexivity|]. split; [reflexivity|]. split; [reflexivity|].
  split; [|now repeat split].
  apply new_events_app. unfold events. st_simpl.
  rewrite !map_app, <- app_assoc. reflexivity.
Qed.

End ConnectionFacts.

(** ** The theorems above at concrete runs *)

Module MoreRunFacts.
Import JsString Spec Js Server StateFacts Invariants ArchiveRun Runs RunFacts
  Staging Pushes Answers UploadFiles MoreRuns.

Lemma handler_matches_laws_witness :
  Matching.handler_matches "a\b.txt" "c/a\b.txt" =
  Matching.handler_matches "a/b.txt" "c\a/b.txt".
Proof.
  apply (MatchingLaws.handler_matches_laws "a\b.txt" "c/a\b.txt"
           "a/b.txt" "c\a/b.txt").
  - apply Slashes.same_other, Slashes.same_slash; [now right|now left|].
    repeat apply Slashes.same_other. apply Slashes.same_empty.
  - apply Slashes.same_other, Slashes.same_slash; [now left|now right|].
    apply Slashes.same_other, Slashes.same_slash; [now right|now left|].
    repeat apply Slashes.same_other. apply Slashes.same_empty.
Defined.

Lemma staged_files_stay_inside_UPLOAD_DIR_witness :
  reachable view_sending /\ inside_UPLOAD_DIR "uploads/d_f.txt".
Proof.
  assert (H : reachable view_sending).
  { apply reachable_after. vm_compute. eauto. }
  split; [exact H|].
  apply (StoreFacts.staged_files_stay_inside_UPLOAD_DIR view_sending
           "uploads/d_f.txt" H).
  vm_compute. eauto.
Defined.

Lemma cache_is_changed_by_messages_only_witness :
  exists st',
    run listing_pushed [HttpFiles "/sdcard/dl"; AgentCloses; Tick 5] = Some st' /\
    tempDirFiles st' = tempDirFiles listing_pushed.
Proof.
  assert (H : is_Some (run listing_pushed
                         [HttpFiles "/sdcard/dl"; AgentCloses; Tick 5])).
  { vm_compute. eauto. }
  destruct H as [st' H]. exists st'. split; [exact H|].
  apply (StoreFacts.cache_is_changed_by_messages_only listing_pushed st' _ H).
  repeat constructor; intros m; discriminate.
Defined.

Lemma staged_file_goes_only_after_its_view_witness :
  exists req,
    SendFileDone 0 false = SendFileDone req false /\
    tasks view_sending !! req = Some (ViewSending "uploads/d_f.txt").
Proof.
  apply (StoreFacts.staged_file_goes_only_after_its_view view_sending view_sent).
  - vm_compute. reflexivity.
  - vm_compute. eauto.
  - vm_compute. reflexivity.
Defined.

Lemma pushed_listing_is_returned_as_it_came_witness :
  exists st1 st2,
    step connected
      (AgentMessage (Some (listing_message "d" [JStr "a"; JNum "1"]))) =
      Some st1 /\
    tempDirFiles st1 = <[ "d" := JArr [JStr "a"; JNum "1"] ]> (tempDirFiles connected) /\
    step st1 (HttpFiles "d") = Some st2 /\
    new_events st1 st2 =
      [Responded (next_req connected) (Json (JArr [JStr "a"; JNum "1"]))] /\
    channel st2 = channel connected.
Proof.
  apply ListingRouteFacts.pushed_listing_is_returned_as_it_came.
  - apply reachable_after. vm_compute. eauto.
  - vm_compute. reflexivity.
  - vm_compute. reflexivity.
  - discriminate.
Defined.

Lemma awaited_listing_is_returned_at_next_wake_witness :
  exists st1 st2,
    run listing_wait
      [AgentMessage (Some (listing_message "/sdcard/dl" [JStr "a"])); Tick 0] =
      Some st1 /\
    step st1 (PollWake 0) = Some st2 /\
    new_events st1 st2 = [Responded 0 (Json (JArr [JStr "a"]))] /\
    tasks st2 !! 0 = None /\
    channel st2 = channel listing_wait.
Proof.
  apply (ListingRouteFacts.awaited_listing_is_returned_at_next_wake
           listing_wait 0 "/sdcard/dl" 15000%Z 100%Z).
  - apply reachable_after. vm_compute. eauto.
  - vm_compute. reflexivity.
  - vm_compute. reflexivity.
  - discriminate.
  - lia.
  - vm_compute. discriminate.
Defined.

Lemma refused_requests_change_nothing_witness :
  (exists st',
     step agent_gone (HttpFiles "/sdcard/dl") = Some st' /\
     new_events agent_gone st' = [Responded (next_req agent_gone) not_connected]) /\
  (exists st',
     step connected (HttpDownloadAll "d") = Some st' /\
     new_events connected st' = [Responded (next_req connected) not_loaded]).
Proof.
  split.
  - assert (Ha : alive agent_gone = true) by (vm_compute; reflexivity).
    destruct (proj1 (ListingRouteFacts.refused_requests_change_nothing
                       agent_gone "/sdcard/dl" "f" Ha))
      with (i := HttpFiles "/sdcard/dl") as (st' & H1 & H2 & _).
    + vm_compute. reflexivity.
    + left.
    + exists st'. split; [exact H1|exact H2].
  - assert (Ha : alive connected = true) by (vm_compute; reflexivity).
    destruct (proj2 (ListingRouteFacts.refused_requests_change_nothing
                       connected "d" "f" Ha)) as (st' & H1 & H2 & _).
    + vm_compute. reflexivity.
    + left. split; [vm_compute; reflexivity|]. split.
      * intros H. apply list_elem_of_In in H. simpl in H.
        repeat (destruct H as [H|H]; [discriminate H|]). exact H.
      * vm_compute. reflexivity.
    + exists st'. split; [exact H1|exact H2].
Defined.

Lemma archive_run_without_agent_ends_at_once_witness :
  tasks archive_given_up !! 0 = Some ZipFinalizing /\
  alive archive_given_up = true.
Proof.
  destruct (OfflineFacts.archive_run_without_agent_ends_at_once
              archive_agent_gone archive_given_up 0 "/sdcard/dl" 0
              (JStr "a.jpg") ["b.jpg"; "c.jpg"])
    as (_ & Ht & _ & _ & Ha).
  - apply reachable_after. vm_compute. eauto.
  - vm_compute. reflexivity.
  - vm_compute. reflexivity.
  - vm_compute. reflexivity.
  - split; [exact Ht|exact Ha].
Defined.




Lemma archive_names_have_no_directory_witness :
  reachable archive_done /\ no_slash "a.jpg".
Proof.
  assert (H : reachable archive_done).
  { apply reachable_after. vm_compute. eauto. }
  split; [exact H|].
  refine (proj2 (AnswerFacts.archive_names_have_no_directory archive_done 0
                   "uploads/_sdcard_dl_a.jpg" "a.jpg" H _)).
  compute_eq (events archive_done) E. rewrite E.
  apply list_elem_of_In. simpl. tauto.
Defined.

Lemma every_request_is_answered_at_most_once_witness :
  reachable archive_done /\ length (responses 0 archive_done) <= 1.
Proof.
  assert (H : reachable archive_done).
  { apply reachable_after. vm_compute. eauto. }
  split; [exact H|].
  exact (proj1 (OnceFacts.every_request_is_answered_at_most_once
                  archive_done 0 H)).
Defined.

Lemma upload_files_takes_arrays_only_witness :
  exists line,
    post_upload_files (JObj [("files", JArr [JStr "a"])]) (JArr []) =
    Some (Upload (Json (JObj [("status", JStr "ok"); ("count", JNum "1")]))
            (JArr [JStr "a"]) (Some line)).
Proof.
  apply (proj2 (proj2 (UploadFilesFacts.upload_files_takes_arrays_only
                         (JObj [("files", JArr [JStr "a"])]) (JArr [])
                         (Some (JArr [JStr "a"])) eq_refl))
           [JStr "a"] eq_refl).
Defined.

Lemma legacy_file_view_round_trip_witness :
  exists p1 p2 p3 p4,
    LegacyServer.step legacy_connected (LegacyServer.HttpFileView "d" "f.txt") =
      Some p1 /\
    LegacyServer.run p1
      [LegacyServer.AgentMessage (Some (file_message "d/f.txt" "QQ=="));
       LegacyServer.Tick 100] = Some p2 /\
    LegacyServer.step p2 (LegacyServer.ViewWake 0) = Some p3 /\
    LegacyServer.step p3 (LegacyServer.SendFileDone 0 false) = Some p4 /\
    alive (LegacyServer.base p4) = true.
Proof.
  destruct (LegacyFacts.legacy_file_view_round_trip legacy_connected
              "d" "f.txt" "d/f.txt" "QQ==" 100)
    as (p1 & p2 & p3 & p4 & H1 & _ & _ & H2 & H3 & _ & H4 & H5 & _).
  - vm_compute. reflexivity.
  - vm_compute. reflexivity.
  - vm_compute. reflexivity.
  - vm_compute. reflexivity.
  - vm_compute. reflexivity.
  - lia.
  - exists p1, p2, p3, p4. repeat split; assumption.
Defined.

Lemma legacy_second_deletion_ends_the_process_witness :
  exists p1 p2,
    LegacyServer.step (legacy_after legacy_two_views)
      (LegacyServer.SendFileDone 0 false) = Some p1 /\
    LegacyServer.step p1 (LegacyServer.SendFileDone 1 false) = Some p2 /\
    alive (LegacyServer.base p2) = false.
Proof.
  destruct (LegacyFacts.legacy_second_deletion_ends_the_process
              (legacy_after legacy_two_views) 0 1 "uploads/d_f.txt")
    as (p1 & p2 & H1 & _ & H2 & H3 & _).
  - vm_compute. reflexivity.
  - discriminate.
  - vm_compute. reflexivity.
  - vm_compute. reflexivity.
  - vm_compute. eauto.
  - exists p1, p2. repeat split; assumption.
Defined.

Lemma legacy_view_gives_up_only_after_its_deadline_witness :
  exists t0 fp,
    (t0, SentFile (0, 0) fp)
      ∈ trace (LegacyServer.base (legacy_after legacy_no_file)) /\
    (t0 + 15000 <= 15000)%Z.
Proof.
  apply (proj1 (LegacyDeadlineFacts.legacy_view_gives_up_only_after_its_deadline
                  (legacy_after legacy_no_file)
                  (ex_intro _ legacy_no_file eq_refl))).
  compute_eq (trace (LegacyServer.base (legacy_after legacy_no_file))) E.
  rewrite E. apply list_elem_of_In. simpl. tauto.
Defined.

Lemma staging_places_collide_up_to_separators_witness :
  staged "a/b" = staged "a_b".
Proof.
  apply (proj1 (StagingLaws.staging_places_collide_up_to_separators
                  "a/b" "a_b" eq_refl eq_refl)).
  reflexivity.
Defined.

Lemma unsolicited_arrival_is_staged_witness :
  exists st',
    step connected (AgentMessage (Some (file_message "x/y.bin" "QQ=="))) =
      Some st' /\
    uploads st' = <[staged "x/y.bin" := FromBase64 "QQ=="]> (uploads connected).
Proof.
  destruct (StagingLaws.unsolicited_arrival_is_staged connected "x/y.bin" "QQ==")
    as (st' & H1 & H2 & _).
  - apply reachable_after. vm_compute. eauto.
  - vm_compute. reflexivity.
  - vm_compute. reflexivity.
  - assert (E : listeners connected = []) by (vm_compute; reflexivity).
    intros w Hw. rewrite E in Hw. now apply elem_of_nil in Hw.
  - exists st'. split; [exact H1|exact H2].
Defined.

Lemma connection_changes_the_socket_only_witness :
  exists st1 st2,
    step view_sending AgentCloses = Some st1 /\
    step st1 AgentConnects = Some st2 /\
    uploads st2 = uploads view_sending /\ tasks st2 = tasks view_sending.
Proof.
  destruct (ConnectionFacts.connection_changes_the_socket_only view_sending)
    as (st1 & st2 & H1 & H2 & _ & _ & _ & _ & H3 & _ & H4 & _).
  - vm_compute. reflexivity.
  - exists st1, st2. repeat split; assumption.
Defined.

End MoreRunFacts.

(** ** No request waits for ever *)

Module PendingFacts.
Import JsString Js Server StateFacts Invariants WaiterFacts StructureFacts
  TraceFacts ListingFacts TimeoutFacts ArchiveRun ArchiveFacts ArrivalFacts
  Pending.

Lemma local_ids_mono (r : nat) (st st' : state) (f : fetch_id) :
  local_to r st st' -> f ∈ ids st -> f ∈ ids st'.
Proof.
  intros Hloc Hf. unfold ids in *.
  destruct (local_listeners _ _ _ Hloc) as [->|(w & -> & _)]; [exact Hf|].
  rewrite fmap_app. apply elem_of_app. now left.
Qed.

Lemma awaiting_same (st st' : state) (f : fetch_id) :
  tasks st' !! f.1 = tasks st !! f.1 -> awaiting st' f -> awaiting st f.
Proof. unfold awaiting. now intros ->. Qed.

(** A step of request [r] that leaves [r] with its waiter keeps every
    waiting request with its own. *)
Lemma local_owned (r : nat) q (st st' : state) :
  local_to r st st' -> owned q st -> owned_at r st' -> owned q st'.
Proof.
  intros Hloc Ho Hr f Hf.
  destruct (decide (f.1 = r)) as [Heq|Hne]; [left; now apply Hr|].
  assert (Hf0 : awaiting st f).
  { apply (awaiting_same st st'); [|exact Hf].
    now apply (local_tasks _ _ _ Hloc). }
  destruct (Ho f Hf0) as [Hin|Hin]; [left|now right].
  now apply (local_ids_mono r st st').
Qed.

Lemma owned_at_none (r : nat) (st : state) (t : option task) :
  tasks st !! r = t ->
  match t with
  | Some ViewAwaiting | Some (ZipAwaiting _ _ _ _) => False
  | _ => True
  end ->
  owned_at r st.
Proof.
  intros Ht Hk f Hf Haw. unfold awaiting in Haw. rewrite Hf, Ht in Haw.
  now destruct t as [[]|].
Qed.

Lemma zip_loop_owned req dir files :
  forall idx st,
    tasks st !! req = None -> owned_at req (zip_loop req dir idx files st).
Proof.
  induction files as [|file rest IH]; intros idx st Hnone; simpl.
  - apply (owned_at_none req _ (Some ZipFinalizing)); [|exact I].
    st_simpl. apply lookup_insert_eq.
  - destruct (to_string file) as [shown|];
      [|now apply (owned_at_none req _ None)].
    pose proof (fetch_control (req, idx) dir file
                  (console (LogFetchingForZip shown) st)) as Hc.
    destruct (fetchFileFromAgent _ _ _ _) as [[] st1|e st1].
    + destruct Hc as (name & -> & Hl & Ht & _).
      intros f Hf Haw. unfold awaiting in Haw. rewrite Hf in Haw.
      st_simpl. rewrite lookup_insert_eq in Haw.
      unfold ids. st_simpl. rewrite Hl, fmap_app. apply elem_of_app. right.
      cbn [fmap list_fmap w_id]. destruct f as [f1 f2]. cbn [fst snd] in *.
      subst. now left.
    + apply control_eq in Hc as (_ & Ht & _). apply IH.
      st_simpl. now rewrite Ht.
Qed.

Lemma zip_settled_owned req dir idx file rest v st :
  tasks st !! req = None ->
  owned_at req (zip_settled req dir idx file rest v st).
Proof.
  intros Hnone. unfold zip_settled. apply zip_loop_owned.
  destruct v as [p|]; [|exact Hnone].
  destruct (String.eqb p ""); [exact Hnone|].
  now destruct file; try (destruct (to_string _)).
Qed.

Lemma view_settled_owned req v st :
  tasks st !! req = None -> owned_at req (view_settled req v st).
Proof.
  intros Hnone. unfold view_settled.
  destruct v as [p|];
    [destruct (String.eqb p ""); [|destruct (send_refused p)]|].
  - now apply (owned_at_none req _ None).
  - now apply (owned_at_none req _ None).
  - apply (owned_at_none req _ (Some (ViewSending p))); [|exact I].
    st_simpl. apply lookup_insert_eq.
  - now apply (owned_at_none req _ None).
Qed.

Lemma resume_owned f v q st :
  Inv st -> Queued st ((f, v) :: q) -> owned ((f, v) :: q) st ->
  owned q (resume (f, v) st).
Proof.
  intros HI HQ Ho.
  assert (Haw : awaiting st f) by (apply (queued_owner _ _ HQ); now left).
  pose proof (resume_local f v st) as Hloc.
  assert (Hat : owned_at f.1 (resume (f, v) st)).
  { destruct f as [r i]. unfold awaiting in Haw. cbn [fst snd] in *.
    unfold resume.
    destruct (tasks st !! r) as [[]|] eqn:Htask; try contradiction.
    - subst i. cbn [Nat.eqb]. apply view_settled_owned.
      st_simpl. apply lookup_delete_eq.
    - subst i. rewrite Nat.eqb_refl. apply zip_settled_owned.
      st_simpl. apply lookup_delete_eq. }
  intros g Hg.
  destruct (decide (g.1 = f.1)) as [Heq|Hne]; [left; now apply Hat|].
  assert (Hg0 : awaiting st g).
  { apply (awaiting_same st (resume (f, v) st)); [|exact Hg].
    now apply (local_tasks _ _ _ Hloc). }
  destruct (Ho g Hg0) as [Hin|Hin].
  - left. now apply (local_ids_mono f.1 st).
  - cbn [fmap list_fmap fst] in Hin. apply elem_of_cons in Hin as [->|Hin];
      [congruence|now right].
Qed.

Lemma drain_from_owned q :
  forall st, Inv st -> Queued st q -> owned q st ->
             owned [] (fold_left (fun s m => resume m s) q st).
Proof.
  induction q as [|[f v] q IH]; intros st HI HQ Ho; cbn [fold_left]; [exact Ho|].
  destruct (resume_Inv f v q st HI HQ) as (HI' & HQ' & _).
  apply IH; try assumption. now apply resume_owned.
Qed.

Lemma owned_ext q (st st' : state) :
  listeners st' = listeners st -> tasks st' = tasks st ->
  owned q st -> owned q st'.
Proof.
  intros Hl Ht Ho f Hf. unfold ids, awaiting in *. rewrite Hl.
  rewrite Ht in Hf. now apply Ho.
Qed.

Lemma drain_owned (st : state) :
  Inv st -> Queued st (microtasks st) -> owned (microtasks st) st ->
  owned [] (drain st).
Proof.
  intros HI HQ Ho. unfold drain. apply drain_from_owned.
  - eapply Inv_ext; [| | |exact HI]; reflexivity.
  - eapply Queued_ext; [| |exact HQ]; reflexivity.
  - now apply (owned_ext _ st).
Qed.

Lemma emit_owned (fd : fileData) (st : state) :
  Inv st -> microtasks st = [] -> owned [] st ->
  owned (microtasks (fileEvents_emit fd st)) (fileEvents_emit fd st).
Proof.
  intros HI Hq Ho f Hf.
  assert (Hf0 : awaiting st f).
  { apply (awaiting_same st (fileEvents_emit fd st)); [|exact Hf].
    now rewrite emit_tasks. }
  destruct (Ho f Hf0) as [Hin|Hin]; [|now apply elem_of_nil in Hin].
  unfold ids in Hin. apply list_elem_of_fmap in Hin as (w & -> & Hw).
  destruct (Matching.handler_matches (w_filePath w) (fd_path fd)) eqn:Hm.
  - right. unfold fileEvents_emit. rewrite emit_from_microtasks, Hq.
    cbn [app]. rewrite <- list_fmap_compose.
    apply (list_elem_of_fmap_2 (fst ∘ (fun w => (w_id w, Some (fd_savePath fd))))).
    unfold matching. apply list_elem_of_filter. now split.
  - left. unfold ids. apply list_elem_of_fmap_2.
    apply emit_listeners; [apply (inv_nodup st HI)|now split].
Qed.

Lemma on_timeout_owned (f : fetch_id) (st : state) :
  microtasks st = [] -> owned [] st ->
  owned (microtasks (on_timeout f st)) (on_timeout f st).
Proof.
  intros Hq Ho g Hg.
  assert (Hg0 : awaiting st g) by exact Hg.
  destruct (Ho g Hg0) as [Hin|Hin]; [|now apply elem_of_nil in Hin].
  destruct (decide (g = f)) as [->|Hne].
  - right. unfold on_timeout. st_simpl. rewrite Hq. now left.
  - left. apply (off_ids f g st). now split.
Qed.

Lemma files_poll_owned r dir timeout st :
  tasks st !! r = None -> owned_at r (files_poll r dir timeout st).
Proof.
  intros Hnone. unfold files_poll, files_finish.
  destruct (_ && _).
  - apply (owned_at_none r _ (Some (FilesPolling dir timeout (now st + 100))));
      [|exact I]. st_simpl. apply lookup_insert_eq.
  - destruct (no_listing st dir); [now apply (owned_at_none r _ None)|].
    destruct (tempDirFiles st !! dir); now apply (owned_at_none r _ None).
Qed.

Lemma get_files_owned r dir st :
  tasks st !! r = None -> owned_at r (get_files r dir st).
Proof.
  intros Hnone. unfold get_files.
  destruct (negb (socket_open st)); [now apply (owned_at_none r _ None)|].
  destruct (no_listing st dir) eqn:Hno.
  - unfold agentSocket_send. destruct (agentSocket st) as [[]|];
      try (now apply (owned_at_none r _ None)); now apply files_poll_owned.
  - unfold files_finish. rewrite Hno.
    destruct (tempDirFiles st !! dir); now apply (owned_at_none r _ None).
Qed.

Lemma get_file_view_owned r dir filename st :
  tasks st !! r = None -> owned_at r (get_file_view r dir filename st).
Proof.
  intros Hnone. unfold get_file_view.
  destruct (negb (socket_open st)); [now apply (owned_at_none r _ None)|].
  pose proof (fetch_control (r, 0) dir (JStr filename) st) as Hc.
  destruct (fetchFileFromAgent _ _ _ _) as [[] st1|e st1].
  - destruct Hc as (name & _ & Hl & _).
    intros f Hf Haw. unfold awaiting in Haw. rewrite Hf in Haw.
    st_simpl. rewrite lookup_insert_eq in Haw.
    unfold ids. st_simpl. rewrite Hl, fmap_app. apply elem_of_app. right.
    cbn [fmap list_fmap w_id]. destruct f as [f1 f2]. cbn [fst snd] in *.
    subst. now left.
  - apply control_eq in Hc as (_ & Ht & _).
    apply (owned_at_none r _ None); [|exact I]. st_simpl. now rewrite Ht.
Qed.

Lemma get_download_all_owned r dir st :
  tasks st !! r = None -> owned_at r (get_download_all r dir st).
Proof.
  intros Hnone. unfold get_download_all.
  destruct (negb (socket_open st)); [now apply (owned_at_none r _ None)|].
  destruct (no_listing st dir); [now apply (owned_at_none r _ None)|].
  destruct (tempDirFiles st !! dir) as [files|];
    [|now apply (owned_at_none r _ None)].
  destruct (render _); [|now apply (owned_at_none r _ None)].
  destruct (iterate files); [|now apply (owned_at_none r _ None)].
  now apply zip_loop_owned.
Qed.

Lemma step_owned (st st' : state) (i : input) :
  Good st -> owned [] st -> step st i = Some st' -> owned [] st'.
Proof.
  intros [HI Hq] Ho Hstep. unfold step in Hstep.
  destruct (negb (alive st)); [discriminate|].
  destruct i.
  - destruct (0 <=? dt)%Z; [|discriminate]. injection Hstep as <-.
    now apply (owned_ext _ st).
  - injection Hstep as <-. now apply (owned_ext _ st).
  - destruct (agentSocket st); [|discriminate]. injection Hstep as <-.
    now apply (owned_ext _ st).
  - injection Hstep as <-. now apply (owned_ext _ st).
  - pose proof (ws_on_message_cases message st) as Hc.
    destruct (ws_on_message message st) as [[] st1|e st1];
      injection Hstep as <-.
    + destruct Hc as [(data & p & b & _ & _ & _ & _ & ->)|
                      [(data & key & listing & count & _ & _ & _ & ->)| ->]].
      * set (fd := FileData p _). set (st0 := console _ _).
        assert (HI0 : Inv st0) by (eapply Inv_ext; [| | |exact HI]; reflexivity).
        destruct (emit_Inv fd st0 HI0 Hq) as [HI1 HQ1].
        apply drain_owned; try assumption.
        now apply emit_owned.
      * apply drain_owned.
        -- eapply Inv_ext; [| | |exact HI]; reflexivity.
        -- st_simpl. rewrite Hq. apply Queued_nil.
        -- st_simpl. rewrite Hq. now apply (owned_ext _ st).
      * apply drain_owned; try assumption.
        -- rewrite Hq. apply Queued_nil.
        -- now rewrite Hq.
    + apply (owned_ext _ st); try assumption;
        now destruct Hc as [->|[f ->]].
  - destruct (find_waiter f st) as [w|] eqn:Hw; [|discriminate].
    destruct (w_due w <=? now st)%Z; [|discriminate]. injection Hstep as <-.
    apply find_waiter_Some in Hw as [Hw <-].
    destruct (on_timeout_Inv (w_id w) st HI Hq) as [HI1 HQ1];
      [now apply list_elem_of_fmap_2|].
    apply drain_owned; try assumption. now apply on_timeout_owned.
  - destruct (tasks st !! req) as [[]|] eqn:Ht; try discriminate.
    destruct (wake <=? now st)%Z; [|discriminate]. injection Hstep as <-.
    apply (local_owned req [] st); try assumption.
    + apply del_task_then_local, files_poll_local.
    + apply files_poll_owned. st_simpl. apply lookup_delete_eq.
  - injection Hstep as <-.
    apply (local_owned (next_req st) [] (new_request st)).
    + apply get_files_local.
    + now apply (owned_ext _ st).
    + apply get_files_owned. now apply OnceFacts.fresh_is_free.
  - injection Hstep as <-.
    apply (local_owned (next_req st) [] (new_request st)).
    + apply get_file_view_local.
    + now apply (owned_ext _ st).
    + apply get_file_view_owned. now apply OnceFacts.fresh_is_free.
  - injection Hstep as <-.
    apply (local_owned (next_req st) [] (new_request st)).
    + apply get_download_all_local.
    + now apply (owned_ext _ st).
    + apply get_download_all_owned. now apply OnceFacts.fresh_is_free.
  - destruct (tasks st !! req) as [[]|] eqn:Ht; try discriminate.
    injection Hstep as <-.
    destruct (control_eq _ _ (sendFile_callback_control savePath err
                                (del_task req st))) as (Hl & Htk & Hm & Hn).
    apply (local_owned req [] st); try assumption.
    + apply del_task_then_local. apply local_to_quiet; try assumption.
      intros r' _. now rewrite Htk.
    + apply (owned_at_none req _ None); [|exact I].
      rewrite Htk. st_simpl. apply lookup_delete_eq.
  - destruct (tasks st !! req) as [[]|] eqn:Ht; try discriminate.
    injection Hstep as <-.
    apply (local_owned req [] st); try assumption.
    + apply del_task_then_local. apply local_to_quiet; reflexivity.
    + apply (owned_at_none req _ None); [|exact I].
      st_simpl. apply lookup_delete_eq.
Qed.

Lemma reachable_owned (st : state) : reachable st -> owned [] st.
Proof.
  intros [inputs Hrun].
  pose proof init_Good as HG.
  assert (Ho : owned [] init).
  { intros f Hf. unfold awaiting in Hf.
    change (tasks init) with (∅ : gmap nat task) in Hf.
    now rewrite lookup_empty in Hf. }
  revert Hrun HG Ho. generalize init as s.
  induction inputs as [|i rest IH]; intros s Hrun HG Ho; simpl in Hrun.
  - now injection Hrun as <-.
  - destruct (step s i) as [s1|] eqn:Hs; [|discriminate].
    apply (IH s1 Hrun).
    + now apply (step_Good s s1 i).
    + now apply (step_owned s s1 i).
Qed.

(** The waiter of the fetch a request is suspended on. *)
Lemma waiter_of_awaiting (st : state) (f : fetch_id) :
  reachable st -> awaiting st f -> exists w, w ∈ listeners st /\ w_id w = f.
Proof.
  intros Hreach Haw.
  destruct (reachable_owned st Hreach f Haw) as [Hin|Hin];
    [|now apply elem_of_nil in Hin].
  unfold ids in Hin. apply list_elem_of_fmap in Hin as (w & -> & Hw). eauto.
Qed.

(** Letting the time pass until the timer of [w] is due. *)
Lemma wait_for_timer (st : state) (w : waiter) :
  reachable st -> alive st = true -> w ∈ listeners st ->
  exists dt st1 st2,
    step st (Tick dt) = Some st1 /\
    step st1 (FetchTimeout (w_id w)) = Some st2 /\
    reachable st1 /\ w ∈ listeners st1 /\ tasks st1 = tasks st /\
    events st1 = events st /\ alive st1 = true.
Proof.
  intros Hreach Halive Hw.
  set (dt := Z.max 0 (w_due w - now st)).
  set (st1 := set_now (fun t => (t + dt)%Z) st).
  assert (H1 : step st (Tick dt) = Some st1).
  { unfold step. rewrite Halive. cbn [negb].
    assert (H0 : (0 <=? dt)%Z = true) by (apply Z.leb_le; unfold dt; lia).
    now rewrite H0. }
  assert (Hreach1 : reachable st1) by exact (reachable_step st st1 _ Hreach H1).
  assert (Hw1 : w ∈ listeners st1) by exact Hw.
  assert (Hf : find_waiter (w_id w) st1 = Some w).
  { apply find_waiter_unique; [|exact Hw1].
    apply (inv_nodup st1). apply (reachable_Good st1 Hreach1). }
  assert (Hdue : (w_due w <=? now st1)%Z = true).
  { apply Z.leb_le. unfold st1, dt. st_simpl. lia. }
  exists dt, st1, (drain (on_timeout (w_id w) st1)).
  split; [exact H1|]. split.
  { unfold step. change (alive st1) with (alive st). rewrite Halive.
    cbn [negb]. now rewrite Hf, Hdue. }
  now repeat split.
Qed.

(** X25: in every reachable state a request that is suspended on a fetch
    has the waiter of that fetch registered, so its 60 s timer is
    pending; and when nothing arrives, letting that timer go off ends a
    file view with 504 "File upload timeout". *)
Theorem waiting_requests_have_their_timer (st : state) (r : nat) :
  reachable st ->
  (tasks st !! r = Some ViewAwaiting ->
   exists w, w ∈ listeners st /\ w_id w = (r, 0)) /\
  (forall dir idx file rest,
     tasks st !! r = Some (ZipAwaiting dir idx file rest) ->
     exists w, w ∈ listeners st /\ w_id w = (r, idx)) /\
  (alive st = true -> tasks st !! r = Some ViewAwaiting ->
   exists dt st',
     run st [Tick dt; FetchTimeout (r, 0)] = Some st' /\
     new_events st st' =
       [Settled (r, 0) None;
        Responded r (StatusJson 504 "File upload timeout")]).
Proof.
  intros Hreach.
  assert (Hview : tasks st !! r = Some ViewAwaiting ->
                  exists w, w ∈ listeners st /\ w_id w = (r, 0)).
  { intros Ht. apply waiter_of_awaiting; [exact Hreach|].
    unfold awaiting. cbn [fst snd]. now rewrite Ht. }
  split; [exact Hview|]. split.
  - intros dir idx file rest Ht. apply waiter_of_awaiting; [exact Hreach|].
    unfold awaiting. cbn [fst snd]. now rewrite Ht.
  - intros Halive Ht. destruct (Hview Ht) as (w & Hw & Hid).
    destruct (wait_for_timer st w Hreach Halive Hw)
      as (dt & st1 & st2 & H1 & H2 & Hreach1 & Hw1 & Ht1 & He1 & _).
    exists dt, st2. split.
    { cbn [run]. rewrite H1. rewrite Hid in H2. now rewrite H2. }
    destruct (timeout_settles_null st1 st2 w (reachable_Good st1 Hreach1)
                Hw1 H2) as (rest & Hnew & _ & Hrest).
    rewrite Hid in Hnew, Hrest. cbn [fst] in Hrest.
    rewrite Ht1 in Hrest. rewrite (Hrest Ht) in Hnew.
    unfold new_events in *. unfold events in He1.
    assert (Hlen : length (trace st) = length (trace st1)).
    { rewrite <- (length_map snd (trace st)), <- He1. apply length_map. }
    now rewrite Hlen.
Qed.

(** X26: every archive run can be brought to the closing of its archive
    by timers alone, whatever the agent does or fails to do: from any
    reachable state in which a run waits for an entry, letting the
    pending timers of that run go off, one after the other, leads to a
    state in which the process is alive and the run is finalizing. *)
Theorem every_archive_run_can_finish (st : state) (r : nat) (dir : string)
    (idx : nat) (file : json) (rest : list json) :
  reachable st -> alive st = true ->
  tasks st !! r = Some (ZipAwaiting dir idx file rest) ->
  Forall printable rest ->
  exists inputs st',
    run st inputs = Some st' /\ Forall is_timer inputs /\
    alive st' = true /\ tasks st' !! r = Some ZipFinalizing.
Proof.
  remember (length rest) as n eqn:Hn.
  revert st idx file rest Hn.
  induction (lt_wf n) as [n _ IH].
  intros st idx file rest Hn Hreach Halive Ht Hp.
  destruct (waiter_of_awaiting st (r, idx) Hreach) as (w & Hw & Hid).
  { unfold awaiting. cbn [fst snd]. now rewrite Ht. }
  destruct (wait_for_timer st w Hreach Halive Hw)
    as (dt & st1 & st2 & H1 & H2 & Hreach1 & Hw1 & Ht1 & _ & _).
  rewrite Hid in H2.
  assert (Ht1' : tasks st1 !! r = Some (ZipAwaiting dir idx file rest))
    by now rewrite Ht1.
  destruct (timeout_goes_on st1 st2 r dir idx file rest
              (reachable_Good st1 Hreach1) Ht1' Hp H2)
    as (Halive2 & Hgo & _).
  assert (Hreach2 : reachable st2) by exact (reachable_step st1 st2 _ Hreach1 H2).
  assert (Hfirst : Forall is_timer [Tick dt; FetchTimeout (r, idx)]).
  { constructor; [left; eauto|].
    constructor; [right; eauto|constructor]. }
  destruct Hgo as [Hfin|(skipped & j & file' & rest' & Ht2 & Hrest)].
  - exists [Tick dt; FetchTimeout (r, idx)], st2.
    split; [cbn [run]; now rewrite H1, H2|]. now repeat split.
  - assert (Hlt : length rest' < n).
    { subst n rest. rewrite length_app. simpl. lia. }
    assert (Hp' : Forall printable rest').
    { subst rest. apply Forall_app in Hp as [_ Hp].
      now apply Forall_cons in Hp as [_ Hp]. }
    destruct (IH (length rest') Hlt st2 j file' rest' eq_refl Hreach2
                Halive2 Ht2 Hp') as (inputs & st' & Hrun & Hall & Ha & Hf).
    exists ([Tick dt; FetchTimeout (r, idx)] ++ inputs), st'.
    split; [|split; [now apply Forall_app|now split]].
    rewrite run_app. cbn [run]. now rewrite H1, H2.
Qed.

End PendingFacts.

Module PendingRunFacts.
Import JsString Spec Js Server StateFacts Invariants ArchiveRun Runs RunFacts
  Pending PendingRuns.

Lemma waiting_requests_have_their_timer_witness :
  reachable one_view /\
  (exists w, w ∈ listeners one_view /\ w_id w = (0, 0)) /\
  exists dt st',
    run one_view [Tick dt; FetchTimeout (0, 0)] = Some st' /\
    new_events one_view st' =
      [Settled (0, 0) None;
       Responded 0 (StatusJson 504 "File upload timeout")].
Proof.
  assert (H : reachable one_view).
  { apply reachable_after. vm_compute. eauto. }
  destruct (PendingFacts.waiting_requests_have_their_timer one_view 0 H)
    as (Hv & _ & Ht).
  split; [exact H|]. split.
  - apply Hv. vm_compute. reflexivity.
  - apply Ht; vm_compute; reflexivity.
Defined.

Lemma every_archive_run_can_finish_witness :
  exists inputs st',
    run archive_waiting inputs = Some st' /\ Forall is_timer inputs /\
    alive st' = true /\ tasks st' !! 0 = Some ZipFinalizing.
Proof.
  apply (PendingFacts.every_archive_run_can_finish archive_waiting 0
           "/sdcard/dl" 0 (JStr "a.jpg") [JStr "b.jpg"; JStr "c.jpg"]).
  - apply reachable_after. vm_compute. eauto.
  - vm_compute. reflexivity.
  - vm_compute. reflexivity.
  - constructor; [vm_compute; eauto|].
    constructor; [vm_compute; eauto|constructor].
Defined.

End PendingRunFacts.
